(** * piboy radio: playback engine, playlist and controls

    A shallow embedding of [app/RadioApp.py]: the [AudioPlayer] engine, the
    playlist actions of [RadioApp], the volume stepping and the
    [Control]/[SwitchControl]/[ControlGroup] state machine, followed by the
    properties the design document states about them.

    Python integers are [Z]; [//] and [%] with a positive divisor are
    [Z.div] and [Z.modulo] (both floor).  A method that mutates [self] and
    may raise is a function from the state to an [outcome] and the state it
    leaves behind: an exception does not undo the assignments made before
    it. *)

From Stdlib Require Import ZArith List String Ascii Bool Lia QArith Qminmax.
From Stdlib Require Import Permutation.
Import ListNotations.

Local Open Scope Z_scope.

(** ** Exceptions and the state-and-exception monad *)

Inductive exn : Type :=
| ValueError
| IndexError
| AttributeError
| FileNotFoundError
| WaveError
| OSError.

Inductive outcome (A : Type) : Type :=
| Ret (a : A)
| Raise (e : exn).
Arguments Ret {A} a.
Arguments Raise {A} e.

Definition M (S A : Type) : Type := S -> outcome A * S.

Definition ret {S A : Type} (a : A) : M S A := fun s => (Ret a, s).

Definition bind {S A B : Type} (m : M S A) (k : A -> M S B) : M S B :=
  fun s =>
    match m s with
    | (Ret a, s') => k a s'
    | (Raise e, s') => (Raise e, s')
    end.

Definition gets {S A : Type} (f : S -> A) : M S A := fun s => (Ret (f s), s).

Definition modify {S : Type} (f : S -> S) : M S unit := fun s => (Ret tt, f s).

(** [try: m except ValueError: pass] *)
Definition except_ValueError_pass {S : Type} (m : M S unit) : M S unit :=
  fun s =>
    match m s with
    | (Raise ValueError, s') => (Ret tt, s')
    | r => r
    end.

Definition when {S : Type} (b : bool) (m : M S unit) : M S unit :=
  if b then m else ret tt.

Declare Scope py_scope.
Delimit Scope py_scope with py.
Notation "x <- m ;; k" := (bind m (fun x => k))
  (at level 61, m at next level, right associativity) : py_scope.
Notation "m ;;; k" := (bind m (fun _ => k))
  (at level 61, right associativity) : py_scope.
Local Open Scope py_scope.

(** The state a call leaves behind and what it returned or raised. *)
Definition state_of {S A : Type} (r : outcome A * S) : S := snd r.
Definition result_of {S A : Type} (r : outcome A * S) : outcome A := fst r.

(** ** Python lists *)

Definition len {A : Type} (l : list A) : Z := Z.of_nat (List.length l).

(** [l[i]]: a negative index counts from the end, anything outside
    [-len .. len-1] raises [IndexError]. *)
Definition getitem {A : Type} (l : list A) (i : Z) : outcome A :=
  let j := if i <? 0 then i + len l else i in
  if j <? 0 then Raise IndexError
  else match nth_error l (Z.to_nat j) with
       | Some a => Ret a
       | None => Raise IndexError
       end.

(** [l.index(x)]: position of the first occurrence, [ValueError] if none. *)
Fixpoint index_from (k : Z) (l : list Z) (x : Z) : outcome Z :=
  match l with
  | [] => Raise ValueError
  | y :: l' => if y =? x then Ret k else index_from (k + 1) l' x
  end.

Definition index (l : list Z) (x : Z) : outcome Z := index_from 0 l x.

(** [list(range(0, n))] *)
Definition range (n : nat) : list Z := map Z.of_nat (seq 0 n).

(** [x[i], x[j] = x[j], x[i]] for indices inside the list. *)
Fixpoint set_nth {A : Type} (i : nat) (a : A) (l : list A) : list A :=
  match l, i with
  | [], _ => []
  | _ :: l', O => a :: l'
  | b :: l', S i' => b :: set_nth i' a l'
  end.

Definition swap (i j : nat) (x : list Z) : list Z :=
  match nth_error x i, nth_error x j with
  | Some xi, Some xj => set_nth j xi (set_nth i xj x)
  | _, _ => x
  end.

(** [random.shuffle(x)] of the Python library:
    [for i in reversed(range(1, len(x))): j = randbelow(i + 1); swap i j].
    The generator is the list [draws] of the numbers it will hand out, each
    reduced into [0 .. i]; a missing draw counts as 0. *)
Fixpoint shuffle_loop (i : nat) (draws : list nat) (x : list Z) : list Z :=
  match i with
  | O => x
  | S i' =>
      let j := Nat.modulo (hd O draws) (S i) in
      shuffle_loop i' (tl draws) (swap i j x)
  end.

Definition shuffle (draws : list nat) (x : list Z) : list Z :=
  shuffle_loop (List.length x - 1) draws x.

(** [os.path.join(a, b)] for two components. *)
Definition starts_with_sep (s : string) : bool :=
  match s with
  | String c _ => Ascii.eqb c "/"%char
  | EmptyString => false
  end.

Fixpoint ends_with_sep (s : string) : bool :=
  match s with
  | EmptyString => false
  | String c EmptyString => Ascii.eqb c "/"%char
  | String _ s' => ends_with_sep s'
  end.

Definition path_join (a b : string) : string :=
  if starts_with_sep b then b
  else if (String.eqb a "" || ends_with_sep a)%bool then (a ++ b)%string
  else (a ++ "/" ++ b)%string.

(** ** The environment: files on disk and the audio device *)

(** [wave_open path] is what [wave.open(path, 'rb')] followed by
    [getnframes()] gives: the frame count of the file, or the exception
    raised when it cannot be opened or is no WAV file.  [pa_open path] is
    whether PyAudio manages to open an output stream for it. *)
Record Env : Type := {
  wave_open : string -> outcome Z;
  pa_open : string -> outcome unit
}.

(** ** AudioPlayer *)

Module AudioPlayer.

(** An open [wave.Wave_read]: frames in the file and read position. *)
Record Wave_read : Type := {
  nframes : Z;
  position : Z
}.

(** [readframes(n)]: the number of frames delivered (never more than are
    left in the file) and the reader after the read. *)
Definition readframes (n : Z) (w : Wave_read) : Z * Wave_read :=
  let k := Z.max 0 (Z.min n (nframes w - position w)) in
  (k, {| nframes := nframes w; position := position w + k |}).

(** A [pyaudio.Stream]; [active] is what [is_active()] answers. *)
Record Stream : Type := {
  active : bool
}.

Inductive PaStatus : Type := paContinue | paComplete.

Record t : Type := {
  total_frames : Z;
  played_frames : Z;
  wave_read : option Wave_read;
  stream : option Stream;
  is_continuing : bool
}.

(** [__init__] *)
Definition init : t :=
  {| total_frames := 0; played_frames := 0; wave_read := None;
     stream := None; is_continuing := false |}.

(** What one run of the pull callback hands back to the driver: the
    frames in the returned buffer, the status, and whether the thread
    that later runs [callback_next] was started. *)
Record CallbackResult : Type := {
  data_frames : Z;
  status : PaStatus;
  call_next_scheduled : bool
}.

(** [__stream_callback(_, frame_count, _, _)].  A stream whose callback
    answered [paComplete] is no longer active. *)
Definition stream_callback (frame_count : Z) : M t CallbackResult :=
  fun p =>
    match wave_read p with
    | None => (Raise AttributeError, p)
    | Some w =>
        let (got, w') := readframes frame_count w in
        let played := played_frames p + frame_count in
        if total_frames p <=? played then
          (Ret {| data_frames := 0; status := paComplete;
                  call_next_scheduled := true |},
           {| total_frames := total_frames p; played_frames := played;
              wave_read := Some w';
              stream := option_map (fun _ => {| active := false |}) (stream p);
              is_continuing := is_continuing p |})
        else
          (Ret {| data_frames := got; status := paContinue;
                  call_next_scheduled := false |},
           {| total_frames := total_frames p; played_frames := played;
              wave_read := Some w'; stream := stream p;
              is_continuing := is_continuing p |})
    end.

(** [load_file(file_path)].  PyAudio starts a stream as it opens it. *)
Definition load_file (env : Env) (file_path : string) : M t unit :=
  fun p =>
    match wave_open env file_path with
    | Raise e => (Raise e, p)
    | Ret n =>
        let p1 := {| total_frames := n; played_frames := 0;
                     wave_read := Some {| nframes := n; position := 0 |};
                     stream := stream p; is_continuing := is_continuing p |} in
        match pa_open env file_path with
        | Raise e => (Raise e, p1)
        | Ret _ =>
            (Ret tt,
             {| total_frames := n; played_frames := 0;
                wave_read := wave_read p1;
                stream := Some {| active := true |};
                is_continuing := is_continuing p |})
        end
    end.

(** [start_stream()] *)
Definition start_stream : M t bool :=
  fun p =>
    match stream p with
    | Some _ =>
        (Ret true,
         {| total_frames := total_frames p; played_frames := played_frames p;
            wave_read := wave_read p; stream := Some {| active := true |};
            is_continuing := true |})
    | None => (Ret false, p)
    end.

(** [pause_stream()] *)
Definition pause_stream : M t bool :=
  fun p =>
    match stream p with
    | Some _ =>
        (Ret true,
         {| total_frames := total_frames p; played_frames := played_frames p;
            wave_read := wave_read p; stream := Some {| active := false |};
            is_continuing := false |})
    | None => (Ret false, p)
    end.

(** [stop_stream()] *)
Definition stop_stream : M t bool :=
  fun p =>
    match stream p with
    | Some _ =>
        (Ret true,
         {| total_frames := 0; played_frames := 0;
            wave_read := wave_read p; stream := None;
            is_continuing := false |})
    | None => (Ret false, p)
    end.

Definition has_stream (p : t) : bool :=
  match stream p with Some _ => true | None => false end.

Definition is_active (p : t) : bool :=
  match stream p with Some s => active s | None => false end.

(** [progress].  [fl] is the rounding of the exact quotient to a float
    that Python's [/] on integers performs. *)
Definition progress (fl : Q -> Q) (p : t) : option Q :=
  if total_frames p =? 0 then None
  else if total_frames p <=? played_frames p then Some 1%Q
  else Some (fl (inject_Z (played_frames p) / inject_Z (total_frames p))%Q).

End AudioPlayer.

(** ** RadioApp: playlist, playback actions, volume *)

Module RadioApp.

Definition VOLUME_STEP : Z := 10.

Definition directory : string := "media".

(** The system mixer behind [amixer]: whether the program is installed
    (running a missing program raises [FileNotFoundError]) and the level in
    percent of the first supported control, if there is one. *)
Record Mixer : Type := {
  amixer_installed : bool;
  level : option Z
}.

Record t : Type := {
  files : list string;
  selected_index : Z;
  top_index : Z;
  playlist : list Z;
  playing_index : Z;
  is_random : bool;
  volume : option Z;
  player : AudioPlayer.t;
  mixer : Mixer
}.

Definition with_selected_index (v : Z) (a : t) : t :=
  {| files := files a; selected_index := v; top_index := top_index a;
     playlist := playlist a; playing_index := playing_index a;
     is_random := is_random a; volume := volume a; player := player a;
     mixer := mixer a |}.

Definition with_playlist (v : list Z) (a : t) : t :=
  {| files := files a; selected_index := selected_index a;
     top_index := top_index a; playlist := v;
     playing_index := playing_index a; is_random := is_random a;
     volume := volume a; player := player a; mixer := mixer a |}.

Definition with_playing_index (v : Z) (a : t) : t :=
  {| files := files a; selected_index := selected_index a;
     top_index := top_index a; playlist := playlist a; playing_index := v;
     is_random := is_random a; volume := volume a; player := player a;
     mixer := mixer a |}.

Definition with_is_random (v : bool) (a : t) : t :=
  {| files := files a; selected_index := selected_index a;
     top_index := top_index a; playlist := playlist a;
     playing_index := playing_index a; is_random := v; volume := volume a;
     player := player a; mixer := mixer a |}.

Definition with_volume (v : option Z) (a : t) : t :=
  {| files := files a; selected_index := selected_index a;
     top_index := top_index a; playlist := playlist a;
     playing_index := playing_index a; is_random := is_random a;
     volume := v; player := player a; mixer := mixer a |}.

Definition with_player (v : AudioPlayer.t) (a : t) : t :=
  {| files := files a; selected_index := selected_index a;
     top_index := top_index a; playlist := playlist a;
     playing_index := playing_index a; is_random := is_random a;
     volume := volume a; player := v; mixer := mixer a |}.

Definition with_mixer (v : Mixer) (a : t) : t :=
  {| files := files a; selected_index := selected_index a;
     top_index := top_index a; playlist := playlist a;
     playing_index := playing_index a; is_random := is_random a;
     volume := volume a; player := player a; mixer := v |}.

(** A call on [self.__player]. *)
Definition on_player {A : Type} (m : M AudioPlayer.t A) : M t A :=
  fun a => let (r, p) := m (player a) in (r, with_player p a).

(** An expression over the fields that may raise. *)
Definition eval {A : Type} (f : t -> outcome A) : M t A :=
  fun a => (f a, a).

(** [__get_volume()] *)
Definition get_volume : M t Z :=
  eval (fun a =>
    if amixer_installed (mixer a) then
      match level (mixer a) with
      | Some v => Ret v
      | None => Raise ValueError
      end
    else Raise FileNotFoundError).

(** [__set_volume(volume)] *)
Definition set_volume (v : Z) : M t unit :=
  fun a =>
    if negb ((0 <=? v) && (v <=? 100)) then (Raise ValueError, a)
    else if amixer_installed (mixer a) then
      match level (mixer a) with
      | Some _ =>
          (Ret tt,
           with_mixer {| amixer_installed := true; level := Some v |} a)
      | None => (Raise ValueError, a)
      end
    else (Raise FileNotFoundError, a).

(** [stop_action()] *)
Definition stop_action : M t unit :=
  on_player AudioPlayer.stop_stream ;;; ret tt.

(** [pause_action()] *)
Definition pause_action : M t bool :=
  on_player AudioPlayer.pause_stream.

(** [play_action()] *)
Definition play_action (env : Env) : M t bool :=
  n <- gets (fun a => len (playlist a)) ;;
  if n =? 0 then ret false
  else
    cur <- eval (fun a => getitem (playlist a) (playing_index a)) ;;
    sel <- gets selected_index ;;
    when (negb (sel =? cur))
      (k <- eval (fun a => index (playlist a) (selected_index a)) ;;
       modify (with_playing_index k) ;;;
       hs <- gets (fun a => AudioPlayer.has_stream (player a)) ;;
       when hs (on_player AudioPlayer.stop_stream ;;; ret tt)) ;;;
    hs <- gets (fun a => AudioPlayer.has_stream (player a)) ;;
    when (negb hs)
      (track <- eval (fun a => getitem (playlist a) (playing_index a)) ;;
       file <- eval (fun a => getitem (files a) track) ;;
       on_player (AudioPlayer.load_file env (path_join directory file))) ;;;
    on_player AudioPlayer.start_stream ;;;
    ret true.

(** [prev_action()] *)
Definition prev_action (env : Env) : M t unit :=
  n <- gets (fun a => len (files a)) ;;
  if n =? 0 then ret tt
  else
    modify (fun a =>
      with_playing_index ((playing_index a - 1) mod len (files a)) a) ;;;
    sel <- eval (fun a => getitem (playlist a) (playing_index a)) ;;
    modify (with_selected_index sel) ;;;
    act <- gets (fun a => AudioPlayer.is_active (player a)) ;;
    when act (stop_action ;;; play_action env ;;; ret tt).

(** [skip_action()] *)
Definition skip_action (env : Env) : M t unit :=
  n <- gets (fun a => len (files a)) ;;
  if n =? 0 then ret tt
  else
    modify (fun a =>
      with_playing_index ((playing_index a + 1) mod len (files a)) a) ;;;
    sel <- eval (fun a => getitem (playlist a) (playing_index a)) ;;
    modify (with_selected_index sel) ;;;
    act <- gets (fun a => AudioPlayer.is_active (player a)) ;;
    when act (stop_action ;;; play_action env ;;; ret tt).

(** [random_action()]; [draws] is what the random generator hands out
    during this call. *)
Definition random_action (draws : list nat) : M t bool :=
  modify (with_is_random true) ;;;
  modify (fun a => with_playlist (shuffle draws (playlist a)) a) ;;;
  k <- eval (fun a => index (playlist a) (selected_index a)) ;;
  modify (with_playing_index k) ;;;
  ret true.

(** [order_action()] *)
Definition order_action : M t bool :=
  modify (with_is_random false) ;;;
  modify (fun a => with_playlist (range (List.length (files a))) a) ;;;
  modify (fun a => with_playing_index (selected_index a) a) ;;;
  ret true.

(** [decrease_volume_action()] *)
Definition decrease_volume_action : M t unit :=
  except_ValueError_pass
    (current_value <- get_volume ;;
     (if current_value mod VOLUME_STEP =? 0 then
        set_volume (Z.max (current_value - VOLUME_STEP) 0)
      else
        let aligned_value := current_value / VOLUME_STEP * VOLUME_STEP in
        set_volume (Z.max (aligned_value - VOLUME_STEP) 0)) ;;;
     v <- get_volume ;;
     modify (with_volume (Some v))).

(** [increase_volume_action()] *)
Definition increase_volume_action : M t unit :=
  except_ValueError_pass
    (current_value <- get_volume ;;
     (if current_value mod VOLUME_STEP =? 0 then
        set_volume (Z.min (current_value + VOLUME_STEP) 100)
      else
        let aligned_value :=
          (current_value + VOLUME_STEP) / VOLUME_STEP * VOLUME_STEP in
        set_volume (Z.min (aligned_value + VOLUME_STEP) 100)) ;;;
     v <- get_volume ;;
     modify (with_volume (Some v))).

(** [__call_next()], the handler the engine runs after a track ended. *)
Definition call_next (env : Env) : M t unit :=
  fun a =>
    if (AudioPlayer.is_continuing (player a) && (0 <? len (files a)))%bool
    then
      (modify (fun a =>
         with_playing_index ((playing_index a + 1) mod len (files a)) a) ;;;
       sel <- eval (fun a => getitem (playlist a) (playing_index a)) ;;
       modify (with_selected_index sel) ;;;
       on_player AudioPlayer.stop_stream ;;;
       track <- eval (fun a => getitem (playlist a) (playing_index a)) ;;
       file <- eval (fun a => getitem (files a) track) ;;
       on_player (AudioPlayer.load_file env (path_join directory file)) ;;;
       on_player AudioPlayer.start_stream ;;;
       ret tt) a
    else (Ret tt, a).

(** [on_key_up()] *)
Definition on_key_up (a : t) : t :=
  with_selected_index (Z.max (selected_index a - 1) 0) a.

(** [on_key_down()] *)
Definition on_key_down (a : t) : t :=
  with_selected_index (Z.min (selected_index a + 1) (len (files a) - 1)) a.

(** The fields [__init__] sets, for the track list [fs] found in the media
    directory and the mixer as it is at that moment. *)
Definition init (fs : list string) (mx : Mixer) : t :=
  {| files := fs; selected_index := 0; top_index := 0;
     playlist := range (List.length fs); playing_index := 0;
     is_random := false;
     volume := (if amixer_installed mx then level mx else None);
     player := AudioPlayer.init; mixer := mx |}.

End RadioApp.

(** ** Controls and control groups *)

Module Control.

(** The two shared [SelectionState] objects; both are built with
    [is_selected = False]. *)
Inductive SelectionState : Type := NONE | FOCUSED.

Definition state_is_focused (s : SelectionState) : bool :=
  match s with FOCUSED => true | NONE => false end.

Definition state_is_selected (s : SelectionState) : bool :=
  match s with FOCUSED => false | NONE => false end.

Section WithCallbacks.

(** [W] is the state the callbacks of the controls act on: in this
    program the bound methods of [RadioApp], which never touch a
    control. *)
Variable W : Type.

Inductive Variant : Type :=
| InstantControl (on_select : M W unit)
| SwitchControl (on_select : M W bool) (on_switched_select : M W bool)
                (is_switched : bool).

(** A control; [control_group] names the [ControlGroup] object it was
    built with.  A control is identified by its place in the list of
    all controls, and the members of a group are the controls that
    name it. *)
Record t : Type := {
  selection_state : SelectionState;
  control_group : option nat;
  variant : Variant
}.

Definition is_focused (c : t) : bool :=
  state_is_focused (selection_state c).

Definition is_selected (c : t) : bool :=
  state_is_selected (selection_state c).

Definition is_switched_of (c : t) : bool :=
  match variant c with
  | SwitchControl _ _ b => b
  | InstantControl _ => false
  end.

(** [on_focus()] *)
Definition on_focus (c : t) : t :=
  {| selection_state := FOCUSED; control_group := control_group c;
     variant := variant c |}.

(** [on_blur()] *)
Definition on_blur (c : t) : t :=
  {| selection_state := NONE; control_group := control_group c;
     variant := variant c |}.

(** [SwitchControl.on_deselect()] *)
Definition on_deselect (c : t) : t :=
  {| selection_state := selection_state c;
     control_group := control_group c;
     variant := match variant c with
                | SwitchControl f g _ => SwitchControl f g false
                | v => v
                end |}.

(** [reset()], as [Control] defines it and [SwitchControl] overrides
    it. *)
Definition reset (c : t) : t :=
  match variant c with
  | InstantControl _ =>
      {| selection_state := NONE; control_group := control_group c;
         variant := variant c |}
  | SwitchControl _ _ _ => on_deselect (on_blur c)
  end.

(** [ControlGroup.clear_selection(control)] for the group [g]: every
    member that is not the control at place [self] is reset. *)
Fixpoint clear_selection_from (k : nat) (g self : nat) (cs : list t)
  : list t :=
  match cs with
  | [] => []
  | c :: cs' =>
      (match control_group c with
       | Some g' =>
           if (Nat.eqb g' g && negb (Nat.eqb k self))%bool then reset c
           else c
       | None => c
       end) :: clear_selection_from (S k) g self cs'
  end.

Definition clear_selection (g self : nat) (cs : list t) : list t :=
  clear_selection_from O g self cs.

(** [_handle_control_group()] of the control at place [self]. *)
Definition handle_control_group (self : nat) (c : t) (cs : list t)
  : list t :=
  if negb (is_selected c) then
    match control_group c with
    | Some g => clear_selection g self cs
    | None => cs
    end
  else cs.

(** The controls and the state their callbacks act on. *)
Record Panel : Type := {
  controls : list t;
  world : W
}.

Definition on_world {A : Type} (m : M W A) : M Panel A :=
  fun p =>
    let (r, w) := m (world p) in
    (r, {| controls := controls p; world := w |}).

(** [self._is_switched = not self._is_switched] at place [self]. *)
Definition toggle (c : t) : t :=
  {| selection_state := selection_state c;
     control_group := control_group c;
     variant := match variant c with
                | SwitchControl f g b => SwitchControl f g (negb b)
                | v => v
                end |}.

Fixpoint update_at (k : nat) (f : t -> t) (cs : list t) : list t :=
  match cs, k with
  | [], _ => []
  | c :: cs', O => f c :: cs'
  | c :: cs', S k' => c :: update_at k' f cs'
  end.

Definition toggle_at (self : nat) : M Panel unit :=
  modify (fun p =>
    {| controls := update_at self toggle (controls p);
       world := world p |}).

(** [on_select()] of the control at place [self], as [InstantControl]
    and [SwitchControl] define it. *)
Definition on_select (self : nat) : M Panel unit :=
  fun p =>
    match nth_error (controls p) self with
    | None => (Raise IndexError, p)
    | Some c =>
        let p1 := {| controls := handle_control_group self c (controls p);
                     world := world p |} in
        match variant c with
        | InstantControl cb => on_world cb p1
        | SwitchControl f g b =>
            if b then
              (r <- on_world f ;; when r (toggle_at self)) p1
            else
              (r <- on_world g ;; when r (toggle_at self)) p1
        end
    end.

(** The callback [on_select] runs for a switch in each of its two
    states, by the action it attempts. *)
Definition activate (c : t) : option (M W bool) :=
  match variant c with
  | SwitchControl _ g _ => Some g
  | InstantControl _ => None
  end.

Definition deactivate (c : t) : option (M W bool) :=
  match variant c with
  | SwitchControl f _ _ => Some f
  | InstantControl _ => None
  end.

End WithCallbacks.

Arguments InstantControl {W} on_select.
Arguments SwitchControl {W} on_select on_switched_select is_switched.
Arguments Build_t {W} _ _ _.
Arguments selection_state {W} _.
Arguments control_group {W} _.
Arguments variant {W} _.
Arguments Build_Panel {W} _ _.
Arguments controls {W} _.
Arguments world {W} _.
Arguments is_focused {W} _.
Arguments is_selected {W} _.
Arguments is_switched_of {W} _.
Arguments on_focus {W} _.
Arguments on_blur {W} _.
Arguments on_deselect {W} _.
Arguments reset {W} _.
Arguments clear_selection {W} _ _ _.
Arguments handle_control_group {W} _ _ _.
Arguments on_select {W} _ _.
Arguments activate {W} _.
Arguments deactivate {W} _.

End Control.

(** The controls [RadioApp.__init__] builds, in order; group 0 is the
    [control_group] made there.  [draws] is what the random generator hands
    to the shuffle switch. *)
Definition radio_controls (env : Env) (draws : list nat)
  : list (Control.t RadioApp.t) :=
  let ctl g v := Control.Build_t Control.NONE g v in
  [ ctl (Some O) (Control.InstantControl RadioApp.stop_action);
    ctl None (Control.InstantControl (RadioApp.prev_action env));
    ctl (Some O) (Control.SwitchControl RadioApp.pause_action
                    (RadioApp.play_action env) false);
    ctl None (Control.InstantControl (RadioApp.skip_action env));
    ctl None (Control.SwitchControl RadioApp.order_action
                (RadioApp.random_action draws) false);
    ctl None (Control.InstantControl RadioApp.decrease_volume_action);
    ctl None (Control.InstantControl RadioApp.increase_volume_action) ].

(** ** The statements of the design document, in its own words

    These follow the document, not the code, and are what the code is
    compared with below. *)

(** "If current value is an exact multiple of S, move by one full step in
    the requested direction, clamped to [0,100].  If not aligned, first
    round down to the nearest multiple of S, then move one further step in
    the requested direction, clamped." *)
Definition spec_increase_volume (v : Z) : Z :=
  if v mod 10 =? 0 then Z.min (v + 10) 100
  else Z.min (v / 10 * 10 + 10) 100.

Definition spec_decrease_volume (v : Z) : Z :=
  if v mod 10 =? 0 then Z.max (v - 10) 0
  else Z.max (v / 10 * 10 - 10) 0.

(** "played_frames (0 <= played_frames <= total_frames)" *)
Definition spec_frames_invariant (p : AudioPlayer.t) : Prop :=
  0 <= AudioPlayer.played_frames p <= AudioPlayer.total_frames p.

(** ** Engine operations and the counters they keep in range *)

(** Both counters stay non-negative. *)
Definition frames_nonneg (p : AudioPlayer.t) : Prop :=
  0 <= AudioPlayer.played_frames p /\ 0 <= AudioPlayer.total_frames p.

Inductive EngineOp : Type :=
| OpLoad (file_path : string)
| OpStart
| OpPause
| OpStop
| OpCallback (frame_count : Z).

Definition run_op (env : Env) (op : EngineOp) (p : AudioPlayer.t)
  : AudioPlayer.t :=
  match op with
  | OpLoad f => state_of (AudioPlayer.load_file env f p)
  | OpStart => state_of (AudioPlayer.start_stream p)
  | OpPause => state_of (AudioPlayer.pause_stream p)
  | OpStop => state_of (AudioPlayer.stop_stream p)
  | OpCallback n => state_of (AudioPlayer.stream_callback n p)
  end.

(** What the environment guarantees of an operation: the driver asks for a
    non-negative number of frames and a WAV header holds a non-negative
    frame count. *)
Definition op_ok (env : Env) (op : EngineOp) : Prop :=
  match op with
  | OpLoad f => forall n, wave_open env f = Ret n -> 0 <= n
  | OpCallback n => 0 <= n
  | _ => True
  end.

Definition run_ops (env : Env) (ops : list EngineOp) (p : AudioPlayer.t)
  : AudioPlayer.t :=
  fold_left (fun q op => run_op env op q) ops p.

(** A mixer with a working control at level [v]. *)
Definition mixer_at (v : Z) : RadioApp.Mixer :=
  {| RadioApp.amixer_installed := true; RadioApp.level := Some v |}.

(** An environment in which every file opens and holds [n] frames. *)
Definition env_all (n : Z) : Env :=
  {| wave_open := fun _ => Ret n; pa_open := fun _ => Ret tt |}.

(** An environment in which only [good] can be opened. *)
Definition env_only (good : string) (n : Z) : Env :=
  {| wave_open := fun f =>
       if String.eqb f good then Ret n else Raise FileNotFoundError;
     pa_open := fun _ => Ret tt |}.

(** The application right after start-up, with no track and with three. *)
Definition empty_app : RadioApp.t := RadioApp.init [] (mixer_at 50).

Definition three_tracks : RadioApp.t :=
  RadioApp.init ["a.wav"; "b.wav"; "c.wav"]%string (mixer_at 15).

(** The track list is as in [a] and the playing slot is [k]. *)
Definition position_after (b a : RadioApp.t) (k : Z) : Prop :=
  RadioApp.files b = RadioApp.files a /\ RadioApp.playing_index b = k.

(** Three tracks, the first playing and the second selected. *)
Definition playing_a_selected_b : RadioApp.t :=
  RadioApp.on_key_down
    (state_of (RadioApp.play_action (env_all 100) three_tracks)).

(** The controls of the application over the three tracks. *)
Definition radio_panel : Control.Panel RadioApp.t :=
  Control.Build_Panel (radio_controls (env_all 100) []) three_tracks.

(** * Further parts of the program

    More of [RadioApp.py]: navigation between the controls, the visible
    part of the track list, the choice of the output device; and its
    callers in [piboy.py]. *)

(** ** SelectionState.from_state *)

(** [from_state(is_focused, is_selected)]: the first of [NONE], [FOCUSED]
    with these two flags; [[...][0]] raises [IndexError] on an empty
    list. *)
Definition from_state (is_focused is_selected : bool)
  : outcome Control.SelectionState :=
  match filter (fun s =>
                  Bool.eqb (Control.state_is_focused s) is_focused
                  && Bool.eqb (Control.state_is_selected s) is_selected)
               [Control.NONE; Control.FOCUSED] with
  | s :: _ => Ret s
  | [] => Raise IndexError
  end.

(** ** Moving between the controls *)

(** The place [l[i]] refers to: a negative index counts from the end. *)
Definition place {A : Type} (l : list A) (i : Z) : outcome nat :=
  let j := if i <? 0 then i + len l else i in
  if (j <? 0) || (len l <=? j) then Raise IndexError
  else Ret (Z.to_nat j).

Module Buttons.

Section WithCallbacks.

Variable W : Type.

(** The list [__controls] with the state its callbacks act on, and
    [__selected_control_index]. *)
Record t : Type := {
  panel : Control.Panel W;
  selected_control_index : Z
}.

Definition with_controls (cs : list (Control.t W)) (b : t) : t :=
  {| panel := Control.Build_Panel cs (Control.world (panel b));
     selected_control_index := selected_control_index b |}.

Definition with_index (i : Z) (b : t) : t :=
  {| panel := panel b; selected_control_index := i |}.

(** [self.__controls[self.__selected_control_index].method()] for a method
    that changes the control only. *)
Definition on_selected_control (f : Control.t W -> Control.t W) : M t unit :=
  fun b =>
    match place (Control.controls (panel b)) (selected_control_index b) with
    | Raise e => (Raise e, b)
    | Ret k =>
        (Ret tt,
         with_controls (Control.update_at W k f (Control.controls (panel b))) b)
    end.

(** [on_key_left()] *)
Definition on_key_left : M t unit :=
  on_selected_control Control.on_blur ;;;
  modify (fun b => with_index (Z.max (selected_control_index b - 1) 0) b) ;;;
  on_selected_control Control.on_focus.

(** [on_key_right()] *)
Definition on_key_right : M t unit :=
  on_selected_control Control.on_blur ;;;
  modify (fun b =>
    with_index (Z.min (selected_control_index b + 1)
                      (len (Control.controls (panel b)) - 1)) b) ;;;
  on_selected_control Control.on_focus.

(** [on_key_a()] *)
Definition on_key_a : M t unit :=
  fun b =>
    match place (Control.controls (panel b)) (selected_control_index b) with
    | Raise e => (Raise e, b)
    | Ret k =>
        let (r, p) := Control.on_select k (panel b) in
        (r, {| panel := p; selected_control_index := selected_control_index b |})
    end.

End WithCallbacks.

Arguments Build_t {W} _ _.
Arguments panel {W} _.
Arguments selected_control_index {W} _.
Arguments on_key_left {W} _.
Arguments on_key_right {W} _.
Arguments on_key_a {W} _.

End Buttons.

(** The controls as [__init__] leaves them: the play switch selected. *)
Definition radio_buttons (env : Env) (draws : list nat) (a : RadioApp.t)
  : Buttons.t RadioApp.t :=
  Buttons.Build_t (Control.Build_Panel (radio_controls env draws) a) 2.

(** Only the selected control is focused, and it is. *)
Definition focus_on_selected {W : Type} (b : Buttons.t W) : Prop :=
  forall (i : nat) (c : Control.t W),
    nth_error (Control.controls (Buttons.panel b)) i = Some c ->
    (Control.is_focused c = true <-> Z.of_nat i = Buttons.selected_control_index b).

(** ** The visible part of the track list *)

Definition with_top_index (v : Z) (a : RadioApp.t) : RadioApp.t :=
  {| RadioApp.files := RadioApp.files a;
     RadioApp.selected_index := RadioApp.selected_index a;
     RadioApp.top_index := v;
     RadioApp.playlist := RadioApp.playlist a;
     RadioApp.playing_index := RadioApp.playing_index a;
     RadioApp.is_random := RadioApp.is_random a;
     RadioApp.volume := RadioApp.volume a;
     RadioApp.player := RadioApp.player a;
     RadioApp.mixer := RadioApp.mixer a |}.

(** The update of [__top_index] in [draw]; [lines] is [max_entries], the
    number of lines that fit above the controls. *)
Definition scroll (lines : Z) (a : RadioApp.t) : RadioApp.t :=
  if lines <? len (RadioApp.files a) then
    if RadioApp.selected_index a <? RadioApp.top_index a then
      with_top_index (RadioApp.selected_index a) a
    else if negb ((RadioApp.top_index a <=? RadioApp.selected_index a)
                  && (RadioApp.selected_index a <? RadioApp.top_index a + lines))
    then with_top_index (RadioApp.selected_index a - lines + 1) a
    else a
  else with_top_index 0 a.

(** The window shows [lines] tracks of the list and the selected one is
    among them. *)
Definition window_ok (lines : Z) (a : RadioApp.t) : Prop :=
  0 <= RadioApp.top_index a /\
  RadioApp.top_index a + lines <= len (RadioApp.files a) /\
  RadioApp.top_index a <= RadioApp.selected_index a
    < RadioApp.top_index a + lines.

(** [l[start:]] *)
Definition slice_from {A : Type} (l : list A) (start : Z) : list A :=
  let s := if start <? 0 then Z.max (start + len l) 0 else start in
  skipn (Z.to_nat s) l.

(** A line of the list as [draw] paints it: the file name before it is cut
    to the width, or the three dots, and whether the selection bar is
    behind it. *)
Inductive LineText : Type :=
| FileName (f : string)
| Dots.

Record Line : Type := {
  highlighted : bool;
  text : LineText
}.

(** The loop over [enumerate(self.__files[self.__top_index:])]; [index] is
    the loop index before [top_index] is added. *)
Fixpoint draw_lines (lines top selected : Z) (index : Z) (fs : list string)
  : list Line :=
  match fs with
  | [] => []
  | file :: rest =>
      let i := index + top in
      let hl := selected =? i in
      if i =? lines + top then [{| highlighted := hl; text := Dots |}]
      else {| highlighted := hl; text := FileName file |}
           :: draw_lines lines top selected (index + 1) rest
  end.

Definition draw_list (lines : Z) (a : RadioApp.t) : list Line :=
  draw_lines lines (RadioApp.top_index a) (RadioApp.selected_index a) 0
    (slice_from (RadioApp.files a) (RadioApp.top_index a)).

(** ** States of the application and what happens to them *)

(** The play order is a rearrangement of [0 .. N-1] and, when there are
    tracks, the playing slot and the selected track are among them. *)
Definition well_formed (a : RadioApp.t) : Prop :=
  Permutation (RadioApp.playlist a) (range (List.length (RadioApp.files a))) /\
  (RadioApp.files a <> [] ->
   0 <= RadioApp.playing_index a < len (RadioApp.files a) /\
   0 <= RadioApp.selected_index a < len (RadioApp.files a)).

(** What can happen to the application: the actions behind the controls,
    the two navigation keys, the driver pulling frames and the
    notification that a track has ended. *)
Inductive Event : Type :=
| EvPlay
| EvPause
| EvStop
| EvPrev
| EvSkip
| EvRandom (draws : list nat)
| EvOrder
| EvDecreaseVolume
| EvIncreaseVolume
| EvKeyUp
| EvKeyDown
| EvPull (frame_count : Z)
| EvTrackEnded.

Definition run_event (env : Env) (ev : Event) (a : RadioApp.t) : RadioApp.t :=
  match ev with
  | EvPlay => state_of (RadioApp.play_action env a)
  | EvPause => state_of (RadioApp.pause_action a)
  | EvStop => state_of (RadioApp.stop_action a)
  | EvPrev => state_of (RadioApp.prev_action env a)
  | EvSkip => state_of (RadioApp.skip_action env a)
  | EvRandom draws => state_of (RadioApp.random_action draws a)
  | EvOrder => state_of (RadioApp.order_action a)
  | EvDecreaseVolume => state_of (RadioApp.decrease_volume_action a)
  | EvIncreaseVolume => state_of (RadioApp.increase_volume_action a)
  | EvKeyUp => RadioApp.on_key_up a
  | EvKeyDown => RadioApp.on_key_down a
  | EvPull n =>
      state_of (RadioApp.on_player (AudioPlayer.stream_callback n) a)
  | EvTrackEnded => state_of (RadioApp.call_next env a)
  end.

Definition run_events (env : Env) (evs : list Event) (a : RadioApp.t)
  : RadioApp.t :=
  fold_left (fun b ev => run_event env ev b) evs a.

(** How the fields of the engine hang together: it continues only with a
    stream; with a stream there is an open reader for a file of
    [total_frames] frames, the reader is inside the file, it has delivered
    no more frames than were counted, and exactly as many as long as the
    count is below the total. *)
Definition engine_consistent (p : AudioPlayer.t) : Prop :=
  (AudioPlayer.is_continuing p = true -> AudioPlayer.has_stream p = true) /\
  (AudioPlayer.has_stream p = true ->
   exists w,
     AudioPlayer.wave_read p = Some w /\
     AudioPlayer.nframes w = AudioPlayer.total_frames p /\
     0 <= AudioPlayer.position w <= AudioPlayer.nframes w /\
     AudioPlayer.position w <= AudioPlayer.played_frames p /\
     (AudioPlayer.played_frames p < AudioPlayer.total_frames p ->
      AudioPlayer.position w = AudioPlayer.played_frames p)).

(** Every file that opens holds a non-negative number of frames. *)
Definition env_ok (env : Env) : Prop :=
  forall f n, wave_open env f = Ret n -> 0 <= n.

(** ** Switching between applications ([piboy.py]) *)

Module AppState.

Section WithApps.

Variable App : Type.

Record t : Type := {
  apps : list App;
  active_app : Z
}.

(** [next_app()] *)
Definition next_app (s : t) : t :=
  let i := active_app s + 1 in
  {| apps := apps s;
     active_app := if negb (i <? len (apps s)) then 0 else i |}.

(** [previous_app()] *)
Definition previous_app (s : t) : t :=
  let i := active_app s - 1 in
  {| apps := apps s;
     active_app := if i <? 0 then len (apps s) - 1 else i |}.

End WithApps.

Arguments Build_t {App} _ _.
Arguments apps {App} _.
Arguments active_app {App} _.
Arguments next_app {App} _.
Arguments previous_app {App} _.

End AppState.

(** ** The rotary encoder ([piboy.py]) *)

(** [d.get(key, default)] on a dictionary written as its items. *)
Fixpoint dict_get (d : list (Z * Z)) (key default : Z) : Z :=
  match d with
  | [] => default
  | (k, v) :: d' => if k =? key then v else dict_get d' key default
  end.

(** The transition table [trans]. *)
Definition trans : list (Z * Z) :=
  [ (1, 1); (2, -1); (4, -1); (7, 1); (8, 1); (11, -1); (13, -1); (14, 1) ].

(** [(a << 1) | b] *)
Definition encoder_state (a b : Z) : Z := Z.lor (Z.shiftl a 1) b.

(** [trans.get((last_state << 2) | state, 0)] *)
Definition direction (last_state state : Z) : Z :=
  dict_get trans (Z.lor (Z.shiftl last_state 2) state) 0.

(** What [GPIO.input] reads. *)
Definition is_bit (x : Z) : Prop := x = 0 \/ x = 1.

Inductive Key : Type := KeyUp | KeyDown.

(** The encoder half of one round of the worker loop: the state it
    remembers for the next round and the key it sends, if any.  [rate_ok]
    is the outcome of the test
    [(now - last_step_t) >= ENC_STEP_RATE_LIMIT_S]. *)
Definition encoder_round (last_state : Z) (a b : Z) (rate_ok : bool)
  : Z * option Key :=
  let state := encoder_state a b in
  if negb (state =? last_state) then
    let d := direction last_state state in
    (state,
     if negb (d =? 0) && rate_ok then
       if 0 <? d then Some KeyDown else Some KeyUp
     else None)
  else (last_state, None).

(** The keys sent while the encoder runs through the readings [abs],
    with no step held back by the rate limit. *)
Fixpoint encoder_run (last_state : Z) (abs : list (Z * Z)) : list Key :=
  match abs with
  | [] => []
  | (a, b) :: rest =>
      let (s, k) := encoder_round last_state a b true in
      match k with
      | Some key => key :: encoder_run s rest
      | None => encoder_run s rest
      end
  end.

(** ** The mode selector ([piboy.py]) *)

(** [mode_pins], in the order it is written. *)
Definition mode_pins : list (Z * Z) :=
  [ (5, 0); (6, 1); (12, 2); (13, 3); (20, 6) ].

(** [read_active_index()]; [low pin] says whether the pin reads LOW. *)
Definition read_active_index (low : Z -> bool) : option Z :=
  match filter low (map fst mode_pins) with
  | [pin] => Some (dict_get mode_pins pin 0)
  | _ => None
  end.

Module Selector.

Record t : Type := {
  last_index : option Z;
  candidate : option Z;
  stable_count : Z
}.

Definition init : t :=
  {| last_index := None; candidate := None; stable_count := 0 |}.

Definition option_Z_eqb (x y : option Z) : bool :=
  match x, y with
  | Some a, Some b => a =? b
  | None, None => true
  | _, _ => false
  end.

(** One round of [worker] for the reading [idx].  The result says which
    index [set_active_app_index] was called with, if it was; [call_ok] is
    whether that call returned (an exception is logged and leaves
    [last_index] alone). *)
Definition round (idx : option Z) (call_ok : bool) (s : t) : t * option Z :=
  let s1 :=
    if option_Z_eqb idx (candidate s) then
      {| last_index := last_index s; candidate := candidate s;
         stable_count := stable_count s + 1 |}
    else
      {| last_index := last_index s; candidate := idx; stable_count := 1 |} in
  match idx with
  | Some i =>
      if (3 <=? stable_count s1) && negb (option_Z_eqb idx (last_index s1))
      then
        (if call_ok then
           {| last_index := idx; candidate := candidate s1;
              stable_count := stable_count s1 |}
         else s1,
         Some i)
      else (s1, None)
  | None => (s1, None)
  end.

(** The rounds for a sequence of readings, from the start of the thread. *)
Definition rounds (rs : list (option Z * bool)) : t :=
  fold_left (fun s r => fst (round (fst r) (snd r) s)) rs init.

End Selector.

(** ** Choice of the output device *)

Module Devices.

(** One entry of [get_device_info_by_index]: the keys ['name'] and
    ['maxOutputChannels'], when present. *)
Record DeviceInfo : Type := {
  name : option string;
  maxOutputChannels : option Z
}.

(** PyAudio as the search sees it: the device count and the entries, each
    of which may raise. *)
Record Host : Type := {
  get_device_count : outcome Z;
  get_device_info_by_index : Z -> outcome DeviceInfo
}.

Fixpoint is_prefix (p s : string) : bool :=
  match p, s with
  | EmptyString, _ => true
  | String a p', String b s' => Ascii.eqb a b && is_prefix p' s'
  | String _ _, EmptyString => false
  end.

(** [p in s] for strings. *)
Fixpoint contains (p s : string) : bool :=
  is_prefix p s ||
  match s with
  | EmptyString => false
  | String _ s' => contains p s'
  end.

Section WithLower.

(** [str.lower] *)
Variable lower : string -> string.

Definition get_or {A : Type} (o : option A) (default : A) : A :=
  match o with Some a => a | None => default end.

(** The loop over [range(get_device_count())] from index [i], with [n]
    rounds to go; any exception ends the search without a result. *)
Fixpoint search (h : Host) (preferred_name : string) (i : Z) (n : nat)
  : option Z :=
  match n with
  | O => None
  | S n' =>
      match get_device_info_by_index h i with
      | Raise _ => None
      | Ret info =>
          let nm := lower (get_or (name info) EmptyString) in
          let max_out := get_or (maxOutputChannels info) 0 in
          if (0 <? max_out) && contains preferred_name nm then Some i
          else search h preferred_name (i + 1) n'
      end
  end.

(** [__find_output_device_index(preferred_name)] *)
Definition find_output_device_index (h : Host) (preferred_name : string)
  : option Z :=
  let preferred_name := lower preferred_name in
  match get_device_count h with
  | Raise _ => None
  | Ret count => search h preferred_name 0 (Z.to_nat count)
  end.

End WithLower.

End Devices.

(** Every track of the list can be opened and played in [env]. *)
Definition readable (env : Env) (a : RadioApp.t) : Prop :=
  forall f, In f (RadioApp.files a) ->
    (exists n, wave_open env (path_join RadioApp.directory f) = Ret n) /\
    pa_open env (path_join RadioApp.directory f) = Ret tt.

(** The engine plays: it has an active stream and continues. *)
Definition streaming (p : AudioPlayer.t) : Prop :=
  AudioPlayer.is_active p = true /\ AudioPlayer.is_continuing p = true.

(** [skip_action] or [prev_action]. *)
Definition step_action (env : Env) (forward : bool) : M RadioApp.t unit :=
  if forward then RadioApp.skip_action env else RadioApp.prev_action env.

Definition step_slot (forward : bool) (a : RadioApp.t) : Z :=
  (if forward then RadioApp.playing_index a + 1
   else RadioApp.playing_index a - 1) mod len (RadioApp.files a).

(** The driver asks for a non-negative number of frames. *)
Definition event_ok (ev : Event) : Prop :=
  match ev with
  | EvPull n => 0 <= n
  | _ => True
  end.

(** The engine gets from [p] to [q] by operations of its own. *)
Definition engine_steps (env : Env) (p q : AudioPlayer.t) : Prop :=
  exists ops, Forall (op_ok env) ops /\ q = run_ops env ops p.

(** Whatever [m] does to the engine, it does through the engine's
    operations. *)
Definition through_engine {A : Type} (env : Env) (m : M RadioApp.t A) : Prop :=
  forall a,
    engine_steps env (RadioApp.player a) (RadioApp.player (state_of (m a))).

(** ** States used in the examples *)

(** Three tracks, the first playing. *)
Definition playing_a : RadioApp.t :=
  state_of (RadioApp.play_action (env_all 100) three_tracks).

(** The controls over the three tracks once the application has been
    entered: the play switch selected and focused. *)
Definition focused_buttons : Buttons.t RadioApp.t :=
  state_of (Buttons.on_selected_control RadioApp.t Control.on_focus
              (radio_buttons (env_all 100) [] three_tracks)).

(** An environment in which no file can be opened. *)
Definition env_none : Env :=
  {| wave_open := fun _ => Raise FileNotFoundError;
     pa_open := fun _ => Raise OSError |}.

(** A mixer with no supported control. *)
Definition mixer_without_control : RadioApp.Mixer :=
  {| RadioApp.amixer_installed := true; RadioApp.level := None |}.

(** Runs [prev_action] or [skip_action] up to the restart of the stream;
    [restart] says that the restart works on the engine only. *)
Ltac close_position := unfold position_after; split; reflexivity.

Ltac step_position restart :=
  unfold bind at 1, gets at 1;
  destruct (len (RadioApp.files _) =? 0); [close_position | ];
  unfold bind at 1, modify at 1;
  unfold bind at 1, RadioApp.eval at 1;
  cbn [RadioApp.files RadioApp.playing_index RadioApp.playlist
       RadioApp.with_playing_index];
  match goal with
  | |- context [getitem (RadioApp.playlist ?a) ?k] =>
      let Hg := fresh "Hg" in
      destruct (getitem (RadioApp.playlist a) k) as [s | e] eqn:Hg;
      [ | close_position];
      unfold bind at 1, modify at 1;
      unfold bind at 1, gets at 1;
      cbn [RadioApp.player RadioApp.with_selected_index
           RadioApp.with_playing_index];
      destruct (AudioPlayer.is_active (RadioApp.player a));
      [ | close_position];
      unfold when;
      let p' := fresh "p" in
      let Hp' := fresh "Hp" in
      destruct (restart
                  (RadioApp.with_selected_index s
                     (RadioApp.with_playing_index k a)) Hg)
        as [p' Hp'];
      rewrite Hp'; close_position
  end.

(** ** Python list operations *)

Lemma index_from_found (l : list Z) (x k0 k : Z) :
  index_from k0 l x = Ret k ->
  k0 <= k < k0 + len l /\ nth_error l (Z.to_nat (k - k0)) = Some x.
Proof.
  revert k0. induction l as [ | y l IH]; intros k0 H; cbn in H.
  - discriminate.
  - destruct (y =? x) eqn:Hy.
    + apply Z.eqb_eq in Hy. inversion H; subst.
      unfold len. cbn [List.length]. rewrite Z.sub_diag. cbn. split; [lia | reflexivity].
    + apply IH in H. destruct H as [Hk Hn]. unfold len in *. cbn [List.length].
      split; [lia | ].
      replace (Z.to_nat (k - k0)) with (S (Z.to_nat (k - (k0 + 1)))) by lia.
      exact Hn.
Qed.

Lemma index_from_of_In (l : list Z) (x k0 : Z) :
  In x l -> exists k, index_from k0 l x = Ret k.
Proof.
  revert k0. induction l as [ | y l IH]; intros k0 Hin; [contradiction | ].
  cbn. destruct (y =? x) eqn:Hy; [eexists; reflexivity | ].
  destruct Hin as [-> | Hin]; [rewrite Z.eqb_refl in Hy; discriminate | ].
  apply IH. exact Hin.
Qed.

(** The slot [l.index(x)] finds holds [x]. *)
Lemma index_getitem (l : list Z) (x k : Z) :
  index l x = Ret k -> 0 <= k < len l /\ getitem l k = Ret x.
Proof.
  unfold index. intros H. apply index_from_found in H.
  destruct H as [Hk Hn]. rewrite Z.sub_0_r in Hn. split; [lia | ].
  unfold getitem. cbv zeta.
  assert (Hlt : (k <? 0) = false) by (apply Z.ltb_ge; lia).
  rewrite !Hlt, Hn. reflexivity.
Qed.

Lemma nth_error_set_nth {A : Type} (i j : nat) (a : A) (l : list A) :
  nth_error (set_nth i a l) j
  = if (Nat.eqb i j && Nat.ltb i (List.length l))%bool then Some a
    else nth_error l j.
Proof.
  revert i j. induction l as [ | b l IH]; intros i j.
  - cbn. destruct i; rewrite andb_false_r; reflexivity.
  - destruct i, j; cbn; try reflexivity.
    rewrite IH. reflexivity.
Qed.

(** Overwriting slot [i], which held [b], with [a] trades one occurrence
    of [b] for one of [a]. *)
Lemma count_occ_set_nth (i : nat) (a b v : Z) (l : list Z) :
  nth_error l i = Some b ->
  (count_occ Z.eq_dec (set_nth i a l) v
   + (if Z.eq_dec b v then 1 else 0)
   = count_occ Z.eq_dec l v + (if Z.eq_dec a v then 1 else 0))%nat.
Proof.
  revert i. induction l as [ | c l IH]; intros i Hn.
  - destruct i; discriminate.
  - destruct i as [ | i]; cbn in Hn.
    + inversion Hn; subst. cbn.
      destruct (Z.eq_dec b v), (Z.eq_dec a v); lia.
    + cbn. specialize (IH i Hn).
      destruct (Z.eq_dec c v); lia.
Qed.

Lemma swap_Permutation (i j : nat) (x : list Z) : Permutation (swap i j x) x.
Proof.
  unfold swap.
  destruct (nth_error x i) as [xi | ] eqn:Hi; [ | reflexivity].
  destruct (nth_error x j) as [xj | ] eqn:Hj; [ | reflexivity].
  apply (Permutation_count_occ Z.eq_dec). intros v.
  assert (Hj' : nth_error (set_nth i xj x) j = Some xj).
  { rewrite nth_error_set_nth.
    destruct (Nat.eqb i j && Nat.ltb i (List.length x))%bool; auto. }
  pose proof (count_occ_set_nth i xj xi v x Hi) as H1.
  pose proof (count_occ_set_nth j xi xj v _ Hj') as H2.
  lia.
Qed.

Lemma shuffle_loop_Permutation (i : nat) (draws : list nat) (x : list Z) :
  Permutation (shuffle_loop i draws x) x.
Proof.
  revert draws x. induction i as [ | i IH]; intros draws x; cbn [shuffle_loop].
  - reflexivity.
  - etransitivity; [apply IH | apply swap_Permutation].
Qed.

(** [random.shuffle] rearranges the list and nothing else. *)
Lemma shuffle_Permutation (draws : list nat) (x : list Z) :
  Permutation (shuffle draws x) x.
Proof. apply shuffle_loop_Permutation. Qed.

(** ** Volume stepping *)

Section Volume.

Import RadioApp.

Lemma align_up (v : Z) : (v + VOLUME_STEP) / VOLUME_STEP * VOLUME_STEP
                         = v / VOLUME_STEP * VOLUME_STEP + VOLUME_STEP.
Proof.
  unfold VOLUME_STEP.
  replace (v + 10) with (v + 1 * 10) by lia.
  rewrite Z.div_add by lia. lia.
Qed.

Lemma align_down_bounds (v : Z) :
  0 <= v <= 100 -> 0 <= v / VOLUME_STEP * VOLUME_STEP <= v.
Proof.
  unfold VOLUME_STEP. intros Hv.
  pose proof (Z.mul_div_le v 10 ltac:(lia)).
  pose proof (Z.div_pos v 10 ltac:(lia) ltac:(lia)).
  lia.
Qed.

(** Writing an in-range level to a working mixer and reading it back. *)
Lemma set_then_get (a : t) (v0 v : Z) :
  mixer a = mixer_at v0 -> 0 <= v <= 100 ->
  (set_volume v ;;; w <- get_volume ;; modify (with_volume (Some w))) a
  = (Ret tt, with_volume (Some v) (with_mixer (mixer_at v) a)).
Proof.
  intros Hm Hv. unfold bind, set_volume, get_volume, eval, modify.
  rewrite Hm. cbn.
  replace (0 <=? v) with true by (symmetry; apply Z.leb_le; lia).
  replace (v <=? 100) with true by (symmetry; apply Z.leb_le; lia).
  reflexivity.
Qed.

Lemma increase_volume_run (a : t) (v : Z) :
  mixer a = mixer_at v -> 0 <= v <= 100 ->
  increase_volume_action a
  = (Ret tt,
     let w := if v mod 10 =? 0 then Z.min (v + 10) 100
              else Z.min (v / 10 * 10 + 20) 100 in
     with_volume (Some w) (with_mixer (mixer_at w) a)).
Proof.
  intros Hm Hv.
  pose proof (align_down_bounds v Hv) as Hb. unfold VOLUME_STEP in Hb.
  unfold increase_volume_action, except_ValueError_pass.
  unfold bind at 1. unfold get_volume at 1, eval. rewrite Hm. cbn -[Z.div Z.modulo Z.mul Z.min].
  change VOLUME_STEP with 10.
  destruct (v mod 10 =? 0) eqn:Hal.
  - rewrite (set_then_get a v) by (auto; lia). reflexivity.
  - pose proof (align_up v) as Hup. unfold VOLUME_STEP in Hup. rewrite Hup.
    replace (v / 10 * 10 + 10 + 10) with (v / 10 * 10 + 20) by lia.
    rewrite (set_then_get a v) by (auto; lia). reflexivity.
Qed.

Lemma decrease_volume_run (a : t) (v : Z) :
  mixer a = mixer_at v -> 0 <= v <= 100 ->
  decrease_volume_action a
  = (Ret tt,
     let w := if v mod 10 =? 0 then Z.max (v - 10) 0
              else Z.max (v / 10 * 10 - 10) 0 in
     with_volume (Some w) (with_mixer (mixer_at w) a)).
Proof.
  intros Hm Hv.
  pose proof (align_down_bounds v Hv) as Hb. unfold VOLUME_STEP in Hb.
  unfold decrease_volume_action, except_ValueError_pass.
  unfold bind at 1. unfold get_volume at 1, eval. rewrite Hm. cbn -[Z.div Z.modulo Z.mul Z.max].
  change VOLUME_STEP with 10.
  destruct (v mod 10 =? 0) eqn:Hal.
  - rewrite (set_then_get a v) by (auto; lia). reflexivity.
  - rewrite (set_then_get a v) by (auto; lia). reflexivity.
Qed.

End Volume.

(** C1, as the document states it, fails: from 15 the increase action
    writes 30 to the mixer, where rounding down and moving one step up
    gives 20. *)
Lemma increase_from_15_is_not_spec :
  RadioApp.mixer three_tracks = mixer_at 15 /\
  0 <= 15 <= 100 /\ 15 mod 10 <> 0 /\
  RadioApp.level
    (RadioApp.mixer (state_of (RadioApp.increase_volume_action three_tracks)))
  = Some 30 /\
  RadioApp.level
    (RadioApp.mixer (state_of (RadioApp.increase_volume_action three_tracks)))
  <> Some (spec_increase_volume 15).
Proof. repeat split; try lia; discriminate. Qed.

(** C1 (amended): with a working mixer at level [v] in 0..100, an
    unaligned [v] is moved by the increase action to
    [min (v/10*10 + 20) 100] (rounded up to the next multiple of 10 and
    then one step further) and by the decrease action to
    [max (v/10*10 - 10) 0]; an aligned [v] is moved by exactly one step,
    clamped to 0..100.  The decrease action, and the increase action on an
    aligned [v], agree with the document; the displayed volume follows
    the mixer. *)
Theorem volume_step_by_code (a : RadioApp.t) (v : Z) :
  RadioApp.mixer a = mixer_at v -> 0 <= v <= 100 ->
  let up := state_of (RadioApp.increase_volume_action a) in
  let down := state_of (RadioApp.decrease_volume_action a) in
  (v mod 10 <> 0 ->
     RadioApp.level (RadioApp.mixer up) = Some (Z.min (v / 10 * 10 + 20) 100) /\
     RadioApp.level (RadioApp.mixer down) = Some (Z.max (v / 10 * 10 - 10) 0)) /\
  (v mod 10 = 0 ->
     RadioApp.level (RadioApp.mixer up) = Some (Z.min (v + 10) 100) /\
     RadioApp.level (RadioApp.mixer down) = Some (Z.max (v - 10) 0)) /\
  RadioApp.level (RadioApp.mixer down) = Some (spec_decrease_volume v) /\
  (v mod 10 = 0 ->
     RadioApp.level (RadioApp.mixer up) = Some (spec_increase_volume v)) /\
  RadioApp.volume up = RadioApp.level (RadioApp.mixer up) /\
  RadioApp.volume down = RadioApp.level (RadioApp.mixer down).
Proof.
  intros Hm Hv up down. subst up down.
  rewrite (increase_volume_run a v Hm Hv), (decrease_volume_run a v Hm Hv).
  unfold state_of, spec_decrease_volume, spec_increase_volume. cbn [snd].
  destruct (v mod 10 =? 0) eqn:Hal.
  - apply Z.eqb_eq in Hal. repeat split; intros; try reflexivity; contradiction.
  - apply Z.eqb_neq in Hal. repeat split; intros; try reflexivity; contradiction.
Qed.

Lemma volume_step_by_code_witness :
  RadioApp.mixer three_tracks = mixer_at 15 /\ 0 <= 15 <= 100 /\
  RadioApp.volume (state_of (RadioApp.increase_volume_action three_tracks))
  = RadioApp.level
      (RadioApp.mixer (state_of (RadioApp.increase_volume_action three_tracks))).
Proof.
  split; [reflexivity | split; [lia | ]].
  apply (volume_step_by_code three_tracks 15); [reflexivity | lia].
Defined.

(** ** Empty playlist *)

(** C2: on an empty playlist [play_action] returns false and changes
    nothing, but [random_action] raises [ValueError] out of
    [playlist.index], after it has set [is_random]. *)
Theorem shuffle_on_empty_raises (env : Env) (draws : list nat) (a : RadioApp.t) :
  RadioApp.playlist a = [] ->
  RadioApp.play_action env a = (Ret false, a) /\
  RadioApp.random_action draws a
  = (Raise ValueError, RadioApp.with_is_random true a).
Proof.
  intros Hp. destruct a as [fs sel top pl pi rnd vol pla mx].
  cbn in Hp. subst pl. split; reflexivity.
Qed.

Lemma shuffle_on_empty_raises_witness :
  RadioApp.playlist empty_app = [] /\
  RadioApp.play_action (env_all 100) empty_app = (Ret false, empty_app) /\
  RadioApp.random_action [] empty_app
  = (Raise ValueError, RadioApp.with_is_random true empty_app).
Proof.
  split; [reflexivity | ].
  apply (shuffle_on_empty_raises (env_all 100) [] empty_app). reflexivity.
Defined.

(** ** Completion handler *)

(** C4: when the engine is not continuing, or there is no track, the
    completion handler returns with the whole state as it was. *)
Theorem call_next_does_nothing (env : Env) (a : RadioApp.t) :
  AudioPlayer.is_continuing (RadioApp.player a) = false \/ RadioApp.files a = [] ->
  RadioApp.call_next env a = (Ret tt, a).
Proof.
  intros [Hc | Hf]; unfold RadioApp.call_next.
  - rewrite Hc. reflexivity.
  - rewrite Hf. cbn. rewrite andb_false_r. reflexivity.
Qed.

Lemma call_next_does_nothing_witness :
  (AudioPlayer.is_continuing (RadioApp.player three_tracks) = false \/
   RadioApp.files three_tracks = []) /\
  RadioApp.call_next (env_all 100) three_tracks = (Ret tt, three_tracks).
Proof.
  split; [left; reflexivity | ].
  apply (call_next_does_nothing (env_all 100) three_tracks).
  left. reflexivity.
Defined.

(** ** Navigation on an empty track list *)

(** C10: with no track, a down event from a selection of 0 (or anything
    from -2 up) leaves [selected_index] at -1, outside 0..N-1; an up event
    leaves a selection of 0 at 0. *)
Theorem key_down_on_empty_list (a : RadioApp.t) :
  RadioApp.files a = [] ->
  (-2 <= RadioApp.selected_index a ->
   RadioApp.selected_index (RadioApp.on_key_down a) = -1 /\
   ~ (0 <= RadioApp.selected_index (RadioApp.on_key_down a)
      <= len (RadioApp.files a) - 1)) /\
  (RadioApp.selected_index a = 0 ->
   RadioApp.selected_index (RadioApp.on_key_up a) = 0).
Proof.
  intros Hf. unfold RadioApp.on_key_down, RadioApp.on_key_up. cbn.
  rewrite Hf. cbn. split.
  - intros Hs. split; lia.
  - intros Hs. rewrite Hs. reflexivity.
Qed.

Lemma key_down_on_empty_list_witness :
  RadioApp.files empty_app = [] /\
  RadioApp.selected_index empty_app = 0 /\
  RadioApp.selected_index (RadioApp.on_key_down empty_app) = -1 /\
  RadioApp.selected_index (RadioApp.on_key_up empty_app) = 0.
Proof.
  split; [reflexivity | split; [reflexivity | ]].
  destruct (key_down_on_empty_list empty_app eq_refl) as [Hd Hu].
  split; [apply Hd; cbn; lia | apply Hu; reflexivity].
Defined.

(** ** Frame counters of the engine *)

Section Engine.

Import AudioPlayer.

Variable env : Env.

Lemma load_file_counters (f : string) (n : Z) (p : t) :
  wave_open env f = Ret n ->
  played_frames (state_of (load_file env f p)) = 0 /\
  total_frames (state_of (load_file env f p)) = n.
Proof.
  intros Hw. unfold load_file. rewrite Hw.
  destruct (pa_open env f); split; reflexivity.
Qed.

Lemma load_file_failed (f : string) (e : exn) (p : t) :
  wave_open env f = Raise e -> load_file env f p = (Raise e, p).
Proof. intros Hw. unfold load_file. rewrite Hw. reflexivity. Qed.

Lemma stop_stream_counters (p : t) :
  has_stream p = true ->
  played_frames (state_of (stop_stream p)) = 0 /\
  total_frames (state_of (stop_stream p)) = 0 /\
  stream (state_of (stop_stream p)) = None /\
  is_continuing (state_of (stop_stream p)) = false.
Proof.
  unfold has_stream, stop_stream. destruct (stream p); [ | discriminate].
  intros _. repeat split.
Qed.

Lemma stop_stream_no_stream (p : t) :
  has_stream (state_of (stop_stream p)) = false.
Proof.
  unfold has_stream, stop_stream.
  destruct (stream p) eqn:Hs; cbn; [reflexivity | now rewrite Hs].
Qed.

(** The callback adds the number of frames asked for, whatever was read,
    and answers [paComplete] exactly when the sum reaches the total. *)
Lemma stream_callback_counters (n : Z) (p p' : t) (r : CallbackResult) :
  stream_callback n p = (Ret r, p') ->
  played_frames p' = played_frames p + n /\
  total_frames p' = total_frames p /\
  (status r = paContinue -> played_frames p' < total_frames p') /\
  (status r = paComplete -> total_frames p' <= played_frames p').
Proof.
  unfold stream_callback. destruct (wave_read p) as [w | ]; [ | discriminate].
  destruct (readframes n w) as [got w'].
  destruct (total_frames p <=? played_frames p + n) eqn:Hc;
    intros H; inversion H; subst; clear H; cbn.
  - apply Z.leb_le in Hc. repeat split; try lia; discriminate.
  - apply Z.leb_gt in Hc. repeat split; try lia; discriminate.
Qed.

Lemma stream_callback_state (n : Z) (p : t) :
  wave_read p <> None ->
  played_frames (state_of (stream_callback n p)) = played_frames p + n /\
  total_frames (state_of (stream_callback n p)) = total_frames p.
Proof.
  intros Hw. destruct (stream_callback n p) as [[r | e] p'] eqn:Hr.
  - destruct (stream_callback_counters n p p' r Hr) as (H1 & H2 & _).
    split; assumption.
  - exfalso. unfold stream_callback in Hr.
    destruct (wave_read p) as [w | ]; [ | congruence].
    destruct (readframes n w).
    destruct (total_frames p <=? played_frames p + n); discriminate.
Qed.

Lemma run_op_nonneg (op : EngineOp) (p : t) :
  op_ok env op -> frames_nonneg p -> frames_nonneg (run_op env op p).
Proof.
  unfold frames_nonneg. intros Hok [Hp Ht].
  destruct op as [f | | | | n]; cbn [run_op op_ok] in *.
  - unfold load_file. destruct (wave_open env f) as [m | e] eqn:Hw.
    + specialize (Hok m eq_refl).
      destruct (pa_open env f); cbn; lia.
    + cbn. lia.
  - unfold start_stream. destruct (stream p); cbn; lia.
  - unfold pause_stream. destruct (stream p); cbn; lia.
  - unfold stop_stream. destruct (stream p); cbn; lia.
  - unfold stream_callback. destruct (wave_read p) as [w | ]; [ | cbn; lia].
    destruct (readframes n w) as [got w'].
    destruct (total_frames p <=? played_frames p + n); cbn; lia.
Qed.

(** Every state the engine reaches from start-up keeps both counters
    non-negative: induction on the operations run so far. *)
Lemma reachable_nonneg (ops : list EngineOp) :
  Forall (op_ok env) ops -> frames_nonneg (run_ops env ops init).
Proof.
  unfold run_ops. rewrite <- (rev_involutive ops).
  intros Hall. apply Forall_rev in Hall. rewrite rev_involutive in Hall.
  induction (rev ops) as [ | op rest IH].
  - cbn. unfold frames_nonneg. cbn. lia.
  - cbn [rev]. rewrite fold_left_app. cbn [fold_left].
    inversion Hall; subst. apply run_op_nonneg; auto.
Qed.

End Engine.

(** C3, as the document states it, fails: after loading a file of 100
    frames the counters satisfy 0 <= played <= total; one callback asking
    for 1024 frames reads the 100 there are and leaves played at 1024. *)
Lemma callback_overshoots_total :
  let p := run_op (env_all 100) (OpLoad "media/a.wav") AudioPlayer.init in
  let p' := run_op (env_all 100) (OpCallback 1024) p in
  spec_frames_invariant p /\
  op_ok (env_all 100) (OpCallback 1024) /\
  option_map AudioPlayer.position (AudioPlayer.wave_read p') = Some 100 /\
  AudioPlayer.played_frames p' = 1024 /\
  ~ spec_frames_invariant p'.
Proof.
  cbn. unfold spec_frames_invariant. cbn. repeat split; try lia.
Qed.

(** C3 (amended): every engine operation keeps [played_frames] and
    [total_frames] non-negative ([played_frames] may pass
    [total_frames]); a load that opens the file sets [played_frames] to 0
    and [total_frames] to the file's frame count, a stop with a stream
    loaded zeroes both, and the pull callback adds the number of frames
    asked for; start and pause leave the counters alone. *)
Theorem frame_counters_by_code (env : Env) (op : EngineOp) (p : AudioPlayer.t) :
  op_ok env op -> frames_nonneg p ->
  let p' := run_op env op p in
  frames_nonneg p' /\
  match op with
  | OpLoad f =>
      forall n, wave_open env f = Ret n ->
                AudioPlayer.played_frames p' = 0 /\ AudioPlayer.total_frames p' = n
  | OpStop =>
      AudioPlayer.has_stream p = true ->
      AudioPlayer.played_frames p' = 0 /\ AudioPlayer.total_frames p' = 0
  | OpCallback n =>
      AudioPlayer.wave_read p <> None ->
      AudioPlayer.played_frames p' = AudioPlayer.played_frames p + n /\
      AudioPlayer.total_frames p' = AudioPlayer.total_frames p
  | OpStart | OpPause =>
      AudioPlayer.played_frames p' = AudioPlayer.played_frames p /\
      AudioPlayer.total_frames p' = AudioPlayer.total_frames p
  end.
Proof.
  intros Hok Hinv p'. split; [apply run_op_nonneg; assumption | ].
  subst p'. destruct op as [f | | | | n]; cbn [run_op].
  - intros m Hw. apply load_file_counters. assumption.
  - unfold AudioPlayer.start_stream.
    destruct (AudioPlayer.stream p); split; reflexivity.
  - unfold AudioPlayer.pause_stream.
    destruct (AudioPlayer.stream p); split; reflexivity.
  - intros Hs. destruct (stop_stream_counters p Hs) as (H1 & H2 & _).
    split; assumption.
  - intros Hw. apply stream_callback_state. assumption.
Qed.

Lemma frame_counters_by_code_witness :
  let p := run_op (env_all 100) (OpLoad "media/a.wav") AudioPlayer.init in
  op_ok (env_all 100) (OpCallback 1024) /\ frames_nonneg p /\
  frames_nonneg (run_op (env_all 100) (OpCallback 1024) p).
Proof.
  cbv zeta.
  assert (Hok : op_ok (env_all 100) (OpCallback 1024)) by (cbn; lia).
  assert (Hinv : frames_nonneg
                   (run_op (env_all 100) (OpLoad "media/a.wav") AudioPlayer.init))
    by (unfold frames_nonneg; cbn; lia).
  split; [exact Hok | split; [exact Hinv | ]].
  apply (frame_counters_by_code (env_all 100) (OpCallback 1024) _ Hok Hinv).
Defined.

(** ** Progress *)

Section Progress.

Import AudioPlayer.

(** The rounding of a quotient to a float: monotone, and exact at 1. *)
Variable fl : Q -> Q.
Hypothesis fl_monotone : forall x y : Q, (x <= y)%Q -> (fl x <= fl y)%Q.
Hypothesis fl_one : (fl 1 == 1)%Q.

Lemma quotient_ge_1 (a b : Z) :
  0 < b -> b <= a -> (1 <= inject_Z a / inject_Z b)%Q.
Proof.
  intros Hb Hab. apply Qle_shift_div_l.
  - change 0%Q with (inject_Z 0). rewrite <- Zlt_Qlt. exact Hb.
  - rewrite Qmult_1_l. rewrite <- Zle_Qle. exact Hab.
Qed.

Lemma quotient_le_1 (a b : Z) :
  0 < b -> a <= b -> (inject_Z a / inject_Z b <= 1)%Q.
Proof.
  intros Hb Hab. apply Qle_shift_div_r.
  - change 0%Q with (inject_Z 0). rewrite <- Zlt_Qlt. exact Hb.
  - rewrite Qmult_1_l. rewrite <- Zle_Qle. exact Hab.
Qed.

(** C8: with a non-negative frame total, [progress] is [None] exactly
    when [total_frames] is 0; otherwise it is the minimum of 1 and the
    (rounded) quotient played/total, so never above 1, and it is 1
    whenever [played_frames >= total_frames > 0]. *)
Theorem progress_by_cases (p : t) :
  0 <= total_frames p ->
  (progress fl p = None <-> total_frames p = 0) /\
  (total_frames p <> 0 ->
   exists q : Q,
     progress fl p = Some q /\
     (q == Qmin 1 (fl (inject_Z (played_frames p) / inject_Z (total_frames p))))%Q /\
     (q <= 1)%Q) /\
  (0 < total_frames p <= played_frames p -> progress fl p = Some 1%Q).
Proof.
  intros Ht. unfold progress.
  destruct (total_frames p =? 0) eqn:H0.
  - apply Z.eqb_eq in H0. repeat split; auto; intros; try lia.
  - apply Z.eqb_neq in H0.
    destruct (total_frames p <=? played_frames p) eqn:Hle.
    + apply Z.leb_le in Hle. split; [split; [discriminate | lia] | ].
      split; [ | reflexivity].
      intros _. exists 1%Q. split; [reflexivity | ]. split.
      * symmetry. apply Q.min_l. rewrite <- fl_one at 1.
        apply fl_monotone. apply quotient_ge_1; lia.
      * apply Qle_refl.
    + apply Z.leb_gt in Hle. split; [split; [discriminate | lia] | ].
      split; [ | intros; lia].
      intros _.
      assert (Hq : (fl (inject_Z (played_frames p) / inject_Z (total_frames p)) <= 1)%Q).
      { rewrite <- fl_one. apply fl_monotone. apply quotient_le_1; lia. }
      eexists. split; [reflexivity | ]. split.
      * symmetry. apply Q.min_r. exact Hq.
      * exact Hq.
Qed.

End Progress.

Lemma progress_by_cases_witness :
  let p := run_op (env_all 100) (OpCallback 40)
             (run_op (env_all 100) (OpLoad "media/a.wav") AudioPlayer.init) in
  0 <= AudioPlayer.total_frames p /\
  exists q : Q,
    AudioPlayer.progress (fun x => x) p = Some q /\
    (q == Qmin 1 (inject_Z 40 / inject_Z 100))%Q /\ (q <= 1)%Q.
Proof.
  cbv zeta. split; [cbn; lia | ].
  destruct (progress_by_cases (fun x => x) (fun x y H => H) (Qeq_refl 1)
              (run_op (env_all 100) (OpCallback 40)
                 (run_op (env_all 100) (OpLoad "media/a.wav") AudioPlayer.init)))
    as (_ & H & _); [cbn; lia | ].
  apply H. cbn. lia.
Defined.

(** ** Playlist actions *)

Section Playlist.

Import RadioApp.

Variable env : Env.

Lemma on_player_run {A : Type} (m : M AudioPlayer.t A) (a : t) :
  on_player m a
  = (result_of (m (player a)), with_player (state_of (m (player a))) a).
Proof. unfold on_player. destruct (m (player a)). reflexivity. Qed.

Lemma with_player_same (a : t) : with_player (player a) a = a.
Proof. destruct a. reflexivity. Qed.

(** When the selected track is the one in the playing slot,
    [play_action] works on the engine only. *)
Lemma play_action_in_place (a : t) :
  getitem (playlist a) (playing_index a) = Ret (selected_index a) ->
  exists p', state_of (play_action env a) = with_player p' a.
Proof.
  intros Hcur. unfold play_action, bind, gets, eval, when, modify, ret.
  destruct (len (playlist a) =? 0).
  - exists (player a). cbn. symmetry. apply with_player_same.
  - rewrite Hcur, Z.eqb_refl. cbn [negb].
    destruct (AudioPlayer.has_stream (player a)) eqn:Hs; cbn [negb].
    + rewrite !on_player_run.
      destruct (result_of (AudioPlayer.start_stream (player a)));
        cbn; eexists; reflexivity.
    + rewrite Hcur.
      destruct (getitem (files a) (selected_index a)) as [file | e].
      * rewrite on_player_run.
        destruct (AudioPlayer.load_file env (path_join directory file) (player a))
          as [[u | e] p1]; cbn.
        -- rewrite on_player_run. cbn [player with_player].
           destruct (result_of (AudioPlayer.start_stream p1));
             cbn; eexists; reflexivity.
        -- eexists. reflexivity.
      * exists (player a). cbn. symmetry. apply with_player_same.
Qed.

Lemma stop_action_run (a : t) :
  stop_action a
  = (Ret tt, with_player (state_of (AudioPlayer.stop_stream (player a))) a).
Proof.
  unfold stop_action, bind. rewrite on_player_run.
  unfold AudioPlayer.stop_stream.
  destruct (AudioPlayer.stream (player a)); reflexivity.
Qed.

(** What [prev_action] and [skip_action] do once the playing slot has
    been moved: restart the stream if it was active. *)
Lemma restart_in_place (a : t) :
  getitem (playlist a) (playing_index a) = Ret (selected_index a) ->
  exists p',
    state_of ((stop_action ;;; play_action env ;;; ret tt) a)
    = with_player p' a.
Proof.
  intros Hcur. unfold bind. rewrite stop_action_run.
  destruct (play_action_in_place
              (with_player
                 (state_of (AudioPlayer.stop_stream (player a))) a) Hcur)
    as [p' Hp'].
  destruct (play_action env _) as [[r | e] b].
  - unfold state_of in *. cbn [snd ret] in *. subst b. exists p'. reflexivity.
  - unfold state_of in *. cbn [snd] in *. subst b. exists p'. reflexivity.
Qed.

(** [prev_action] moves the playing slot one back, modulo the number of
    tracks, whatever happens to the stream afterwards. *)
Lemma prev_action_position (a : t) :
  position_after (state_of (prev_action env a)) a
    (if len (files a) =? 0 then playing_index a
     else (playing_index a - 1) mod len (files a)).
Proof. unfold prev_action. step_position restart_in_place. Qed.

Lemma skip_action_position (a : t) :
  position_after (state_of (skip_action env a)) a
    (if len (files a) =? 0 then playing_index a
     else (playing_index a + 1) mod len (files a)).
Proof. unfold skip_action. step_position restart_in_place. Qed.

Lemma random_action_run (draws : list nat) (a : t) :
  random_action draws a
  = let a1 := with_playlist (shuffle draws (playlist a))
                (with_is_random true a) in
    match index (playlist a1) (selected_index a1) with
    | Ret k => (Ret true, with_playing_index k a1)
    | Raise e => (Raise e, a1)
    end.
Proof.
  unfold random_action, bind, modify, eval, ret. cbv zeta.
  destruct (index _ _); reflexivity.
Qed.

(** With the selected track in the play order, [random_action] returns
    true. *)
Lemma random_action_returns (draws : list nat) (a : t) :
  In (selected_index a) (playlist a) ->
  result_of (random_action draws a) = Ret true.
Proof.
  intros Hin. rewrite random_action_run. cbv zeta.
  cbn [playlist selected_index with_playlist with_is_random].
  assert (Hin' : In (selected_index a) (shuffle draws (playlist a))).
  { eapply Permutation_in; [ | exact Hin].
    symmetry. apply shuffle_Permutation. }
  destruct (index_from_of_In _ _ 0 Hin') as [k Hk].
  unfold index. rewrite Hk. reflexivity.
Qed.


End Playlist.



(** C6: [prev_action] then [skip_action], and [skip_action] then
    [prev_action], leave [playing_index] at its first value modulo the
    number of tracks N: unchanged when N = 0, and equal to
    [playing_index mod N] when N > 0 (so unchanged when it was within
    0..N-1). *)
Theorem prev_then_skip_position (env : Env) (a : RadioApp.t) :
  let n := len (RadioApp.files a) in
  let back_forth :=
    state_of (RadioApp.skip_action env (state_of (RadioApp.prev_action env a))) in
  let forth_back :=
    state_of (RadioApp.prev_action env (state_of (RadioApp.skip_action env a))) in
  (n = 0 ->
   RadioApp.playing_index back_forth = RadioApp.playing_index a /\
   RadioApp.playing_index forth_back = RadioApp.playing_index a) /\
  (0 < n ->
   RadioApp.playing_index back_forth = RadioApp.playing_index a mod n /\
   RadioApp.playing_index forth_back = RadioApp.playing_index a mod n) /\
  (0 <= RadioApp.playing_index a < n ->
   RadioApp.playing_index back_forth = RadioApp.playing_index a /\
   RadioApp.playing_index forth_back = RadioApp.playing_index a).
Proof.
  intros n back_forth forth_back.
  destruct (prev_action_position env a) as [Hf1 Hp1].
  destruct (skip_action_position env (state_of (RadioApp.prev_action env a)))
    as [_ Hp2].
  destruct (skip_action_position env a) as [Hf3 Hp3].
  destruct (prev_action_position env (state_of (RadioApp.skip_action env a)))
    as [_ Hp4].
  fold back_forth in Hp2. fold forth_back in Hp4.
  rewrite Hf1, Hp1 in Hp2. rewrite Hf3, Hp3 in Hp4. fold n in Hp2, Hp4.
  assert (Hmod : 0 < n ->
                 RadioApp.playing_index back_forth = RadioApp.playing_index a mod n /\
                 RadioApp.playing_index forth_back = RadioApp.playing_index a mod n).
  { intros Hn.
    replace (n =? 0) with false in * by (symmetry; apply Z.eqb_neq; lia).
    rewrite Hp2, Hp4.
    rewrite Z.add_mod_idemp_l, Zminus_mod_idemp_l by lia.
    split; f_equal; lia. }
  split; [ | split].
  - intros Hn. rewrite Hn in Hp2, Hp4. cbn in Hp2, Hp4. split; assumption.
  - exact Hmod.
  - intros Hr. destruct (Hmod ltac:(lia)) as [H1 H2].
    rewrite H1, H2. split; apply Z.mod_small; lia.
Qed.

Lemma prev_then_skip_position_witness :
  RadioApp.playing_index
    (state_of (RadioApp.skip_action (env_all 100)
                 (state_of (RadioApp.prev_action (env_all 100) three_tracks))))
  = RadioApp.playing_index three_tracks.
Proof.
  destruct (prev_then_skip_position (env_all 100) three_tracks) as (_ & _ & H).
  apply H. cbn. lia.
Defined.

(** C9: when the selected track is not the one in the playing slot and
    its file cannot be opened, [play_action] raises the exception of
    [wave.open] and leaves the playing slot moved to the selected track and
    the stream stopped and released; nothing else is changed and nothing is
    put back. *)
Theorem play_not_atomic (env : Env) (a : RadioApp.t) (cur k : Z)
        (file : string) (e : exn) :
  getitem (RadioApp.playlist a) (RadioApp.playing_index a) = Ret cur ->
  RadioApp.selected_index a <> cur ->
  index (RadioApp.playlist a) (RadioApp.selected_index a) = Ret k ->
  getitem (RadioApp.files a) (RadioApp.selected_index a) = Ret file ->
  wave_open env (path_join RadioApp.directory file) = Raise e ->
  let a' :=
    RadioApp.with_player
      (state_of (AudioPlayer.stop_stream (RadioApp.player a)))
      (RadioApp.with_playing_index k a) in
  RadioApp.play_action env a = (Raise e, a') /\
  RadioApp.playing_index a' = k /\
  k <> RadioApp.playing_index a /\
  getitem (RadioApp.playlist a') k = Ret (RadioApp.selected_index a') /\
  AudioPlayer.has_stream (RadioApp.player a') = false /\
  (AudioPlayer.has_stream (RadioApp.player a) = true ->
   AudioPlayer.is_continuing (RadioApp.player a') = false /\
   AudioPlayer.total_frames (RadioApp.player a') = 0 /\
   AudioPlayer.played_frames (RadioApp.player a') = 0).
Proof.
  intros Hcur Hsel Hidx Hfile Hopen a'.
  destruct (index_getitem _ _ _ Hidx) as [Hk Hslot].
  assert (Hlen : (len (RadioApp.playlist a) =? 0) = false)
    by (apply Z.eqb_neq; lia).
  assert (Hne : (RadioApp.selected_index a =? cur) = false)
    by (apply Z.eqb_neq; exact Hsel).
  split; [ | split; [reflexivity | split; [ | split; [exact Hslot | split]]]].
  - unfold RadioApp.play_action.
    unfold bind at 1, gets at 1. rewrite Hlen.
    unfold bind at 1, RadioApp.eval at 1. rewrite Hcur.
    unfold bind at 1, gets at 1. rewrite Hne. cbn [negb when].
    unfold bind at 1. unfold bind at 1, RadioApp.eval at 1. rewrite Hidx.
    unfold bind at 1, modify at 1.
    unfold bind at 1, gets at 1. cbn [RadioApp.player RadioApp.with_playing_index].
    assert (Hstop :
      when (AudioPlayer.has_stream (RadioApp.player a))
        (RadioApp.on_player AudioPlayer.stop_stream ;;; ret tt)
        (RadioApp.with_playing_index k a) = (Ret tt, a')).
    { subst a'. unfold when.
      destruct (AudioPlayer.has_stream (RadioApp.player a)) eqn:Hs.
      - apply (stop_action_run (RadioApp.with_playing_index k a)).
      - unfold ret. f_equal. unfold AudioPlayer.stop_stream.
        unfold AudioPlayer.has_stream in Hs.
        destruct (AudioPlayer.stream (RadioApp.player a)); [discriminate | ].
        cbn. destruct a; reflexivity. }
    rewrite Hstop.
    unfold bind at 1, gets at 1.
    assert (Hns : AudioPlayer.has_stream (RadioApp.player a') = false)
      by apply stop_stream_no_stream.
    rewrite Hns. cbn [negb when].
    unfold bind at 1. unfold bind at 1, RadioApp.eval at 1.
    change (RadioApp.playlist a') with (RadioApp.playlist a).
    change (RadioApp.playing_index a') with k. rewrite Hslot.
    unfold bind at 1, RadioApp.eval at 1.
    change (RadioApp.files a') with (RadioApp.files a). rewrite Hfile.
    rewrite on_player_run.
    rewrite (load_file_failed env _ e _ Hopen). reflexivity.
  - intros Heq. rewrite Heq in Hslot. congruence.
  - apply stop_stream_no_stream.
  - intros Hs. destruct (stop_stream_counters _ Hs) as (H1 & H2 & _ & H4).
    repeat split; assumption.
Qed.

Lemma play_not_atomic_witness :
  getitem (RadioApp.playlist playing_a_selected_b)
          (RadioApp.playing_index playing_a_selected_b) = Ret 0 /\
  RadioApp.selected_index playing_a_selected_b <> 0 /\
  result_of (RadioApp.play_action (env_only "media/a.wav" 100) playing_a_selected_b)
  = Raise FileNotFoundError /\
  RadioApp.playing_index
    (state_of (RadioApp.play_action (env_only "media/a.wav" 100)
                 playing_a_selected_b)) = 1.
Proof.
  split; [reflexivity | split; [discriminate | ]].
  destruct (play_not_atomic (env_only "media/a.wav" 100) playing_a_selected_b
              0 1 "b.wav" FileNotFoundError)
    as (Hrun & _); try reflexivity; try discriminate.
  rewrite Hrun. split; reflexivity.
Defined.

(** ** Switch controls *)

Section Switch.

Import Control.

Variable W : Type.

Lemma nth_error_clear_selection_from (k g self i : nat) (cs : list (t W)) :
  (k + i = self)%nat ->
  nth_error (clear_selection_from W k g self cs) i = nth_error cs i.
Proof.
  revert k i. induction cs as [ | c cs IH]; intros k i Hk.
  - destruct i; reflexivity.
  - destruct i as [ | i]; cbn.
    + destruct (control_group c) as [g' | ]; [ | reflexivity].
      replace (Nat.eqb k self) with true by (symmetry; apply Nat.eqb_eq; lia).
      cbn [negb]. rewrite andb_false_r. reflexivity.
    + apply IH. lia.
Qed.

(** Clearing the group never touches the control that asked for it. *)
Lemma handle_control_group_self (self : nat) (c : t W) (cs : list (t W)) :
  nth_error (handle_control_group self c cs) self = nth_error cs self.
Proof.
  unfold handle_control_group.
  destruct (negb (is_selected c)); [ | reflexivity].
  destruct (control_group c); [ | reflexivity].
  apply nth_error_clear_selection_from. reflexivity.
Qed.

Lemma nth_error_update_at (k : nat) (f : t W -> t W) (cs : list (t W)) :
  nth_error (update_at W k f cs) k = option_map f (nth_error cs k).
Proof.
  revert k. induction cs as [ | c cs IH]; intros k.
  - destruct k; reflexivity.
  - destruct k as [ | k]; cbn; [reflexivity | apply IH].
Qed.

(** C7: [on_select] of a switch runs the callback of the transition it
    attempts (deactivate when switched, activate when not) and flips
    [is_switched] exactly when that callback returns true; on false, or
    on an exception, [is_switched] stays as it was. *)
Theorem switch_on_select (p : Panel W) (self : nat) (c : t W)
        (cb : M W bool) :
  nth_error (controls p) self = Some c ->
  (if is_switched_of c then deactivate c else activate c) = Some cb ->
  exists c' : t W,
    nth_error (controls (state_of (on_select self p))) self = Some c' /\
    is_switched_of c'
    = match result_of (cb (world p)) with
      | Ret true => negb (is_switched_of c)
      | Ret false | Raise _ => is_switched_of c
      end.
Proof.
  intros Hc Hcb. unfold on_select. rewrite Hc.
  pose proof (handle_control_group_self self c (controls p)) as Hself.
  rewrite Hc in Hself.
  unfold is_switched_of, activate, deactivate in *.
  destruct (variant c) as [inst | f g b] eqn:Hv; [discriminate | ].
  assert (Hrun : forall m : M W bool, m = cb ->
    exists c' : t W,
      nth_error
        (controls
           (state_of
              ((r <- on_world W m ;; when r (toggle_at W self))
                 {| controls := handle_control_group self c (controls p);
                    world := world p |}))) self = Some c' /\
      match variant c' with
      | SwitchControl _ _ b' => b'
      | InstantControl _ => false
      end
      = match result_of (cb (world p)) with
        | Ret true => negb b
        | Ret false | Raise _ => b
        end).
  { intros m ->. unfold bind, on_world. cbn [world controls].
    destruct (cb (world p)) as [[[ | ] | e] w']; cbn.
    - rewrite nth_error_update_at, Hself. cbn.
      eexists. split; [reflexivity | ]. cbn. rewrite Hv. reflexivity.
    - exists c. rewrite Hself, Hv. split; reflexivity.
    - exists c. rewrite Hself, Hv. split; reflexivity. }
  destruct b; inversion Hcb; subst; apply Hrun; reflexivity.
Qed.

End Switch.

Lemma switch_on_select_witness :
  nth_error (Control.controls radio_panel) 2
  = nth_error (radio_controls (env_all 100) []) 2 /\
  exists c' : Control.t RadioApp.t,
    nth_error (Control.controls (state_of (Control.on_select 2 radio_panel))) 2
    = Some c' /\
    Control.is_switched_of c' = true.
Proof.
  split; [reflexivity | ].
  destruct (switch_on_select RadioApp.t radio_panel 2 _
              (RadioApp.play_action (env_all 100)) eq_refl eq_refl)
    as [c' [H1 H2]].
  exists c'. split; [exact H1 | exact H2].
Defined.


(** ** Control groups *)

Section Groups.

Import Control.

Variable W : Type.

Lemma reset_facts (c : t W) :
  is_focused (reset c) = false /\
  is_switched_of (reset c) = false /\
  control_group (reset c) = control_group c.
Proof.
  unfold reset, is_focused, is_switched_of, on_deselect, on_blur.
  destruct (variant c) eqn:Hv; cbn; rewrite ?Hv; repeat split.
Qed.

Lemma clear_selection_from_nth (k g self i : nat) (cs : list (t W)) (c : t W) :
  nth_error cs i = Some c ->
  nth_error (clear_selection_from W k g self cs) i
  = Some (match control_group c with
          | Some g' =>
              if (Nat.eqb g' g && negb (Nat.eqb (k + i) self))%bool
              then reset c else c
          | None => c
          end).
Proof.
  revert k i. induction cs as [ | d cs IH]; intros k i Hn.
  - destruct i; discriminate.
  - destruct i as [ | i]; cbn in Hn.
    + inversion Hn; subst. cbn. rewrite Nat.add_0_r. reflexivity.
    + cbn. rewrite (IH (S k) i Hn).
      replace (S k + i)%nat with (k + S i)%nat by lia. reflexivity.
Qed.

Lemma clear_selection_from_length (k g self : nat) (cs : list (t W)) :
  List.length (clear_selection_from W k g self cs) = List.length cs.
Proof.
  revert k. induction cs as [ | d cs IH]; intros k; cbn; [ | rewrite IH];
    reflexivity.
Qed.

Lemma clear_selection_cases (g self i : nat) (cs : list (t W)) (c : t W) :
  nth_error cs i = Some c ->
  List.length (clear_selection g self cs) = List.length cs /\
  (control_group c = Some g -> i <> self ->
   nth_error (clear_selection g self cs) i = Some (reset c) /\
   is_focused (reset c) = false /\ is_switched_of (reset c) = false) /\
  (control_group c <> Some g \/ i = self ->
   nth_error (clear_selection g self cs) i = Some c).
Proof.
  intros Hn. unfold clear_selection.
  rewrite (clear_selection_from_nth 0 g self i cs c Hn). cbn [Nat.add].
  split; [apply clear_selection_from_length | split].
  - intros Hg Hi. rewrite Hg, Nat.eqb_refl.
    replace (Nat.eqb i self) with false by (symmetry; apply Nat.eqb_neq; exact Hi).
    cbn. destruct (reset_facts c) as (H1 & H2 & _). auto.
  - intros [Hg | Hi].
    + destruct (control_group c) as [g' | ]; [ | reflexivity].
      destruct (Nat.eqb g' g) eqn:E; [ | reflexivity].
      apply Nat.eqb_eq in E. congruence.
    + subst i. destruct (control_group c) as [g' | ]; [ | reflexivity].
      rewrite Nat.eqb_refl. cbn [negb]. rewrite andb_false_r. reflexivity.
Qed.

(** X1: [clear_selection] resets every member of the group but the control
    that asks: such a member ends unfocused and unswitched; the asking
    control and the controls outside the group are left as they are, and no
    control is added or removed. *)
Theorem clear_selection_resets_others (g self i : nat) (cs : list (t W))
        (c : t W) :
  nth_error cs i = Some c ->
  List.length (clear_selection g self cs) = List.length cs /\
  (control_group c = Some g -> i <> self ->
   nth_error (clear_selection g self cs) i = Some (reset c) /\
   is_focused (reset c) = false /\ is_switched_of (reset c) = false) /\
  (control_group c <> Some g \/ i = self ->
   nth_error (clear_selection g self cs) i = Some c).
Proof. exact (clear_selection_cases g self i cs c). Qed.

Lemma update_at_other (k i : nat) (f : t W -> t W) (cs : list (t W)) :
  i <> k -> nth_error (update_at W k f cs) i = nth_error cs i.
Proof.
  revert k i. induction cs as [ | c cs IH]; intros k i Hne.
  - destruct k; reflexivity.
  - destruct k as [ | k], i as [ | i]; cbn; try reflexivity; try lia.
    apply IH. lia.
Qed.

Lemma update_at_length (k : nat) (f : t W -> t W) (cs : list (t W)) :
  List.length (update_at W k f cs) = List.length cs.
Proof.
  revert k. induction cs as [ | c cs IH]; intros k; destruct k; cbn; auto.
Qed.

(** The controls after [on_select]: those of [handle_control_group], with
    at most the control itself toggled. *)
Lemma on_select_controls (p : Panel W) (self : nat) (c : t W) :
  nth_error (controls p) self = Some c ->
  controls (state_of (on_select self p))
  = handle_control_group self c (controls p) \/
  controls (state_of (on_select self p))
  = update_at W self (toggle W) (handle_control_group self c (controls p)).
Proof.
  intros Hc. unfold on_select. rewrite Hc.
  destruct (variant c) as [cb | f g b].
  - left. unfold on_world. cbn [world controls].
    destruct (cb (world p)). reflexivity.
  - assert (H : forall m : M W bool,
      controls (state_of
        ((r <- on_world W m ;; when r (toggle_at W self))
           {| controls := handle_control_group self c (controls p);
              world := world p |}))
      = handle_control_group self c (controls p) \/
      controls (state_of
        ((r <- on_world W m ;; when r (toggle_at W self))
           {| controls := handle_control_group self c (controls p);
              world := world p |}))
      = update_at W self (toggle W) (handle_control_group self c (controls p))).
    { intros m. unfold bind, on_world. cbn [world controls].
      destruct (m (world p)) as [[[ | ] | e] w']; cbn; auto. }
    destruct b; apply H.
Qed.

Lemma on_select_others (p : Panel W) (self i : nat) (c d : t W) :
  nth_error (controls p) self = Some c ->
  nth_error (controls p) i = Some d ->
  i <> self ->
  let after := nth_error (controls (state_of (on_select self p))) i in
  (control_group c <> None -> control_group d = control_group c ->
   after = Some (reset d) /\
   is_focused (reset d) = false /\ is_switched_of (reset d) = false) /\
  (control_group c = None \/ control_group d <> control_group c ->
   after = Some d).
Proof.
  intros Hc Hd Hi after.
  assert (Hafter : after = nth_error (handle_control_group self c (controls p)) i).
  { subst after. destruct (on_select_controls p self c Hc) as [-> | ->];
      [reflexivity | apply update_at_other; exact Hi]. }
  rewrite Hafter. unfold handle_control_group.
  assert (Hsel : is_selected c = false)
    by (unfold is_selected; destruct (selection_state c); reflexivity).
  rewrite Hsel. cbn [negb].
  destruct (control_group c) as [g | ] eqn:Hg.
  - destruct (clear_selection_cases g self i (controls p) d Hd)
      as (_ & Hin & Hout).
    split.
    + intros _ Hdg. apply Hin; assumption.
    + intros [Hn | Hn]; [discriminate | ]. apply Hout. left. exact Hn.
  - split; [intros Hn; contradiction | ]. intros _. exact Hd.
Qed.

(** X2: [on_select] of a control resets every other control of its group
    (which ends unfocused and unswitched) and leaves the controls of other
    groups and of no group as they were, whatever its callback returns or
    raises. *)
Theorem on_select_resets_group (p : Panel W) (self i : nat) (c d : t W) :
  nth_error (controls p) self = Some c ->
  nth_error (controls p) i = Some d ->
  i <> self ->
  let after := nth_error (controls (state_of (on_select self p))) i in
  (control_group c <> None -> control_group d = control_group c ->
   after = Some (reset d) /\
   is_focused (reset d) = false /\ is_switched_of (reset d) = false) /\
  (control_group c = None \/ control_group d <> control_group c ->
   after = Some d).
Proof. exact (on_select_others p self i c d). Qed.

End Groups.

Lemma clear_selection_resets_others_witness :
  nth_error (radio_controls (env_all 100) []) 0
  = nth_error (Control.controls radio_panel) 0 /\
  List.length (Control.clear_selection 0 2 (radio_controls (env_all 100) []))
  = 7%nat.
Proof.
  split; [reflexivity | ].
  destruct (clear_selection_resets_others RadioApp.t 0 2 0
              (radio_controls (env_all 100) []) _ eq_refl) as (H & _).
  exact H.
Defined.

Lemma on_select_resets_group_witness :
  (2 <> 0)%nat /\
  option_map Control.is_switched_of
    (nth_error
       (Control.controls
          (state_of (Control.on_select 0
                       (state_of (Control.on_select 2 radio_panel))))) 2)
  = Some false.
Proof.
  split; [discriminate | ].
  destruct (on_select_resets_group RadioApp.t
              (state_of (Control.on_select 2 radio_panel)) 0 2 _ _
              eq_refl eq_refl ltac:(discriminate)) as (Hin & _).
  destruct (Hin ltac:(discriminate) eq_refl) as (Hafter & _ & Hsw).
  rewrite Hafter. cbn [option_map]. rewrite Hsw. reflexivity.
Defined.

(** X3: [from_state] gives back each of the two selection states from its
    own flags, and raises [IndexError] when asked for a selected state, as
    neither of the two is one. *)
Theorem from_state_round_trip :
  (forall s : Control.SelectionState,
     from_state (Control.state_is_focused s) (Control.state_is_selected s)
     = Ret s) /\
  (forall is_focused : bool, from_state is_focused true = Raise IndexError).
Proof.
  split.
  - intros []; reflexivity.
  - intros []; reflexivity.
Qed.


(** ** Moving between the controls *)

Lemma place_in_range {A : Type} (l : list A) (i : Z) :
  0 <= i < len l -> place l i = Ret (Z.to_nat i).
Proof.
  intros Hi. unfold place. cbv zeta.
  assert (H1 : (i <? 0) = false) by (apply Z.ltb_ge; lia).
  assert (H2 : (len l <=? i) = false) by (apply Z.leb_gt; lia).
  rewrite !H1, H2. reflexivity.
Qed.

Section Focus.

Import Control.

Variable W : Type.

(** Blurring place [k] and focusing place [k'] leaves exactly [k']
    focused, when nothing but [k] was focused before. *)
Lemma refocus (k k' : nat) (cs : list (t W)) :
  (k' < List.length cs)%nat ->
  (forall i c, nth_error cs i = Some c -> i <> k -> is_focused c = false) ->
  forall i c,
    nth_error (update_at W k' on_focus (update_at W k on_blur cs)) i = Some c ->
    (is_focused c = true <-> i = k').
Proof.
  intros Hk' Hothers i c Hn.
  destruct (Nat.eq_dec i k') as [-> | Hik'].
  - rewrite nth_error_update_at in Hn.
    destruct (nth_error (update_at W k on_blur cs) k'); [ | discriminate].
    inversion Hn; subst. split; [reflexivity | ]. intros _. reflexivity.
  - rewrite update_at_other in Hn by exact Hik'.
    split; [ | intros ->; contradiction].
    intros Hf. exfalso.
    destruct (Nat.eq_dec i k) as [-> | Hik].
    + rewrite nth_error_update_at in Hn.
      destruct (nth_error cs k); [ | discriminate].
      inversion Hn; subst. discriminate.
    + rewrite update_at_other in Hn by exact Hik.
      rewrite (Hothers i c Hn Hik) in Hf. discriminate.
Qed.

Lemma switched_after_update (k : nat) (f : t W -> t W) (cs : list (t W)) :
  (forall c, is_switched_of (f c) = is_switched_of c) ->
  map is_switched_of (update_at W k f cs) = map is_switched_of cs.
Proof.
  intros Hf. revert k. induction cs as [ | c cs IH]; intros k.
  - destruct k; reflexivity.
  - destruct k as [ | k]; cbn; [rewrite Hf | rewrite IH]; reflexivity.
Qed.

Lemma move_focus (b : Buttons.t W) (target : Z) :
  0 <= Buttons.selected_control_index b
    < len (controls (Buttons.panel b)) ->
  0 <= target < len (controls (Buttons.panel b)) ->
  focus_on_selected b ->
  exists b',
    (Buttons.on_selected_control W on_blur ;;;
     modify (Buttons.with_index W target) ;;;
     Buttons.on_selected_control W on_focus) b = (Ret tt, b') /\
    Buttons.selected_control_index b' = target /\
    focus_on_selected b' /\
    world (Buttons.panel b') = world (Buttons.panel b) /\
    map is_switched_of (controls (Buttons.panel b'))
    = map is_switched_of (controls (Buttons.panel b)).
Proof.
  intros Hidx Htgt Hfocus.
  unfold bind, modify, Buttons.on_selected_control.
  rewrite (place_in_range _ _ Hidx).
  cbn [Buttons.panel Buttons.selected_control_index Buttons.with_controls
       Buttons.with_index controls world].
  assert (Hlen : len (update_at W
                        (Z.to_nat (Buttons.selected_control_index b)) on_blur
                        (controls (Buttons.panel b)))
                 = len (controls (Buttons.panel b)))
    by (unfold len; rewrite update_at_length; reflexivity).
  rewrite place_in_range by (rewrite Hlen; exact Htgt).
  eexists. split; [reflexivity | ].
  cbn [Buttons.panel Buttons.selected_control_index Buttons.with_controls
       Buttons.with_index controls world].
  split; [reflexivity | split; [ | split; [reflexivity | ]]].
  - intros i c Hn.
    cbn [Buttons.panel Buttons.selected_control_index Buttons.with_controls
         Buttons.with_index controls world] in *.
    assert (Hk' : (Z.to_nat target < List.length (controls (Buttons.panel b)))%nat)
      by (unfold len in Htgt; lia).
    assert (Hothers : forall j d,
               nth_error (controls (Buttons.panel b)) j = Some d ->
               j <> Z.to_nat (Buttons.selected_control_index b) ->
               is_focused d = false).
    { intros j d Hd Hj. destruct (is_focused d) eqn:Hfd; [ | reflexivity].
      apply (Hfocus j d Hd) in Hfd. lia. }
    rewrite (refocus _ _ _ Hk' Hothers i c Hn). lia.
  - rewrite !switched_after_update; [reflexivity | | ];
      intros c; reflexivity.
Qed.

(** X4: with the selected control in range and the only one focused,
    [on_key_left] and [on_key_right] return, move the selection one place
    and stop at the first and at the last control, leave exactly the newly
    selected control focused, and change neither a switch nor the state
    behind the callbacks. *)
Theorem key_left_right_move_focus (b : Buttons.t W) :
  0 <= Buttons.selected_control_index b
    < len (controls (Buttons.panel b)) ->
  focus_on_selected b ->
  exists bl br,
    Buttons.on_key_left b = (Ret tt, bl) /\
    Buttons.on_key_right b = (Ret tt, br) /\
    Buttons.selected_control_index bl
    = Z.max (Buttons.selected_control_index b - 1) 0 /\
    Buttons.selected_control_index br
    = Z.min (Buttons.selected_control_index b + 1)
            (len (controls (Buttons.panel b)) - 1) /\
    focus_on_selected bl /\ focus_on_selected br /\
    world (Buttons.panel bl) = world (Buttons.panel b) /\
    world (Buttons.panel br) = world (Buttons.panel b) /\
    map is_switched_of (controls (Buttons.panel bl))
    = map is_switched_of (controls (Buttons.panel b)) /\
    map is_switched_of (controls (Buttons.panel br))
    = map is_switched_of (controls (Buttons.panel b)).
Proof.
  intros Hidx Hfocus.
  destruct (move_focus b (Z.max (Buttons.selected_control_index b - 1) 0)
              Hidx ltac:(lia) Hfocus) as (bl & Hl & Hil & Hfl & Hwl & Hsl).
  destruct (move_focus b
              (Z.min (Buttons.selected_control_index b + 1)
                     (len (controls (Buttons.panel b)) - 1))
              Hidx ltac:(lia) Hfocus) as (br & Hr & Hir & Hfr & Hwr & Hsr).
  exists bl, br.
  split; [ | split].
  - unfold Buttons.on_key_left.
    unfold bind in *. unfold modify in *.
    unfold Buttons.on_selected_control in *.
    rewrite (place_in_range _ _ Hidx) in *.
    cbn [Buttons.panel Buttons.selected_control_index Buttons.with_controls
         Buttons.with_index controls world] in *.
    exact Hl.
  - unfold Buttons.on_key_right.
    unfold bind in *. unfold modify in *.
    unfold Buttons.on_selected_control in *.
    rewrite (place_in_range _ _ Hidx) in *.
    cbn [Buttons.panel Buttons.selected_control_index Buttons.with_controls
         Buttons.with_index controls world] in *.
    unfold len in *. rewrite update_at_length in *. exact Hr.
  - repeat (split; [assumption | ]). assumption.
Qed.

(** The control [on_select] is run on keeps its place and its focus. *)
Lemma on_select_self_focus (p : Panel W) (self : nat) (c : t W) :
  nth_error (controls p) self = Some c ->
  exists c',
    nth_error (controls (state_of (on_select self p))) self = Some c' /\
    is_focused c' = is_focused c.
Proof.
  intros Hc.
  pose proof (handle_control_group_self W self c (controls p)) as Hself.
  rewrite Hc in Hself.
  destruct (on_select_controls W p self c Hc) as [-> | ->].
  - exists c. split; [exact Hself | reflexivity].
  - rewrite nth_error_update_at, Hself. cbn [option_map].
    eexists. split; [reflexivity | reflexivity].
Qed.

Lemma on_select_length (p : Panel W) (self : nat) (c : t W) :
  nth_error (controls p) self = Some c ->
  List.length (controls (state_of (on_select self p)))
  = List.length (controls p).
Proof.
  intros Hc.
  assert (Hh : List.length (handle_control_group self c (controls p))
               = List.length (controls p)).
  { unfold handle_control_group.
    destruct (negb (is_selected c)); [ | reflexivity].
    destruct (control_group c); [ | reflexivity].
    apply clear_selection_from_length. }
  destruct (on_select_controls W p self c Hc) as [-> | ->];
    [ | rewrite update_at_length]; exact Hh.
Qed.

(** X5: with the selected control in range and the only one focused,
    [on_key_a] runs [on_select] of that control and moves neither the
    selection nor the focus, whatever the action does. *)
Theorem key_a_keeps_focus (b : Buttons.t W) :
  0 <= Buttons.selected_control_index b
    < len (controls (Buttons.panel b)) ->
  focus_on_selected b ->
  let k := Z.to_nat (Buttons.selected_control_index b) in
  let b' := state_of (Buttons.on_key_a b) in
  result_of (Buttons.on_key_a b) = result_of (on_select k (Buttons.panel b)) /\
  Buttons.panel b' = state_of (on_select k (Buttons.panel b)) /\
  Buttons.selected_control_index b' = Buttons.selected_control_index b /\
  len (controls (Buttons.panel b')) = len (controls (Buttons.panel b)) /\
  focus_on_selected b'.
Proof.
  intros Hidx Hfocus k b'. subst b'. unfold Buttons.on_key_a.
  rewrite (place_in_range _ _ Hidx). fold k.
  destruct (nth_error (controls (Buttons.panel b)) k) as [c | ] eqn:Hc.
  2:{ apply nth_error_None in Hc. unfold len in Hidx. lia. }
  pose proof (on_select_length _ _ _ Hc) as Hlen.
  pose proof (on_select_self_focus _ _ _ Hc) as (c' & Hc' & Hfc).
  pose proof (fun i d => on_select_others W (Buttons.panel b) k i c d Hc)
    as Hothers.
  destruct (on_select k (Buttons.panel b)) as [r p'] eqn:Hrun.
  unfold state_of, result_of in *. cbn [fst snd Buttons.panel
    Buttons.selected_control_index] in *.
  split; [reflexivity | split; [reflexivity | split; [reflexivity | split]]].
  - unfold len. rewrite Hlen. reflexivity.
  - intros i d' Hd'. cbn [Buttons.panel Buttons.selected_control_index] in *.
    destruct (Nat.eq_dec i k) as [-> | Hik].
    + rewrite Hc' in Hd'. inversion Hd'; subst d'. rewrite Hfc.
      apply (Hfocus k c Hc).
    + destruct (nth_error (controls (Buttons.panel b)) i) as [d | ] eqn:Hd.
      2:{ apply nth_error_None in Hd.
          assert (Hsome : nth_error (controls p') i <> None) by congruence.
          apply nth_error_Some in Hsome. lia. }
      assert (Hdf : is_focused d = false).
      { destruct (is_focused d) eqn:E; [ | reflexivity].
        apply (Hfocus i d Hd) in E. subst k. lia. }
      destruct (Hothers i d Hd Hik) as (Hin & Hout).
      assert (Hd'f : is_focused d' = false).
      { destruct (control_group c) as [g | ] eqn:Hg.
        - assert (Hdec : {control_group d = Some g} + {control_group d <> Some g})
            by (repeat decide equality).
          destruct Hdec as [E | E].
          + destruct (Hin ltac:(discriminate) E) as (Ha & Hb & _).
            rewrite Ha in Hd'. inversion Hd'; subst. exact Hb.
          + rewrite (Hout (or_intror E)) in Hd'. inversion Hd'; subst.
            exact Hdf.
        - rewrite (Hout (or_introl eq_refl)) in Hd'. inversion Hd'; subst.
          exact Hdf. }
      rewrite Hd'f. split; [discriminate | ]. intros E. subst k. lia.
Qed.

End Focus.


(** ** Well-formed states *)

Lemma In_range (n : nat) (x : Z) : In x (range n) <-> 0 <= x < Z.of_nat n.
Proof.
  unfold range. rewrite in_map_iff. split.
  - intros (m & <- & Hm). apply in_seq in Hm. lia.
  - intros Hx. exists (Z.to_nat x). split; [lia | ].
    apply in_seq. lia.
Qed.

Lemma range_length (n : nat) : List.length (range n) = n.
Proof. unfold range. rewrite length_map, length_seq. reflexivity. Qed.

Lemma getitem_in_range {A : Type} (l : list A) (i : Z) :
  0 <= i < len l ->
  exists x, getitem l i = Ret x /\ nth_error l (Z.to_nat i) = Some x.
Proof.
  intros Hi. unfold getitem. cbv zeta.
  assert (H1 : (i <? 0) = false) by (apply Z.ltb_ge; lia).
  rewrite !H1.
  destruct (nth_error l (Z.to_nat i)) as [x | ] eqn:Hn.
  - exists x. split; reflexivity.
  - apply nth_error_None in Hn. unfold len in Hi. lia.
Qed.

Section WellFormed.

Import RadioApp.

Variable env : Env.

Lemma well_formed_len (a : t) :
  well_formed a -> len (playlist a) = len (files a).
Proof.
  intros [Hp _]. unfold len. apply Permutation_length in Hp.
  rewrite Hp, range_length. reflexivity.
Qed.

(** Every slot of the play order holds a track of the list. *)
Lemma well_formed_slot (a : t) (k : Z) :
  well_formed a -> 0 <= k < len (files a) ->
  exists s, getitem (playlist a) k = Ret s /\ 0 <= s < len (files a).
Proof.
  intros Hwf Hk. pose proof (well_formed_len a Hwf) as Hlen.
  destruct (getitem_in_range (playlist a) k ltac:(lia)) as (s & Hg & Hn).
  exists s. split; [exact Hg | ].
  apply nth_error_In in Hn. destruct Hwf as [Hp _].
  apply (Permutation_in _ Hp) in Hn. apply In_range in Hn. exact Hn.
Qed.

(** Every track of the list has a slot in the play order. *)
Lemma well_formed_track (a : t) (s : Z) :
  well_formed a -> 0 <= s < len (files a) ->
  exists k, index (playlist a) s = Ret k /\ 0 <= k < len (files a) /\
            getitem (playlist a) k = Ret s.
Proof.
  intros Hwf Hs. pose proof (well_formed_len a Hwf) as Hlen.
  assert (Hin : In s (playlist a)).
  { destruct Hwf as [Hp _]. apply (Permutation_in _ (Permutation_sym Hp)).
    apply In_range. exact Hs. }
  destruct (index_from_of_In _ _ 0 Hin) as [k Hk].
  exists k. destruct (index_getitem _ _ _ Hk) as [Hr Hg].
  split; [exact Hk | split; [lia | exact Hg]].
Qed.

Lemma well_formed_same_lists (a b : t) :
  files b = files a -> playlist b = playlist a ->
  playing_index b = playing_index a -> selected_index b = selected_index a ->
  well_formed a -> well_formed b.
Proof.
  unfold well_formed. intros -> -> -> ->. auto.
Qed.

Lemma well_formed_with_player (p : AudioPlayer.t) (a : t) :
  well_formed a -> well_formed (with_player p a).
Proof. apply well_formed_same_lists; reflexivity. Qed.

Lemma files_nonempty_len (a : t) : files a <> [] <-> 0 < len (files a).
Proof.
  unfold len. destruct (files a); cbn; split; intros; try lia; congruence.
Qed.

Lemma play_action_empty (a : t) :
  playlist a = [] -> play_action env a = (Ret false, a).
Proof.
  intros Hp. destruct a as [fs sel top pl pi rnd vol pla mx].
  cbn in Hp. subst pl. reflexivity.
Qed.

(** [play_action] written out for a well-formed state with tracks. *)
Lemma play_action_run (a : t) :
  well_formed a -> files a <> [] ->
  exists cur k file,
    getitem (playlist a) (playing_index a) = Ret cur /\
    index (playlist a) (selected_index a) = Ret k /\
    0 <= k < len (files a) /\
    getitem (playlist a) k = Ret (selected_index a) /\
    getitem (files a) (selected_index a) = Ret file /\
    In file (files a) /\
    play_action env a
    = let a1 := if selected_index a =? cur then a
                else with_player
                       (state_of (AudioPlayer.stop_stream (player a)))
                       (with_playing_index k a) in
      if AudioPlayer.has_stream (player a1) then
        (Ret true,
         with_player (state_of (AudioPlayer.start_stream (player a1))) a1)
      else
        match AudioPlayer.load_file env (path_join directory file) (player a1)
        with
        | (Ret _, p1) =>
            (Ret true, with_player (state_of (AudioPlayer.start_stream p1)) a1)
        | (Raise e, p1) => (Raise e, with_player p1 a1)
        end.
Proof.
  intros Hwf Hne. pose proof Hwf as [Hperm Hrange].
  destruct (Hrange Hne) as [Hplay Hsel].
  pose proof (well_formed_len a Hwf) as Hlen.
  destruct (well_formed_slot a _ Hwf Hplay) as (cur & Hcur & Hcr).
  destruct (well_formed_track a _ Hwf Hsel) as (k & Hk & Hkr & Hslot).
  destruct (getitem_in_range (files a) (selected_index a) Hsel)
    as (file & Hfile & Hnth).
  exists cur, k, file.
  repeat (split; [first [assumption | eapply nth_error_In; eassumption] | ]).
  assert (Hn0 : (len (playlist a) =? 0) = false) by (apply Z.eqb_neq; lia).
  unfold play_action.
  unfold bind at 1, gets at 1. rewrite Hn0.
  unfold bind at 1, eval at 1. rewrite Hcur.
  unfold bind at 1, gets at 1.
  assert (Hstart : forall b : t,
    (on_player AudioPlayer.start_stream ;;; ret true) b
    = (Ret true, with_player (state_of (AudioPlayer.start_stream (player b))) b)).
  { intros b. unfold bind. rewrite on_player_run.
    unfold AudioPlayer.start_stream.
    destruct (AudioPlayer.stream (player b)); reflexivity. }
  assert (Htail : forall b : t,
    files b = files a -> playlist b = playlist a ->
    getitem (playlist a) (playing_index b) = Ret (selected_index a) ->
    (hs <- gets (fun a0 => AudioPlayer.has_stream (player a0)) ;;
     when (negb hs)
       (track <- eval (fun a0 => getitem (playlist a0) (playing_index a0)) ;;
        file0 <- eval (fun a0 => getitem (files a0) track) ;;
        on_player (AudioPlayer.load_file env (path_join directory file0))) ;;;
     on_player AudioPlayer.start_stream ;;; ret true) b
    = if AudioPlayer.has_stream (player b) then
        (Ret true,
         with_player (state_of (AudioPlayer.start_stream (player b))) b)
      else
        match AudioPlayer.load_file env (path_join directory file) (player b)
        with
        | (Ret _, p1) =>
            (Ret true, with_player (state_of (AudioPlayer.start_stream p1)) b)
        | (Raise e, p1) => (Raise e, with_player p1 b)
        end).
  { intros b Hfb Hpb Hgb.
    unfold bind at 1, gets at 1.
    destruct (AudioPlayer.has_stream (player b)) eqn:Hs; cbn [negb when].
    - unfold bind at 1, ret at 1. apply Hstart.
    - unfold bind at 1. unfold bind at 1, eval at 1. rewrite Hpb, Hgb.
      unfold bind at 1, eval at 1. rewrite Hfb, Hfile.
      rewrite on_player_run.
      destruct (AudioPlayer.load_file env (path_join directory file) (player b))
        as [[u | e] p1]; unfold result_of, state_of; cbn [fst snd].
      + rewrite Hstart. destruct b; reflexivity.
      + reflexivity. }
  destruct (selected_index a =? cur) eqn:Heq; cbn [negb when]; cbv zeta.
  - apply Z.eqb_eq in Heq. unfold bind at 1, ret at 1.
    apply Htail; [reflexivity | reflexivity | ]. rewrite Hcur, Heq. reflexivity.
  - unfold bind at 1. unfold bind at 1, eval at 1.
    rewrite Hk. unfold bind at 1, modify at 1.
    unfold bind at 1, gets at 1.
    cbn [player with_playing_index].
    assert (Hstop :
      when (AudioPlayer.has_stream (player a))
        (on_player AudioPlayer.stop_stream ;;; ret tt)
        (with_playing_index k a)
      = (Ret tt,
         with_player (state_of (AudioPlayer.stop_stream (player a)))
           (with_playing_index k a))).
    { unfold when. destruct (AudioPlayer.has_stream (player a)) eqn:Hs.
      - apply (stop_action_run (with_playing_index k a)).
      - unfold ret. f_equal. unfold AudioPlayer.stop_stream.
        unfold AudioPlayer.has_stream in Hs.
        destruct (AudioPlayer.stream (player a)); [discriminate | ].
        cbn. destruct a; reflexivity. }
    rewrite Hstop.
    apply Htail; [reflexivity | reflexivity | exact Hslot].
Qed.

End WellFormed.


Section Actions.

Import RadioApp.

Variable env : Env.

Lemma well_formed_moved (a : t) (k s : Z) :
  well_formed a -> 0 <= k < len (files a) -> 0 <= s < len (files a) ->
  well_formed (with_selected_index s (with_playing_index k a)).
Proof.
  intros [Hp _] Hk Hs. split; [exact Hp | ]. intros _. cbn. split; assumption.
Qed.

Lemma play_action_well_formed (a : t) :
  well_formed a -> well_formed (state_of (play_action env a)).
Proof.
  intros Hwf. destruct (files a) as [ | f fs] eqn:Hf.
  - assert (Hp : playlist a = []).
    { destruct Hwf as [Hp _]. rewrite Hf in Hp. cbn in Hp.
      apply Permutation_sym, Permutation_nil in Hp. exact Hp. }
    rewrite (play_action_empty env a Hp). exact Hwf.
  - assert (Hne : files a <> []) by (rewrite Hf; discriminate).
    destruct (play_action_run env a Hwf Hne)
      as (cur & k & file & Hcur & Hk & Hkr & Hslot & Hfile & _ & Hrun).
    rewrite Hrun. cbv zeta.
    assert (Hwf1 : well_formed
                     (if selected_index a =? cur then a
                      else with_player
                             (state_of (AudioPlayer.stop_stream (player a)))
                             (with_playing_index k a))).
    { destruct (selected_index a =? cur); [exact Hwf | ].
      apply well_formed_with_player.
      destruct Hwf as [Hp Hr]. split; [exact Hp | ]. intros _. cbn.
      destruct (Hr Hne) as [_ Hs]. split; assumption. }
    destruct (AudioPlayer.has_stream _).
    + apply well_formed_with_player. exact Hwf1.
    + destruct (AudioPlayer.load_file _ _ _) as [[u | e] p1];
        apply well_formed_with_player; exact Hwf1.
Qed.

(** [prev_action] and [skip_action] written out for a well-formed state
    with tracks: the slot is moved, the track in it is selected, and an
    active stream is restarted. *)
Lemma prev_action_run (a : t) :
  well_formed a -> files a <> [] ->
  exists s,
    getitem (playlist a) ((playing_index a - 1) mod len (files a)) = Ret s /\
    0 <= s < len (files a) /\
    prev_action env a
    = let a1 := with_selected_index s
                  (with_playing_index
                     ((playing_index a - 1) mod len (files a)) a) in
      if AudioPlayer.is_active (player a) then
        match play_action env
                (with_player (state_of (AudioPlayer.stop_stream (player a))) a1)
        with
        | (Ret _, b) => (Ret tt, b)
        | (Raise e, b) => (Raise e, b)
        end
      else (Ret tt, a1).
Proof.
  intros Hwf Hne. apply files_nonempty_len in Hne.
  assert (Hk : 0 <= (playing_index a - 1) mod len (files a) < len (files a))
    by (apply Z.mod_pos_bound; lia).
  destruct (well_formed_slot a _ Hwf Hk) as (s & Hg & Hs).
  exists s. split; [exact Hg | split; [exact Hs | ]].
  unfold prev_action.
  unfold bind at 1, gets at 1.
  replace (len (files a) =? 0) with false by (symmetry; apply Z.eqb_neq; lia).
  unfold bind at 1, modify at 1.
  unfold bind at 1, eval at 1.
  cbn [files playing_index playlist with_playing_index]. rewrite Hg.
  unfold bind at 1, modify at 1.
  unfold bind at 1, gets at 1.
  cbn [player with_selected_index with_playing_index]. cbv zeta.
  destruct (AudioPlayer.is_active (player a)); [ | reflexivity].
  unfold when, bind. rewrite stop_action_run.
  cbn [player with_selected_index with_playing_index].
  destruct (play_action env _) as [[r | e] b]; reflexivity.
Qed.

Lemma skip_action_run (a : t) :
  well_formed a -> files a <> [] ->
  exists s,
    getitem (playlist a) ((playing_index a + 1) mod len (files a)) = Ret s /\
    0 <= s < len (files a) /\
    skip_action env a
    = let a1 := with_selected_index s
                  (with_playing_index
                     ((playing_index a + 1) mod len (files a)) a) in
      if AudioPlayer.is_active (player a) then
        match play_action env
                (with_player (state_of (AudioPlayer.stop_stream (player a))) a1)
        with
        | (Ret _, b) => (Ret tt, b)
        | (Raise e, b) => (Raise e, b)
        end
      else (Ret tt, a1).
Proof.
  intros Hwf Hne. apply files_nonempty_len in Hne.
  assert (Hk : 0 <= (playing_index a + 1) mod len (files a) < len (files a))
    by (apply Z.mod_pos_bound; lia).
  destruct (well_formed_slot a _ Hwf Hk) as (s & Hg & Hs).
  exists s. split; [exact Hg | split; [exact Hs | ]].
  unfold skip_action.
  unfold bind at 1, gets at 1.
  replace (len (files a) =? 0) with false by (symmetry; apply Z.eqb_neq; lia).
  unfold bind at 1, modify at 1.
  unfold bind at 1, eval at 1.
  cbn [files playing_index playlist with_playing_index]. rewrite Hg.
  unfold bind at 1, modify at 1.
  unfold bind at 1, gets at 1.
  cbn [player with_selected_index with_playing_index]. cbv zeta.
  destruct (AudioPlayer.is_active (player a)); [ | reflexivity].
  unfold when, bind. rewrite stop_action_run.
  cbn [player with_selected_index with_playing_index].
  destruct (play_action env _) as [[r | e] b]; reflexivity.
Qed.

(** [call_next] written out for a well-formed state with tracks whose
    engine is continuing. *)
Lemma call_next_run (a : t) :
  well_formed a -> files a <> [] ->
  AudioPlayer.is_continuing (player a) = true ->
  exists s file,
    getitem (playlist a) ((playing_index a + 1) mod len (files a)) = Ret s /\
    0 <= s < len (files a) /\
    getitem (files a) s = Ret file /\ In file (files a) /\
    call_next env a
    = let a1 := with_player (state_of (AudioPlayer.stop_stream (player a)))
                  (with_selected_index s
                     (with_playing_index
                        ((playing_index a + 1) mod len (files a)) a)) in
      match AudioPlayer.load_file env (path_join directory file) (player a1)
      with
      | (Ret _, p1) =>
          (Ret tt, with_player (state_of (AudioPlayer.start_stream p1)) a1)
      | (Raise e, p1) => (Raise e, with_player p1 a1)
      end.
Proof.
  intros Hwf Hne Hcont. apply files_nonempty_len in Hne.
  assert (Hk : 0 <= (playing_index a + 1) mod len (files a) < len (files a))
    by (apply Z.mod_pos_bound; lia).
  destruct (well_formed_slot a _ Hwf Hk) as (s & Hg & Hs).
  destruct (getitem_in_range (files a) s Hs) as (file & Hfile & Hnth).
  exists s, file.
  repeat (split; [first [assumption | eapply nth_error_In; eassumption] | ]).
  unfold call_next. rewrite Hcont.
  replace (0 <? len (files a)) with true by (symmetry; apply Z.ltb_lt; lia).
  cbn [andb].
  unfold bind at 1, modify at 1.
  unfold bind at 1, eval at 1.
  cbn [files playing_index playlist with_playing_index]. rewrite Hg.
  unfold bind at 1, modify at 1.
  unfold bind at 1. rewrite on_player_run.
  assert (Hres : forall p, result_of (AudioPlayer.stop_stream p)
                           = Ret (AudioPlayer.has_stream p)).
  { intros p. unfold AudioPlayer.stop_stream, AudioPlayer.has_stream.
    destruct (AudioPlayer.stream p); reflexivity. }
  rewrite Hres.
  cbn [player with_selected_index with_playing_index].
  unfold bind at 1. unfold eval at 1.
  cbn [files playing_index playlist with_playing_index with_selected_index
       with_player]. rewrite Hg.
  unfold bind at 1. unfold eval at 1.
  cbn [files playing_index playlist with_playing_index with_selected_index
       with_player]. rewrite Hfile.
  unfold bind at 1. rewrite on_player_run. cbv zeta.
  cbn [player with_player].
  destruct (AudioPlayer.load_file env _ _) as [[u | e] p1];
    unfold result_of, state_of; cbn [fst snd]; [ | reflexivity].
  unfold bind. rewrite on_player_run. cbn [player with_player].
  unfold AudioPlayer.start_stream.
  destruct (AudioPlayer.stream p1); reflexivity.
Qed.

(** The volume actions touch the mixer and the displayed volume only. *)
Lemma volume_actions_frame (a : t) :
  (exists m v, state_of (increase_volume_action a)
               = with_volume v (with_mixer m a)) /\
  (exists m v, state_of (decrease_volume_action a)
               = with_volume v (with_mixer m a)).
Proof.
  assert (Hid : a = with_volume (volume a) (with_mixer (mixer a) a))
    by (destruct a; reflexivity).
  assert (Hset : forall v b,
    state_of (set_volume v b) = b \/
    exists m, set_volume v b = (Ret tt, with_mixer m b)).
  { intros v b. unfold set_volume.
    destruct (negb ((0 <=? v) && (v <=? 100))); [left; reflexivity | ].
    destruct (amixer_installed (mixer b)); [ | left; reflexivity].
    destruct (level (mixer b)); [ | left; reflexivity].
    right. eexists. reflexivity. }
  assert (Hstep : forall v,
    exists m w,
      state_of
        (except_ValueError_pass
           (set_volume v ;;; w <- get_volume ;; modify (with_volume (Some w)))
           a)
      = with_volume w (with_mixer m a)).
  { intros v. unfold except_ValueError_pass, bind.
    destruct (Hset v a) as [Hs | [m Hs]].
    - destruct (set_volume v a) as [[u | e] b] eqn:Hrun;
        unfold state_of in Hs; cbn [snd] in Hs; subst b.
      + unfold get_volume, eval, modify.
        destruct (amixer_installed (mixer a));
          [destruct (level (mixer a)) | ]; cbn.
        * exists (mixer a). eexists. destruct a; reflexivity.
        * exists (mixer a), (volume a). exact Hid.
        * exists (mixer a), (volume a). exact Hid.
      + exists (mixer a), (volume a). destruct e; exact Hid.
    - rewrite Hs. unfold get_volume, eval, modify.
      cbn [mixer with_mixer].
      destruct (amixer_installed m); [destruct (level m) | ]; cbn.
      + exists m. eexists. reflexivity.
      + exists m, (volume a). destruct a; reflexivity.
      + exists m, (volume a). destruct a; reflexivity. }
  split.
  - unfold increase_volume_action.
    unfold except_ValueError_pass. unfold bind at 1.
    destruct (get_volume a) as [[cur | e] b] eqn:Hget.
    + assert (b = a) by (unfold get_volume, eval in Hget; congruence). subst b.
      destruct (cur mod VOLUME_STEP =? 0); apply Hstep.
    + assert (b = a) by (unfold get_volume, eval in Hget; congruence). subst b.
      exists (mixer a), (volume a). destruct e; exact Hid.
  - unfold decrease_volume_action.
    unfold except_ValueError_pass. unfold bind at 1.
    destruct (get_volume a) as [[cur | e] b] eqn:Hget.
    + assert (b = a) by (unfold get_volume, eval in Hget; congruence). subst b.
      destruct (cur mod VOLUME_STEP =? 0); apply Hstep.
    + assert (b = a) by (unfold get_volume, eval in Hget; congruence). subst b.
      exists (mixer a), (volume a). destruct e; exact Hid.
Qed.

End Actions.


Lemma files_empty_or_not (a : RadioApp.t) :
  {RadioApp.files a = []} + {RadioApp.files a <> []}.
Proof. destruct (RadioApp.files a); [left; reflexivity | right; discriminate]. Qed.

Lemma init_well_formed (fs : list string) (mx : RadioApp.Mixer) :
  well_formed (RadioApp.init fs mx).
Proof.
  split; [reflexivity | ]. cbn. intros Hne.
  destruct fs as [ | f fs]; [congruence | ]. unfold len. cbn [List.length]. lia.
Qed.

Lemma run_event_well_formed (env : Env) (ev : Event) (a : RadioApp.t) :
  well_formed a -> well_formed (run_event env ev a).
Proof.
  intros Hwf. destruct ev; cbn [run_event].
  - apply play_action_well_formed. exact Hwf.
  - unfold RadioApp.pause_action. rewrite on_player_run.
    apply well_formed_with_player. exact Hwf.
  - rewrite stop_action_run. apply well_formed_with_player. exact Hwf.
  - destruct (files_empty_or_not a) as [He | Hne].
    + unfold RadioApp.prev_action, bind, gets. rewrite He. exact Hwf.
    + destruct (prev_action_run env a Hwf Hne) as (s & Hg & Hs & Hrun).
      rewrite Hrun. cbv zeta.
      assert (Hk : 0 <= (RadioApp.playing_index a - 1) mod len (RadioApp.files a)
                   < len (RadioApp.files a))
        by (apply Z.mod_pos_bound; apply files_nonempty_len; exact Hne).
      pose proof (well_formed_moved a _ s Hwf Hk Hs) as Hwf1.
      destruct (AudioPlayer.is_active _); [ | exact Hwf1].
      pose proof (play_action_well_formed env _
                    (well_formed_with_player
                       (state_of (AudioPlayer.stop_stream (RadioApp.player a)))
                       _ Hwf1)) as Hwf2.
      destruct (RadioApp.play_action env _) as [[r | e] b]; exact Hwf2.
  - destruct (files_empty_or_not a) as [He | Hne].
    + unfold RadioApp.skip_action, bind, gets. rewrite He. exact Hwf.
    + destruct (skip_action_run env a Hwf Hne) as (s & Hg & Hs & Hrun).
      rewrite Hrun. cbv zeta.
      assert (Hk : 0 <= (RadioApp.playing_index a + 1) mod len (RadioApp.files a)
                   < len (RadioApp.files a))
        by (apply Z.mod_pos_bound; apply files_nonempty_len; exact Hne).
      pose proof (well_formed_moved a _ s Hwf Hk Hs) as Hwf1.
      destruct (AudioPlayer.is_active _); [ | exact Hwf1].
      pose proof (play_action_well_formed env _
                    (well_formed_with_player
                       (state_of (AudioPlayer.stop_stream (RadioApp.player a)))
                       _ Hwf1)) as Hwf2.
      destruct (RadioApp.play_action env _) as [[r | e] b]; exact Hwf2.
  - rewrite random_action_run. cbv zeta.
    cbn [RadioApp.playlist RadioApp.selected_index RadioApp.with_playlist
         RadioApp.with_is_random].
    destruct Hwf as [Hp Hr].
    assert (Hp' : Permutation (shuffle draws (RadioApp.playlist a))
                    (range (List.length (RadioApp.files a))))
      by (etransitivity; [apply shuffle_Permutation | exact Hp]).
    destruct (index _ _) as [k | e] eqn:Hk.
    + split; [exact Hp' | ]. intros Hne. cbn in *.
      destruct (Hr Hne) as [_ Hs]. split; [ | exact Hs].
      apply index_getitem in Hk. destruct Hk as [Hk _].
      unfold len in *. apply Permutation_length in Hp'.
      rewrite Hp', range_length in Hk. exact Hk.
    + split; [exact Hp' | exact Hr].
  - destruct Hwf as [Hp Hr]. split; [reflexivity | ].
    intros Hne. cbn in *. destruct (Hr Hne) as [_ Hs]. split; exact Hs.
  - destruct (volume_actions_frame a) as [_ (m & v & ->)].
    revert Hwf. apply well_formed_same_lists; reflexivity.
  - destruct (volume_actions_frame a) as [(m & v & ->) _].
    revert Hwf. apply well_formed_same_lists; reflexivity.
  - destruct Hwf as [Hp Hr]. split; [exact Hp | ].
    intros Hne. cbn in *. destruct (Hr Hne) as [Hpl Hs]. split; [exact Hpl | lia].
  - destruct Hwf as [Hp Hr]. split; [exact Hp | ].
    intros Hne. cbn in *. destruct (Hr Hne) as [Hpl Hs]. split; [exact Hpl | lia].
  - rewrite on_player_run. apply well_formed_with_player. exact Hwf.
  - unfold RadioApp.call_next.
    destruct (AudioPlayer.is_continuing (RadioApp.player a)) eqn:Hc;
      [ | exact Hwf].
    destruct (files_empty_or_not a) as [He | Hne].
    + rewrite He. exact Hwf.
    + destruct (call_next_run env a Hwf Hne Hc)
        as (s & file & Hg & Hs & Hfile & _ & Hrun).
      unfold RadioApp.call_next in Hrun. rewrite Hc in Hrun.
      rewrite Hrun. cbv zeta.
      assert (Hk : 0 <= (RadioApp.playing_index a + 1) mod len (RadioApp.files a)
                   < len (RadioApp.files a))
        by (apply Z.mod_pos_bound; apply files_nonempty_len; exact Hne).
      pose proof (well_formed_moved a _ s Hwf Hk Hs) as Hwf1.
      destruct (AudioPlayer.load_file env _ _) as [[u | e] p1];
        repeat apply well_formed_with_player; exact Hwf1.
Qed.

Lemma run_events_well_formed (env : Env) (evs : list Event) (a : RadioApp.t) :
  well_formed a -> well_formed (run_events env evs a).
Proof.
  unfold run_events. revert a.
  induction evs as [ | ev evs IH]; intros a Hwf; cbn [fold_left].
  - exact Hwf.
  - apply IH. apply run_event_well_formed. exact Hwf.
Qed.

(** X6: whatever events follow, in any order, a well-formed state stays
    well-formed: the play order stays a rearrangement of [0 .. N-1] and,
    when there are tracks, the playing slot and the selected track stay
    within [0 .. N-1].  The state at start-up is well-formed. *)
Theorem well_formed_preserved (env : Env) (evs : list Event) (a : RadioApp.t) :
  well_formed a ->
  well_formed (run_events env evs a) /\
  forall fs mx, well_formed (run_events env evs (RadioApp.init fs mx)).
Proof.
  intros Hwf. split; [apply run_events_well_formed; exact Hwf | ].
  intros fs mx. apply run_events_well_formed. apply init_well_formed.
Qed.


(** ** Playing, skipping and the end of a track *)

Section Playing.

Import RadioApp.

Variable env : Env.

Lemma load_file_result (f : string) (p : AudioPlayer.t) :
  match AudioPlayer.load_file env f p with
  | (Ret _, p1) =>
      exists n, wave_open env f = Ret n /\ pa_open env f = Ret tt /\
                AudioPlayer.has_stream p1 = true /\
                AudioPlayer.total_frames p1 = n /\
                AudioPlayer.played_frames p1 = 0 /\
                AudioPlayer.is_continuing p1 = AudioPlayer.is_continuing p
  | (Raise e, p1) =>
      (wave_open env f = Raise e \/ pa_open env f = Raise e) /\
      AudioPlayer.has_stream p1 = AudioPlayer.has_stream p /\
      AudioPlayer.is_continuing p1 = AudioPlayer.is_continuing p
  end.
Proof.
  unfold AudioPlayer.load_file.
  destruct (wave_open env f) as [n | e].
  - destruct (pa_open env f) as [[] | e].
    + exists n. repeat split.
    + repeat split. right. reflexivity.
  - repeat split. left. reflexivity.
Qed.

Lemma start_stream_streaming (p : AudioPlayer.t) :
  AudioPlayer.has_stream p = true ->
  streaming (state_of (AudioPlayer.start_stream p)) /\
  AudioPlayer.total_frames (state_of (AudioPlayer.start_stream p))
  = AudioPlayer.total_frames p /\
  AudioPlayer.played_frames (state_of (AudioPlayer.start_stream p))
  = AudioPlayer.played_frames p /\
  AudioPlayer.wave_read (state_of (AudioPlayer.start_stream p))
  = AudioPlayer.wave_read p.
Proof.
  unfold AudioPlayer.has_stream, AudioPlayer.start_stream, streaming,
         AudioPlayer.is_active.
  destruct (AudioPlayer.stream p); [ | discriminate]. intros _.
  repeat split.
Qed.

(** What [play_action] leaves behind in a well-formed state with tracks. *)
Lemma play_action_outcome (a : t) :
  well_formed a -> files a <> [] ->
  let r := play_action env a in
  let b := state_of r in
  files b = files a /\ playlist b = playlist a /\
  selected_index b = selected_index a /\
  getitem (playlist b) (playing_index b) = Ret (selected_index a) /\
  ((result_of r = Ret true /\ streaming (player b)) \/
   (exists e file,
      result_of r = Raise e /\
      getitem (files a) (selected_index a) = Ret file /\
      (wave_open env (path_join directory file) = Raise e \/
       pa_open env (path_join directory file) = Raise e) /\
      AudioPlayer.has_stream (player b) = false)).
Proof.
  intros Hwf Hne r b. subst r b.
  destruct (play_action_run env a Hwf Hne)
    as (cur & k & file & Hcur & Hk & Hkr & Hslot & Hfile & Hin & Hrun).
  rewrite Hrun. cbv zeta. clear Hrun.
  set (a1 := if selected_index a =? cur then a
             else with_player (state_of (AudioPlayer.stop_stream (player a)))
                    (with_playing_index k a)).
  assert (Ha1 : files a1 = files a /\ playlist a1 = playlist a /\
                selected_index a1 = selected_index a /\
                getitem (playlist a1) (playing_index a1)
                = Ret (selected_index a)).
  { subst a1. destruct (selected_index a =? cur) eqn:E.
    - apply Z.eqb_eq in E.
      repeat (split; [reflexivity | ]). rewrite Hcur, E. reflexivity.
    - cbn. auto. }
  destruct Ha1 as (Hf1 & Hp1 & Hs1 & Hg1).
  destruct (AudioPlayer.has_stream (player a1)) eqn:Hs.
  - unfold state_of, result_of. cbn [fst snd files playlist selected_index
      playing_index player with_player].
    repeat (split; [assumption | ]). left. split; [reflexivity | ].
    apply start_stream_streaming. exact Hs.
  - pose proof (load_file_result (path_join directory file) (player a1)) as Hl.
    destruct (AudioPlayer.load_file env _ _) as [[u | e] p1];
      unfold state_of, result_of; cbn [fst snd files playlist selected_index
        playing_index player with_player];
      repeat (split; [assumption | ]).
    + left. split; [reflexivity | ].
      destruct Hl as (n & _ & _ & Hhs & _).
      apply start_stream_streaming. exact Hhs.
    + right. exists e, file. destruct Hl as (Hwhy & Hhs & _).
      repeat split; try assumption. rewrite Hhs. exact Hs.
Qed.

(** X7: in a well-formed state with tracks, [play_action] either returns
    true with the engine streaming, or raises what opening the selected
    track's file raised and leaves no stream loaded; in both cases the
    playing slot then holds the selected track, and the selection, the
    track list and the play order are as before. *)
Theorem play_action_plays_selected (a : t) :
  well_formed a -> files a <> [] ->
  let r := play_action env a in
  let b := state_of r in
  files b = files a /\ playlist b = playlist a /\
  selected_index b = selected_index a /\
  getitem (playlist b) (playing_index b) = Ret (selected_index a) /\
  ((result_of r = Ret true /\ streaming (player b)) \/
   (exists e file,
      result_of r = Raise e /\
      getitem (files a) (selected_index a) = Ret file /\
      (wave_open env (path_join directory file) = Raise e \/
       pa_open env (path_join directory file) = Raise e) /\
      AudioPlayer.has_stream (player b) = false)).
Proof. exact (play_action_outcome a). Qed.

(** X8: pausing and then playing again, with the playing track still
    selected, resumes the stream where it was: both calls return true, no
    file is opened, and the counters and the reader are those from before
    the pause. *)
Theorem pause_then_play_resumes (a : t) :
  well_formed a -> files a <> [] ->
  AudioPlayer.has_stream (player a) = true ->
  getitem (playlist a) (playing_index a) = Ret (selected_index a) ->
  let paused := state_of (pause_action a) in
  let b := state_of (play_action env paused) in
  result_of (pause_action a) = Ret true /\
  AudioPlayer.is_active (player paused) = false /\
  AudioPlayer.is_continuing (player paused) = false /\
  result_of (play_action env paused) = Ret true /\
  streaming (player b) /\
  AudioPlayer.played_frames (player b) = AudioPlayer.played_frames (player a) /\
  AudioPlayer.total_frames (player b) = AudioPlayer.total_frames (player a) /\
  AudioPlayer.wave_read (player b) = AudioPlayer.wave_read (player a) /\
  with_player (player a) b = a.
Proof.
  intros Hwf Hne Hs Hcur paused b.
  assert (Hp : pause_action a
               = (Ret true,
                  with_player (state_of (AudioPlayer.pause_stream (player a))) a)).
  { unfold pause_action. rewrite on_player_run. f_equal.
    unfold AudioPlayer.pause_stream. unfold AudioPlayer.has_stream in Hs.
    destruct (AudioPlayer.stream (player a)); [reflexivity | discriminate]. }
  subst b paused. rewrite Hp.
  change (state_of (Ret true,
            with_player (state_of (AudioPlayer.pause_stream (player a))) a))
    with (with_player (state_of (AudioPlayer.pause_stream (player a))) a).
  set (pp := state_of (AudioPlayer.pause_stream (player a))).
  cbn [player with_player].
  assert (Hpp : AudioPlayer.has_stream pp = true /\
                AudioPlayer.is_active pp = false /\
                AudioPlayer.is_continuing pp = false /\
                AudioPlayer.played_frames pp = AudioPlayer.played_frames (player a) /\
                AudioPlayer.total_frames pp = AudioPlayer.total_frames (player a) /\
                AudioPlayer.wave_read pp = AudioPlayer.wave_read (player a)).
  { subst pp. unfold AudioPlayer.pause_stream, AudioPlayer.has_stream,
      AudioPlayer.is_active in *.
    destruct (AudioPlayer.stream (player a)); [ | discriminate].
    repeat split. }
  destruct Hpp as (H1 & H2 & H3 & H4 & H5 & H6).
  assert (Hwf' : well_formed (with_player pp a))
    by (apply well_formed_with_player; exact Hwf).
  destruct (play_action_run env (with_player pp a) Hwf' Hne)
    as (cur & k & file & Hc & _ & _ & _ & _ & _ & Hrun).
  cbn [playlist playing_index with_player selected_index] in Hc.
  rewrite Hcur in Hc. inversion Hc; subst cur.
  rewrite Hrun. cbv zeta.
  cbn [selected_index with_player]. rewrite Z.eqb_refl.
  cbn [player with_player]. rewrite H1.
  unfold state_of, result_of. cbn [fst snd player with_player].
  destruct (start_stream_streaming pp H1) as (Hst & Ht & Hpl & Hw).
  unfold state_of in *.
  repeat split; try assumption; try reflexivity; try congruence.
  - apply Hst.
  - apply Hst.
  - destruct a; reflexivity.
Qed.

End Playing.


Lemma state_of_pair {S A : Type} (r : outcome A) (s : S) :
  state_of (r, s) = s.
Proof. reflexivity. Qed.

Lemma result_of_pair {S A : Type} (r : outcome A) (s : S) :
  result_of (r, s) = r.
Proof. reflexivity. Qed.

Section Stepping.

Import RadioApp.

Variable env : Env.

Lemma step_action_run (forward : bool) (a : t) :
  well_formed a -> files a <> [] ->
  exists s,
    getitem (playlist a) (step_slot forward a) = Ret s /\
    0 <= s < len (files a) /\
    0 <= step_slot forward a < len (files a) /\
    step_action env forward a
    = let a1 := with_selected_index s
                  (with_playing_index (step_slot forward a) a) in
      if AudioPlayer.is_active (player a) then
        match play_action env
                (with_player (state_of (AudioPlayer.stop_stream (player a))) a1)
        with
        | (Ret _, b) => (Ret tt, b)
        | (Raise e, b) => (Raise e, b)
        end
      else (Ret tt, a1).
Proof.
  intros Hwf Hne.
  assert (Hk : 0 <= step_slot forward a < len (files a))
    by (apply Z.mod_pos_bound; apply files_nonempty_len; exact Hne).
  unfold step_action, step_slot in *. destruct forward.
  - destruct (skip_action_run env a Hwf Hne) as (s & Hg & Hs & Hrun).
    exists s. auto.
  - destruct (prev_action_run env a Hwf Hne) as (s & Hg & Hs & Hrun).
    exists s. auto.
Qed.

(** X9: in a well-formed state with tracks, [skip_action] and
    [prev_action] move the playing slot one forward or back modulo N and
    select the track in it.  With no active stream they return and leave
    the engine untouched; with an active stream they stop it and play the
    new track from its first frame, or raise what opening its file raised
    and leave no stream loaded. *)
Theorem step_action_moves (forward : bool) (a : t) :
  well_formed a -> files a <> [] ->
  let r := step_action env forward a in
  let b := state_of r in
  playing_index b = step_slot forward a /\
  getitem (playlist b) (playing_index b) = Ret (selected_index b) /\
  files b = files a /\ playlist b = playlist a /\
  (AudioPlayer.is_active (player a) = false ->
   result_of r = Ret tt /\ player b = player a) /\
  (AudioPlayer.is_active (player a) = true ->
   (result_of r = Ret tt /\ streaming (player b) /\
    AudioPlayer.played_frames (player b) = 0) \/
   (exists e, result_of r = Raise e /\
              AudioPlayer.has_stream (player b) = false)).
Proof.
  intros Hwf Hne r b. subst r b.
  destruct (step_action_run forward a Hwf Hne) as (s & Hg & Hs & Hk & Hrun).
  rewrite Hrun. cbv zeta. clear Hrun.
  set (a1 := with_selected_index s (with_playing_index (step_slot forward a) a)).
  assert (Hwf1 : well_formed a1) by (apply well_formed_moved; assumption).
  destruct (AudioPlayer.is_active (player a)) eqn:Hact.
  - set (a2 := with_player (state_of (AudioPlayer.stop_stream (player a))) a1).
    assert (Hwf2 : well_formed a2)
      by (apply well_formed_with_player; exact Hwf1).
    assert (Hne2 : files a2 <> []) by exact Hne.
    destruct (play_action_run env a2 Hwf2 Hne2)
      as (cur & k & file & Hcur & _ & _ & _ & Hfile & _ & Hrun).
    unfold a2, a1 in Hcur, Hfile.
    cbn [playlist playing_index selected_index files with_player
         with_selected_index with_playing_index] in Hcur, Hfile.
    rewrite Hg in Hcur. inversion Hcur; subst cur.
    rewrite Hrun. cbv zeta. clear Hrun. subst a2 a1.
    cbn [selected_index with_player with_selected_index with_playing_index].
    rewrite Z.eqb_refl.
    cbn [player with_player].
    rewrite stop_stream_no_stream.
    pose proof (load_file_result env (path_join directory file)
                  (state_of (AudioPlayer.stop_stream (player a)))) as Hl.
    destruct (AudioPlayer.load_file env _ _) as [[u | e] p1];
      rewrite !state_of_pair, !result_of_pair;
      cbn [files playlist selected_index playing_index player
           with_player with_selected_index with_playing_index];
      (split; [reflexivity | ]); (split; [exact Hg | ]);
      (split; [reflexivity | ]); (split; [reflexivity | ]);
      (split; [discriminate | ]); intros _.
    + left. destruct Hl as (n & _ & _ & Hhs & _ & Hpl & _).
      destruct (start_stream_streaming p1 Hhs) as (Hst & _ & Hp & _).
      split; [reflexivity | split; [exact Hst | ]]. rewrite Hp. exact Hpl.
    + right. exists e. split; [reflexivity | ].
      destruct Hl as (_ & Hhs & _). rewrite Hhs.
      apply stop_stream_no_stream.
  - unfold state_of, result_of. cbn [fst snd]. subst a1.
    cbn [files playlist selected_index playing_index player
         with_selected_index with_playing_index].
    repeat (split; [first [reflexivity | exact Hg] | ]).
    split; [intros _; split; reflexivity | discriminate].
Qed.

(** X10: the completion handler, in a well-formed state with tracks whose
    engine has a stream and is continuing, moves the playing slot one forward modulo N,
    selects the track in it and stops the old stream; it then returns with
    the new track streaming from its first frame and its frame total
    read from the file, or raises what opening the file raised and leaves
    the engine with no stream and not continuing. *)
Theorem call_next_advances (a : t) :
  well_formed a -> files a <> [] ->
  AudioPlayer.has_stream (player a) = true ->
  AudioPlayer.is_continuing (player a) = true ->
  let r := call_next env a in
  let b := state_of r in
  playing_index b = (playing_index a + 1) mod len (files a) /\
  getitem (playlist b) (playing_index b) = Ret (selected_index b) /\
  files b = files a /\ playlist b = playlist a /\
  exists file,
    getitem (files b) (selected_index b) = Ret file /\
    ((result_of r = Ret tt /\ streaming (player b) /\
      AudioPlayer.played_frames (player b) = 0 /\
      wave_open env (path_join directory file)
      = Ret (AudioPlayer.total_frames (player b))) \/
     (exists e, result_of r = Raise e /\
                (wave_open env (path_join directory file) = Raise e \/
                 pa_open env (path_join directory file) = Raise e) /\
                AudioPlayer.has_stream (player b) = false /\
                AudioPlayer.is_continuing (player b) = false)).
Proof.
  intros Hwf Hne Hhas Hc r b. subst r b.
  destruct (call_next_run env a Hwf Hne Hc)
    as (s & file & Hg & Hs & Hfile & _ & Hrun).
  rewrite Hrun. cbv zeta. clear Hrun.
  cbn [player with_player].
  assert (Hstop : AudioPlayer.has_stream
                    (state_of (AudioPlayer.stop_stream (player a))) = false /\
                  AudioPlayer.is_continuing
                    (state_of (AudioPlayer.stop_stream (player a))) = false).
  { split; [apply stop_stream_no_stream | ].
    apply stop_stream_counters. exact Hhas. }
  destruct Hstop as [Hns Hnc].
  pose proof (load_file_result env (path_join directory file)
                (state_of (AudioPlayer.stop_stream (player a)))) as Hl.
  destruct (AudioPlayer.load_file env _ _) as [[u | e] p1];
    rewrite !state_of_pair, !result_of_pair;
    cbn [files playlist selected_index playing_index player
         with_player with_selected_index with_playing_index];
    (split; [reflexivity | ]); (split; [exact Hg | ]);
    (split; [reflexivity | ]); (split; [reflexivity | ]);
    exists file; (split; [exact Hfile | ]).
  - left. destruct Hl as (n & Hw & _ & Hhs & Ht & Hpl & _).
    destruct (start_stream_streaming p1 Hhs) as (Hst & Htt & Hp & _).
    split; [reflexivity | split; [exact Hst | split]].
    + rewrite Hp. exact Hpl.
    + rewrite Htt, Ht. exact Hw.
  - right. exists e. destruct Hl as (Hwhy & Hhs & Hcc).
    split; [reflexivity | split; [exact Hwhy | split]].
    + rewrite Hhs. exact Hns.
    + rewrite Hcc. exact Hnc.
Qed.

End Stepping.


(** ** Readable files *)

Lemma getitem_In {A : Type} (l : list A) (i : Z) (x : A) :
  getitem l i = Ret x -> In x l.
Proof.
  unfold getitem. cbv zeta.
  destruct ((if i <? 0 then i + len l else i) <? 0); [discriminate | ].
  destruct (nth_error l _) as [y | ] eqn:Hn; [ | discriminate].
  intros H. inversion H; subst. eapply nth_error_In. exact Hn.
Qed.

Section Readable.

Import RadioApp.

Variable env : Env.

Lemma load_file_readable (a : t) (file : string) (p : AudioPlayer.t) :
  readable env a -> In file (files a) ->
  exists u p1,
    AudioPlayer.load_file env (path_join directory file) p = (Ret u, p1).
Proof.
  intros Hr Hin. destruct (Hr file Hin) as [[n Hw] Hp].
  unfold AudioPlayer.load_file. rewrite Hw, Hp. eexists. eexists. reflexivity.
Qed.

Lemma play_action_returns (a : t) :
  well_formed a -> files a <> [] -> readable env a ->
  result_of (play_action env a) = Ret true.
Proof.
  intros Hwf Hne Hr.
  destruct (play_action_outcome env a Hwf Hne)
    as (_ & _ & _ & _ & [[Hres _] | (e & file & Hres & Hfile & Hwhy & _)]).
  - exact Hres.
  - exfalso. apply getitem_In in Hfile.
    destruct (Hr file Hfile) as [[n Hw] Hp].
    destruct Hwhy as [H | H]; congruence.
Qed.

(** X11: in a well-formed state with tracks all of whose files can be
    opened and played, none of the playback actions raises: [play_action]
    and [random_action] return true, [skip_action], [prev_action] and the
    completion handler return. *)
Theorem readable_actions_return (a : t) :
  well_formed a -> files a <> [] -> readable env a ->
  result_of (play_action env a) = Ret true /\
  (forall forward, result_of (step_action env forward a) = Ret tt) /\
  (forall draws, result_of (random_action draws a) = Ret true) /\
  result_of (call_next env a) = Ret tt.
Proof.
  intros Hwf Hne Hr.
  split; [apply play_action_returns; assumption | split; [ | split]].
  - intros forward.
    destruct (step_action_run env forward a Hwf Hne) as (s & Hg & Hs & Hk & Hrun).
    rewrite Hrun. cbv zeta.
    destruct (AudioPlayer.is_active (player a)); [ | reflexivity].
    assert (Hret : result_of
                     (play_action env
                        (with_player
                           (state_of (AudioPlayer.stop_stream (player a)))
                           (with_selected_index s
                              (with_playing_index (step_slot forward a) a))))
                   = Ret true).
    { apply play_action_returns.
      - apply well_formed_with_player. apply well_formed_moved; assumption.
      - exact Hne.
      - exact Hr. }
    destruct (play_action env _) as [[r | e] b]; [reflexivity | discriminate].
  - intros draws. apply random_action_returns.
    destruct Hwf as [Hp Hrange]. destruct (Hrange Hne) as [_ Hs].
    apply (Permutation_in _ (Permutation_sym Hp)). apply In_range. exact Hs.
  - destruct (AudioPlayer.is_continuing (player a)) eqn:Hc.
    + destruct (call_next_run env a Hwf Hne Hc)
        as (s & file & _ & _ & _ & Hin & Hrun).
      rewrite Hrun. cbv zeta.
      destruct (load_file_readable a file
                  (player
                     (with_player
                        (state_of (AudioPlayer.stop_stream (player a)))
                        (with_selected_index s
                           (with_playing_index
                              ((playing_index a + 1) mod len (files a)) a))))
                  Hr Hin) as (u & p1 & ->).
      reflexivity.
    + unfold call_next. rewrite Hc. reflexivity.
Qed.

(** X12: a completion notification that arrives after the stream has been
    stopped or paused changes nothing, for an engine that continues only
    while it has a stream. *)
Theorem stale_notification_ignored (a : t) :
  engine_consistent (player a) ->
  call_next env (state_of (stop_action a)) = (Ret tt, state_of (stop_action a)) /\
  call_next env (state_of (pause_action a))
  = (Ret tt, state_of (pause_action a)).
Proof.
  intros [Hcons _].
  assert (Hoff : forall b : t,
            AudioPlayer.is_continuing (player b) = false ->
            call_next env b = (Ret tt, b)).
  { intros b Hb. unfold call_next. rewrite Hb. reflexivity. }
  split; apply Hoff.
  - rewrite stop_action_run, state_of_pair. cbn [player with_player].
    unfold AudioPlayer.stop_stream, AudioPlayer.has_stream in *.
    destruct (AudioPlayer.stream (player a)); cbn; [reflexivity | ].
    destruct (AudioPlayer.is_continuing (player a)); [ | reflexivity].
    specialize (Hcons eq_refl). discriminate.
  - unfold pause_action. rewrite on_player_run, state_of_pair.
    cbn [player with_player].
    unfold AudioPlayer.pause_stream, AudioPlayer.has_stream in *.
    destruct (AudioPlayer.stream (player a)); cbn; [reflexivity | ].
    destruct (AudioPlayer.is_continuing (player a)); [ | reflexivity].
    specialize (Hcons eq_refl). discriminate.
Qed.

End Readable.

(** ** Consistency of the engine *)

Section Consistency.

Import AudioPlayer.

Variable env : Env.

Lemma init_consistent : engine_consistent init.
Proof. split; cbn; discriminate. Qed.

Lemma run_op_consistent (op : EngineOp) (p : t) :
  op_ok env op -> engine_consistent p -> engine_consistent (run_op env op p).
Proof.
  intros Hok [Hc Hs]. unfold engine_consistent, has_stream in *.
  destruct op as [f | | | | n]; cbn [run_op op_ok] in *.
  - unfold load_file. destruct (wave_open env f) as [m | e] eqn:Hw;
      [ | rewrite state_of_pair; split; assumption].
    specialize (Hok m eq_refl).
    destruct (pa_open env f); rewrite state_of_pair; cbn.
    + split; [reflexivity | ]. intros _. eexists. split; [reflexivity | ].
      cbn. repeat split; try lia.
    + split; [exact Hc | ]. intros _. eexists. split; [reflexivity | ].
      cbn. repeat split; try lia.
  - unfold start_stream. destruct (stream p) eqn:E; rewrite state_of_pair; cbn.
    + split; [reflexivity | ]. intros _. apply Hs. reflexivity.
    + rewrite E. split; assumption.
  - unfold pause_stream. destruct (stream p) eqn:E; rewrite state_of_pair; cbn.
    + split; [discriminate | ]. intros _. apply Hs. reflexivity.
    + rewrite E. split; assumption.
  - unfold stop_stream. destruct (stream p) eqn:E; rewrite state_of_pair; cbn.
    + split; discriminate.
    + rewrite E. split; assumption.
  - unfold stream_callback. destruct (wave_read p) as [w | ] eqn:Hw;
      [ | rewrite state_of_pair, Hw; split; assumption].
    unfold readframes.
    assert (Hkeep : forall (q : t) (st : option Stream),
      is_continuing q = is_continuing p ->
      stream q = st ->
      (match st with Some _ => true | None => false end
       = match stream p with Some _ => true | None => false end) ->
      wave_read q
      = Some {| nframes := nframes w;
                position := position w
                            + Z.max 0 (Z.min n (nframes w - position w)) |} ->
      total_frames q = total_frames p ->
      played_frames q = played_frames p + n ->
      (is_continuing q = true ->
       match stream q with Some _ => true | None => false end = true) /\
      (match stream q with Some _ => true | None => false end = true ->
       exists w0, wave_read q = Some w0 /\ nframes w0 = total_frames q /\
                  0 <= position w0 <= nframes w0 /\
                  position w0 <= played_frames q /\
                  (played_frames q < total_frames q ->
                   position w0 = played_frames q))).
    { intros q st Hqc Hqs Hsame Hqw Hqt Hqp. rewrite Hqs, Hsame, Hqc.
      split; [exact Hc | ]. intros Hstream.
      destruct (Hs Hstream) as (w0 & Hw0 & Hn & Hpos & Hle & Heq).
      inversion Hw0; subst w0.
      eexists. split; [exact Hqw | ]. cbn. rewrite Hqt, Hqp.
      repeat split; try lia. }
    destruct (total_frames p <=? played_frames p + n);
      rewrite state_of_pair;
      eapply Hkeep; cbn; try reflexivity.
    destruct (stream p); reflexivity.
Qed.

Lemma run_ops_consistent (ops : list EngineOp) (p : t) :
  Forall (op_ok env) ops -> engine_consistent p ->
  engine_consistent (run_ops env ops p).
Proof.
  unfold run_ops. revert p.
  induction ops as [ | op ops IH]; intros p Hall Hp; cbn [fold_left].
  - exact Hp.
  - inversion Hall; subst. apply IH; [assumption | ].
    apply run_op_consistent; assumption.
Qed.

(** X13: the engine's operations keep its fields consistent: it continues
    only with a stream, and with a stream the reader is open on a file of
    [total_frames] frames, has delivered no more frames than
    [played_frames] counts, and exactly as many while the count is below
    the total.  So the pull callback of an engine with a stream never
    fails, and hands back between 0 and [frame_count] frames. *)
Theorem engine_consistent_preserved (ops : list EngineOp) (p : t) :
  Forall (op_ok env) ops -> engine_consistent p ->
  let q := run_ops env ops p in
  engine_consistent q /\
  (has_stream q = true ->
   forall n, 0 <= n ->
     exists r, result_of (stream_callback n q) = Ret r /\
               0 <= data_frames r <= n).
Proof.
  intros Hall Hp q.
  assert (Hq : engine_consistent q) by (apply run_ops_consistent; assumption).
  split; [exact Hq | ].
  intros Hs n Hn. destruct Hq as [_ Hq].
  destruct (Hq Hs) as (w & Hw & _ & Hpos & _).
  unfold stream_callback. rewrite Hw. unfold readframes.
  destruct (total_frames q <=? played_frames q + n);
    rewrite result_of_pair; eexists; (split; [reflexivity | ]); cbn; lia.
Qed.

End Consistency.


(** ** The engine inside the application *)

Section ThroughEngine.

Variable env : Env.
Hypothesis Henv : env_ok env.

Lemma engine_steps_refl (p : AudioPlayer.t) : engine_steps env p p.
Proof. exists []. split; [constructor | reflexivity]. Qed.

Lemma engine_steps_trans (p q r : AudioPlayer.t) :
  engine_steps env p q -> engine_steps env q r -> engine_steps env p r.
Proof.
  intros (ops1 & H1 & ->) (ops2 & H2 & ->). exists (ops1 ++ ops2).
  split; [apply Forall_app; split; assumption | ].
  unfold run_ops. rewrite fold_left_app. reflexivity.
Qed.

Lemma engine_steps_op (op : EngineOp) (p : AudioPlayer.t) :
  op_ok env op -> engine_steps env p (run_op env op p).
Proof.
  intros Hok. exists [op]. split; [repeat constructor; exact Hok | reflexivity].
Qed.

Lemma through_ret {A : Type} (x : A) : through_engine env (ret x).
Proof. intros a. apply engine_steps_refl. Qed.

Lemma through_gets {A : Type} (f : RadioApp.t -> A) :
  through_engine env (gets f).
Proof. intros a. apply engine_steps_refl. Qed.

Lemma through_eval {A : Type} (f : RadioApp.t -> outcome A) :
  through_engine env (RadioApp.eval f).
Proof. intros a. apply engine_steps_refl. Qed.

Lemma through_modify (f : RadioApp.t -> RadioApp.t) :
  (forall a, RadioApp.player (f a) = RadioApp.player a) ->
  through_engine env (modify f).
Proof.
  intros Hf a. unfold modify. rewrite state_of_pair, Hf.
  apply engine_steps_refl.
Qed.

Lemma through_bind {A B : Type} (m : M RadioApp.t A) (k : A -> M RadioApp.t B) :
  through_engine env m -> (forall x, through_engine env (k x)) ->
  through_engine env (bind m k).
Proof.
  intros Hm Hk a. unfold bind. specialize (Hm a).
  destruct (m a) as [[x | e] a']; rewrite state_of_pair in Hm.
  - eapply engine_steps_trans; [exact Hm | apply Hk].
  - rewrite state_of_pair. exact Hm.
Qed.

Lemma through_when (b : bool) (m : M RadioApp.t unit) :
  through_engine env m -> through_engine env (when b m).
Proof. intros Hm. destruct b; [exact Hm | apply through_ret]. Qed.

Lemma through_if {A : Type} (b : bool) (m1 m2 : M RadioApp.t A) :
  through_engine env m1 -> through_engine env m2 ->
  through_engine env (if b then m1 else m2).
Proof. intros H1 H2. destruct b; assumption. Qed.

Lemma through_except (m : M RadioApp.t unit) :
  through_engine env m -> through_engine env (except_ValueError_pass m).
Proof.
  intros Hm a. unfold except_ValueError_pass. specialize (Hm a).
  destruct (m a) as [[x | []] a']; exact Hm.
Qed.

Lemma through_on_player {A : Type} (m : M AudioPlayer.t A) (op : EngineOp) :
  op_ok env op ->
  (forall p, state_of (m p) = run_op env op p) ->
  through_engine env (RadioApp.on_player m).
Proof.
  intros Hok Hm a. rewrite on_player_run, state_of_pair.
  cbn [RadioApp.player RadioApp.with_player]. rewrite Hm.
  apply engine_steps_op. exact Hok.
Qed.

Lemma through_stop : through_engine env (RadioApp.on_player AudioPlayer.stop_stream).
Proof. apply (through_on_player _ OpStop); [exact I | reflexivity]. Qed.

Lemma through_start : through_engine env (RadioApp.on_player AudioPlayer.start_stream).
Proof. apply (through_on_player _ OpStart); [exact I | reflexivity]. Qed.

Lemma through_pause : through_engine env (RadioApp.on_player AudioPlayer.pause_stream).
Proof. apply (through_on_player _ OpPause); [exact I | reflexivity]. Qed.

Lemma through_load (f : string) :
  through_engine env (RadioApp.on_player (AudioPlayer.load_file env f)).
Proof.
  apply (through_on_player _ (OpLoad f)); [ | reflexivity].
  intros n Hn. exact (Henv f n Hn).
Qed.

Lemma through_pull (n : Z) :
  0 <= n ->
  through_engine env (RadioApp.on_player (AudioPlayer.stream_callback n)).
Proof.
  intros Hn. apply (through_on_player _ (OpCallback n)); [exact Hn | reflexivity].
Qed.

Lemma through_get_volume : through_engine env RadioApp.get_volume.
Proof. apply through_eval. Qed.

Lemma through_set_volume (v : Z) : through_engine env (RadioApp.set_volume v).
Proof.
  intros a. unfold RadioApp.set_volume.
  destruct (negb _); [apply engine_steps_refl | ].
  destruct (RadioApp.amixer_installed _); [ | apply engine_steps_refl].
  destruct (RadioApp.level _); apply engine_steps_refl.
Qed.

Create HintDb engine.

Hint Resolve through_ret through_gets through_eval through_bind through_when
  through_if through_except through_stop through_start through_pause
  through_load through_pull through_get_volume through_set_volume : engine.

Hint Extern 1 (through_engine _ (modify _)) =>
  apply through_modify; intros; reflexivity : engine.

Lemma through_stop_action : through_engine env RadioApp.stop_action.
Proof. unfold RadioApp.stop_action. auto with engine. Qed.

Lemma through_play_action : through_engine env (RadioApp.play_action env).
Proof. unfold RadioApp.play_action. auto 20 with engine. Qed.

Hint Resolve through_stop_action through_play_action : engine.

Lemma through_prev_action : through_engine env (RadioApp.prev_action env).
Proof. unfold RadioApp.prev_action. auto 20 with engine. Qed.

Lemma through_skip_action : through_engine env (RadioApp.skip_action env).
Proof. unfold RadioApp.skip_action. auto 20 with engine. Qed.

Lemma through_call_next : through_engine env (RadioApp.call_next env).
Proof.
  intros a. unfold RadioApp.call_next.
  destruct (_ && _)%bool; [ | apply engine_steps_refl].
  match goal with
  | |- engine_steps _ _ (RadioApp.player (state_of (?m a))) =>
      assert (H : through_engine env m) by auto 20 with engine
  end.
  apply H.
Qed.

Lemma through_volume :
  through_engine env RadioApp.increase_volume_action /\
  through_engine env RadioApp.decrease_volume_action.
Proof.
  split; [unfold RadioApp.increase_volume_action
         | unfold RadioApp.decrease_volume_action];
    auto 20 with engine.
Qed.

Lemma through_random (draws : list nat) :
  through_engine env (RadioApp.random_action draws).
Proof. unfold RadioApp.random_action. auto 20 with engine. Qed.

Lemma through_order : through_engine env RadioApp.order_action.
Proof. unfold RadioApp.order_action. auto 20 with engine. Qed.

Lemma run_event_engine (ev : Event) (a : RadioApp.t) :
  event_ok ev ->
  engine_steps env (RadioApp.player a) (RadioApp.player (run_event env ev a)).
Proof.
  intros Hok. destruct ev; cbn [run_event event_ok] in *.
  - apply through_play_action.
  - apply through_pause.
  - apply through_stop_action.
  - apply through_prev_action.
  - apply through_skip_action.
  - apply through_random.
  - apply through_order.
  - apply through_volume.
  - apply through_volume.
  - apply engine_steps_refl.
  - apply engine_steps_refl.
  - apply through_pull. exact Hok.
  - apply through_call_next.
Qed.

Lemma run_events_engine (evs : list Event) (a : RadioApp.t) :
  Forall event_ok evs ->
  engine_steps env (RadioApp.player a)
    (RadioApp.player (run_events env evs a)).
Proof.
  unfold run_events. revert a.
  induction evs as [ | ev evs IH]; intros a Hall; cbn [fold_left].
  - apply engine_steps_refl.
  - inversion Hall; subst.
    eapply engine_steps_trans; [apply (run_event_engine ev a); assumption | ].
    apply IH. assumption.
Qed.

Lemma run_ops_nonneg (ops : list EngineOp) (p : AudioPlayer.t) :
  Forall (op_ok env) ops -> frames_nonneg p ->
  frames_nonneg (run_ops env ops p).
Proof.
  unfold run_ops. revert p.
  induction ops as [ | op ops IH]; intros p Hall Hp; cbn [fold_left].
  - exact Hp.
  - inversion Hall; subst. apply IH; [assumption | ].
    apply run_op_nonneg; assumption.
Qed.

(** X14: whatever the application does to its engine it does through the
    engine's operations, so after any events the engine is consistent and
    its counters are non-negative if they were before, and they are at
    start-up.  The driver is assumed to ask for non-negative numbers of
    frames and the files to hold non-negative numbers of frames. *)
Theorem application_keeps_engine_consistent (evs : list Event) (a : RadioApp.t) :
  Forall event_ok evs ->
  engine_consistent (RadioApp.player a) -> frames_nonneg (RadioApp.player a) ->
  engine_steps env (RadioApp.player a) (RadioApp.player (run_events env evs a)) /\
  engine_consistent (RadioApp.player (run_events env evs a)) /\
  frames_nonneg (RadioApp.player (run_events env evs a)) /\
  forall fs mx,
    engine_consistent (RadioApp.player (run_events env evs (RadioApp.init fs mx))) /\
    frames_nonneg (RadioApp.player (run_events env evs (RadioApp.init fs mx))).
Proof.
  intros Hall Hc Hn.
  assert (Hgen : forall b,
            engine_consistent (RadioApp.player b) ->
            frames_nonneg (RadioApp.player b) ->
            engine_consistent (RadioApp.player (run_events env evs b)) /\
            frames_nonneg (RadioApp.player (run_events env evs b))).
  { intros b Hcb Hnb.
    destruct (run_events_engine evs b Hall) as (ops & Hops & ->).
    split; [apply run_ops_consistent | apply run_ops_nonneg]; assumption. }
  split; [apply run_events_engine; exact Hall | ].
  split; [apply Hgen; assumption | split; [apply Hgen; assumption | ]].
  intros fs mx. apply Hgen.
  - apply init_consistent.
  - unfold frames_nonneg. cbn. lia.
Qed.

End ThroughEngine.


(** ** Volume *)

Section VolumeSteps.

Import RadioApp.

(** The level an action leaves in a working mixer at level [v]. *)
Lemma volume_levels (a : t) (v : Z) :
  mixer a = mixer_at v -> 0 <= v <= 100 ->
  exists up down,
    increase_volume_action a
    = (Ret tt, with_volume (Some up) (with_mixer (mixer_at up) a)) /\
    decrease_volume_action a
    = (Ret tt, with_volume (Some down) (with_mixer (mixer_at down) a)) /\
    0 <= down <= v /\ v <= up <= 100 /\
    up mod 10 = 0 /\ down mod 10 = 0 /\
    (v < 100 -> v < up) /\ (0 < v -> down < v) /\
    (v mod 10 = 0 -> up = Z.min (v + 10) 100 /\ down = Z.max (v - 10) 0).
Proof.
  intros Hm Hv.
  rewrite (increase_volume_run a v Hm Hv), (decrease_volume_run a v Hm Hv).
  cbv zeta.
  pose proof (Z.div_mod v 10 ltac:(lia)) as Hdm.
  pose proof (Z.mod_pos_bound v 10 ltac:(lia)) as Hmb.
  assert (Hq : 0 <= v / 10 <= 10).
  { split; [apply Z.div_pos; lia | ]. apply Z.div_le_upper_bound; lia. }
  assert (Hal : (v / 10 * 10) mod 10 = 0) by (apply Z.mod_mul; lia).
  destruct (v mod 10 =? 0) eqn:E.
  - apply Z.eqb_eq in E.
    eexists. eexists. split; [reflexivity | split; [reflexivity | ]].
    assert (Hv10 : v = 10 * (v / 10)) by lia.
    assert (Hup : Z.min (v + 10) 100 = 10 * Z.min (v / 10 + 1) 10) by lia.
    assert (Hdown : Z.max (v - 10) 0 = 10 * Z.max (v / 10 - 1) 0) by lia.
    repeat split; try lia.
    + rewrite Hup, Z.mul_comm. apply Z.mod_mul. lia.
    + rewrite Hdown, Z.mul_comm. apply Z.mod_mul. lia.
  - apply Z.eqb_neq in E.
    eexists. eexists. split; [reflexivity | split; [reflexivity | ]].
    assert (Hup : Z.min (v / 10 * 10 + 20) 100 = Z.min (v / 10 + 2) 10 * 10)
      by lia.
    assert (Hdown : Z.max (v / 10 * 10 - 10) 0 = Z.max (v / 10 - 1) 0 * 10)
      by lia.
    repeat split; try lia.
    + rewrite Hup. apply Z.mod_mul. lia.
    + rewrite Hdown. apply Z.mod_mul. lia.
Qed.

(** X15: with a working mixer at a level [v] in 0..100, each volume action
    returns and leaves a level that is a multiple of 10 within 0..100; the
    increase action never lowers the level and raises it unless it is 100,
    the decrease action never raises it and lowers it unless it is 0. *)
Theorem volume_actions_align (a : t) (v : Z) :
  mixer a = mixer_at v -> 0 <= v <= 100 ->
  exists up down,
    result_of (increase_volume_action a) = Ret tt /\
    result_of (decrease_volume_action a) = Ret tt /\
    mixer (state_of (increase_volume_action a)) = mixer_at up /\
    mixer (state_of (decrease_volume_action a)) = mixer_at down /\
    0 <= down <= v /\ v <= up <= 100 /\
    up mod 10 = 0 /\ down mod 10 = 0 /\
    (v < 100 -> v < up) /\ (0 < v -> down < v).
Proof.
  intros Hm Hv.
  destruct (volume_levels a v Hm Hv)
    as (up & down & Hup & Hdown & H1 & H2 & H3 & H4 & H5 & H6 & _).
  exists up, down. rewrite Hup, Hdown.
  repeat (split; [first [reflexivity | assumption] | ]). assumption.
Qed.

(** X16: on a level that is a multiple of 10, one step up and one step
    down cancel: increase then decrease gives the level back when it is at
    most 90, decrease then increase when it is at least 10. *)
Theorem volume_steps_cancel (a : t) (v : Z) :
  mixer a = mixer_at v -> 0 <= v <= 100 -> v mod 10 = 0 ->
  (v <= 90 ->
   mixer (state_of (decrease_volume_action
                      (state_of (increase_volume_action a)))) = mixer_at v) /\
  (10 <= v ->
   mixer (state_of (increase_volume_action
                      (state_of (decrease_volume_action a)))) = mixer_at v).
Proof.
  intros Hm Hv Hal.
  destruct (volume_levels a v Hm Hv)
    as (up & down & Hup & Hdown & H1 & H2 & H3 & H4 & _ & _ & Hstep).
  destruct (Hstep Hal) as [Hu Hd].
  rewrite Hup, Hdown, !state_of_pair.
  split; intros Hb.
  - destruct (volume_levels (with_volume (Some up) (with_mixer (mixer_at up) a))
                up eq_refl ltac:(lia))
      as (up' & down' & _ & Hdown' & _ & _ & _ & _ & _ & _ & Hstep').
    destruct (Hstep' H3) as [_ Hd']. rewrite Hdown', state_of_pair. cbn.
    f_equal. lia.
  - destruct (volume_levels
                (with_volume (Some down) (with_mixer (mixer_at down) a))
                down eq_refl ltac:(lia))
      as (up' & down' & Hup' & _ & _ & _ & _ & _ & _ & _ & Hstep').
    destruct (Hstep' H4) as [Hu' _]. rewrite Hup', state_of_pair. cbn.
    f_equal. lia.
Qed.

(** X17: when [amixer] offers no supported control, both volume actions
    return without changing anything (the [ValueError] is swallowed); when
    [amixer] is not installed, both raise [FileNotFoundError], which they do
    not catch, and change nothing. *)
Theorem volume_actions_without_mixer (a : t) :
  (amixer_installed (mixer a) = true -> level (mixer a) = None ->
   increase_volume_action a = (Ret tt, a) /\
   decrease_volume_action a = (Ret tt, a)) /\
  (amixer_installed (mixer a) = false ->
   increase_volume_action a = (Raise FileNotFoundError, a) /\
   decrease_volume_action a = (Raise FileNotFoundError, a)).
Proof.
  unfold increase_volume_action, decrease_volume_action,
         except_ValueError_pass, bind, get_volume, eval.
  split.
  - intros Hi Hl. rewrite Hi, Hl. split; reflexivity.
  - intros Hi. rewrite Hi. split; reflexivity.
Qed.

End VolumeSteps.

(** ** The visible part of the track list *)

Section Scrolling.

Import RadioApp.

(** X18: after the update of [top_index] in [draw], with room for at least
    one line, the selected track lies in the window
    [top_index .. top_index + lines - 1]; when the list is longer than the
    window and the old window lay inside the list, so does the new one;
    when the list fits, [top_index] is 0.  Only [top_index] changes, and a
    second update changes nothing. *)
Theorem scroll_shows_selection (lines : Z) (a : t) :
  0 < lines -> 0 <= selected_index a < len (files a) ->
  let b := scroll lines a in
  with_top_index (top_index a) b = a /\
  top_index b <= selected_index b < top_index b + lines /\
  (lines < len (files a) ->
   0 <= top_index a -> top_index a + lines <= len (files a) ->
   window_ok lines b) /\
  (len (files a) <= lines -> top_index b = 0) /\
  scroll lines b = b.
Proof.
  intros Hl Hs b. subst b. unfold scroll, window_ok.
  destruct (lines <? len (files a)) eqn:Hlong.
  - apply Z.ltb_lt in Hlong.
    destruct (selected_index a <? top_index a) eqn:Hbefore.
    + apply Z.ltb_lt in Hbefore.
      cbn [files selected_index top_index with_top_index].
      replace (lines <? len (files a)) with true
        by (symmetry; apply Z.ltb_lt; lia).
      rewrite Z.ltb_irrefl, Z.leb_refl.
      replace (selected_index a <? selected_index a + lines) with true
        by (symmetry; apply Z.ltb_lt; lia).
      cbn [andb negb].
      split; [destruct a; reflexivity | ].
      repeat split; try lia.
    + apply Z.ltb_ge in Hbefore.
      destruct ((top_index a <=? selected_index a)
                && (selected_index a <? top_index a + lines)) eqn:Hin;
        cbn [negb].
      * apply andb_prop in Hin. destruct Hin as [Hi1 Hi2].
        apply Z.leb_le in Hi1. apply Z.ltb_lt in Hi2.
        replace (lines <? len (files a)) with true
          by (symmetry; apply Z.ltb_lt; lia).
        replace (selected_index a <? top_index a) with false
          by (symmetry; apply Z.ltb_ge; lia).
        replace (top_index a <=? selected_index a) with true
          by (symmetry; apply Z.leb_le; lia).
        replace (selected_index a <? top_index a + lines) with true
          by (symmetry; apply Z.ltb_lt; lia).
        cbn [andb negb].
        split; [destruct a; reflexivity | ].
        repeat split; try lia.
      * apply andb_false_iff in Hin.
        assert (Hafter : top_index a + lines <= selected_index a).
        { destruct Hin as [Hin | Hin];
            [apply Z.leb_gt in Hin | apply Z.ltb_ge in Hin]; lia. }
        cbn [files selected_index top_index with_top_index].
        replace (lines <? len (files a)) with true
          by (symmetry; apply Z.ltb_lt; lia).
        replace (selected_index a <? selected_index a - lines + 1) with false
          by (symmetry; apply Z.ltb_ge; lia).
        replace (selected_index a - lines + 1 <=? selected_index a) with true
          by (symmetry; apply Z.leb_le; lia).
        replace (selected_index a <? selected_index a - lines + 1 + lines)
          with true by (symmetry; apply Z.ltb_lt; lia).
        cbn [andb negb].
        split; [destruct a; reflexivity | ].
        repeat split; try lia.
  - apply Z.ltb_ge in Hlong.
    cbn [files selected_index top_index with_top_index].
    replace (lines <? len (files a)) with false
      by (symmetry; apply Z.ltb_ge; lia).
    split; [destruct a; reflexivity | ].
    repeat split; try lia.
Qed.

End Scrolling.


Section Drawing.

Import RadioApp.

(** Every line the loop paints carries the selection bar exactly when its
    index is the selected one. *)
Lemma draw_lines_highlighted (lines top selected index : Z) (fs : list string)
      (i : nat) (l : Line) :
  nth_error (draw_lines lines top selected index fs) i = Some l ->
  highlighted l = (selected =? index + Z.of_nat i + top).
Proof.
  revert index i. induction fs as [ | f fs IH]; intros index i Hn.
  - destruct i; discriminate.
  - cbn [draw_lines] in Hn. cbv zeta in Hn.
    destruct (index + top =? lines + top).
    + destruct i as [ | i]; [ | destruct i; discriminate].
      inversion Hn; subst. cbn. f_equal. lia.
    + destruct i as [ | i].
      * inversion Hn; subst. cbn. f_equal. lia.
      * cbn [nth_error] in Hn. rewrite (IH _ _ Hn). f_equal. lia.
Qed.

Lemma draw_lines_file (lines top selected index : Z) (fs : list string)
      (i : nat) (f : string) :
  index + Z.of_nat i < lines -> nth_error fs i = Some f ->
  nth_error (draw_lines lines top selected index fs) i
  = Some {| highlighted := (selected =? index + Z.of_nat i + top);
            text := FileName f |}.
Proof.
  revert index i. induction fs as [ | g fs IH]; intros index i Hi Hn.
  - destruct i; discriminate.
  - cbn [draw_lines]. cbv zeta.
    replace (index + top =? lines + top) with false
      by (symmetry; apply Z.eqb_neq; lia).
    destruct i as [ | i].
    + inversion Hn; subst. cbn. do 3 f_equal. lia.
    + cbn [nth_error] in *. rewrite (IH (index + 1) i) by (try lia; exact Hn).
      do 3 f_equal. lia.
Qed.

Lemma draw_lines_length (lines top selected index : Z) (fs : list string) :
  index <= lines ->
  Z.of_nat (List.length (draw_lines lines top selected index fs))
  = Z.min (len fs) (lines - index + 1).
Proof.
  revert index. induction fs as [ | f fs IH]; intros index Hi.
  - unfold len. cbn. lia.
  - cbn [draw_lines]. cbv zeta. unfold len in *. cbn [List.length].
    destruct (index + top =? lines + top) eqn:E.
    + apply Z.eqb_eq in E. cbn [List.length]. lia.
    + apply Z.eqb_neq in E. cbn [List.length].
      rewrite Nat2Z.inj_succ, (IH (index + 1)) by lia. lia.
Qed.

(** X19: when [top_index] is not negative and the selected track lies in
    the window, the list [draw] paints shows the selected track's file
    name with the selection bar behind it, on line
    [selected_index - top_index]; no other line has the bar; and the list
    has as many lines as tracks are left from [top_index] on, but at most
    [lines] and one more for the three dots. *)
Theorem draw_list_highlights_selection (lines : Z) (a : t) :
  0 <= top_index a <= selected_index a ->
  selected_index a < top_index a + lines ->
  selected_index a < len (files a) ->
  exists f,
    getitem (files a) (selected_index a) = Ret f /\
    nth_error (draw_list lines a)
              (Z.to_nat (selected_index a - top_index a))
    = Some {| highlighted := true; text := FileName f |} /\
    (forall i l, nth_error (draw_list lines a) i = Some l ->
                 highlighted l = true ->
                 i = Z.to_nat (selected_index a - top_index a)) /\
    Z.of_nat (List.length (draw_list lines a))
    = Z.min (len (files a) - top_index a) (lines + 1).
Proof.
  intros Htop Hwin Hsel.
  destruct (getitem_in_range (files a) (selected_index a) ltac:(lia))
    as (f & Hg & Hn).
  exists f. split; [exact Hg | ].
  unfold draw_list, slice_from. cbv zeta.
  replace (top_index a <? 0) with false by (symmetry; apply Z.ltb_ge; lia).
  split; [ | split].
  - rewrite (draw_lines_file _ _ _ 0 _ _ f).
    + do 2 f_equal. apply Z.eqb_eq. lia.
    + lia.
    + rewrite nth_error_skipn. rewrite <- Hn. f_equal. lia.
  - intros i l Hl Hh.
    rewrite (draw_lines_highlighted _ _ _ _ _ _ _ Hl) in Hh.
    apply Z.eqb_eq in Hh. lia.
  - rewrite draw_lines_length by lia.
    unfold len. rewrite length_skipn. unfold len in Hsel. lia.
Qed.

End Drawing.

(** ** Choice of the output device *)

Section DeviceSearch.

Import Devices.

Variable lower : string -> string.

(** Whether the entry is what the search looks for. *)
Lemma search_found (h : Host) (pref : string) (n : nat) (start i : Z) :
  search lower h pref start n = Some i <->
  start <= i < start + Z.of_nat n /\
  (exists info,
     get_device_info_by_index h i = Ret info /\
     ((0 <? get_or (maxOutputChannels info) 0)
      && contains pref (lower (get_or (name info) EmptyString)) = true)%bool) /\
  (forall j, start <= j < i ->
     exists info,
       get_device_info_by_index h j = Ret info /\
       ((0 <? get_or (maxOutputChannels info) 0)
        && contains pref (lower (get_or (name info) EmptyString)) = false)%bool).
Proof.
  revert start. induction n as [ | n IH]; intros start.
  - cbn [search]. split; [discriminate | ]. intros [H _]. lia.
  - cbn [search].
    destruct (get_device_info_by_index h start) as [info | e] eqn:Hinfo.
    + cbv zeta.
      destruct ((0 <? get_or (maxOutputChannels info) 0)
                && contains pref (lower (get_or (name info) EmptyString)))%bool
        eqn:Hm.
      * split.
        -- intros H. inversion H; subst i. split; [lia | split].
           ++ exists info. split; assumption.
           ++ intros j Hj. lia.
        -- intros (Hr & (info' & Hi' & Hm') & Hbefore).
           destruct (Z.eq_dec i start) as [-> | Hne]; [reflexivity | ].
           destruct (Hbefore start ltac:(lia)) as (info2 & Hi2 & Hm2).
           rewrite Hinfo in Hi2. inversion Hi2; subst info2. congruence.
      * rewrite IH. split.
        -- intros (Hr & Hfound & Hbefore). split; [lia | split; [exact Hfound | ]].
           intros j Hj. destruct (Z.eq_dec j start) as [-> | Hne].
           ++ exists info. split; assumption.
           ++ apply Hbefore. lia.
        -- intros (Hr & (info' & Hi' & Hm') & Hbefore).
           assert (Hne : i <> start).
           { intros ->. rewrite Hinfo in Hi'. inversion Hi'; subst. congruence. }
           split; [lia | split; [exists info'; split; assumption | ]].
           intros j Hj. apply Hbefore. lia.
    + split; [discriminate | ].
      intros (Hr & (info' & Hi' & Hm') & Hbefore).
      destruct (Z.eq_dec i start) as [-> | Hne]; [congruence | ].
      destruct (Hbefore start ltac:(lia)) as (info2 & Hi2 & _). congruence.
Qed.

(** X20: [__find_output_device_index] answers [i] exactly when the device
    count can be read, [i] is below it, device [i] has output channels
    and the lower-cased preferred name inside its lower-cased name, and
    every device before it could be read and is not such a device.  A
    device entry that cannot be read before a match, or a count that cannot
    be read, ends the search with no result. *)
Theorem find_output_device_is_first_match (h : Host) (preferred_name : string)
        (i : Z) :
  find_output_device_index lower h preferred_name = Some i <->
  exists count,
    get_device_count h = Ret count /\ 0 <= i < count /\
    (exists info,
       get_device_info_by_index h i = Ret info /\
       ((0 <? get_or (maxOutputChannels info) 0)
        && contains (lower preferred_name)
                    (lower (get_or (name info) EmptyString)) = true)%bool) /\
    (forall j, 0 <= j < i ->
       exists info,
         get_device_info_by_index h j = Ret info /\
         ((0 <? get_or (maxOutputChannels info) 0)
          && contains (lower preferred_name)
                      (lower (get_or (name info) EmptyString)) = false)%bool).
Proof.
  unfold find_output_device_index. cbv zeta.
  destruct (get_device_count h) as [count | e].
  - rewrite search_found. split.
    + intros (Hr & Hf & Hb). exists count.
      split; [reflexivity | split; [lia | split; assumption]].
    + intros (count' & Hc & Hr & Hf & Hb). inversion Hc; subst count'.
      split; [lia | split; assumption].
  - split; [discriminate | ]. intros (count & Hc & _). discriminate.
Qed.

End DeviceSearch.

(** ** Switching between applications *)

(** X21: with at least one application and the active index in range,
    [next_app] and [previous_app] keep it in range, wrap around at the two
    ends, and undo each other. *)
Theorem next_previous_app {App : Type} (s : AppState.t App) :
  0 <= AppState.active_app s < len (AppState.apps s) ->
  let n := len (AppState.apps s) in
  AppState.active_app (AppState.next_app s)
  = (AppState.active_app s + 1) mod n /\
  AppState.active_app (AppState.previous_app s)
  = (AppState.active_app s - 1) mod n /\
  AppState.previous_app (AppState.next_app s) = s /\
  AppState.next_app (AppState.previous_app s) = s.
Proof.
  intros Hr n. subst n. destruct s as [apps active]. cbn in *.
  unfold AppState.next_app, AppState.previous_app. cbn.
  destruct (active + 1 <? len apps) eqn:E1; cbn [negb];
    destruct (active - 1 <? 0) eqn:E2;
    [apply Z.ltb_lt in E1 | apply Z.ltb_lt in E1
     | apply Z.ltb_ge in E1 | apply Z.ltb_ge in E1];
    [apply Z.ltb_lt in E2 | apply Z.ltb_ge in E2
     | apply Z.ltb_lt in E2 | apply Z.ltb_ge in E2].
  - assert (active = 0) by lia. subst active.
    replace (0 + 1 - 1 <? 0) with false by (symmetry; apply Z.ltb_ge; lia).
    replace (negb (len apps - 1 + 1 <? len apps)) with true
      by (symmetry; apply negb_true_iff, Z.ltb_ge; lia).
    repeat split.
    + rewrite Z.mod_small by lia. reflexivity.
    + replace (0 - 1) with (-1 + 1 * len apps - len apps + 0) by lia.
      replace (-1 + 1 * len apps - len apps + 0) with (-(1)) by lia.
      rewrite Z.mod_opp_l_nz; rewrite ?Z.mod_small; lia.
  - replace (active + 1 - 1 <? 0) with false by (symmetry; apply Z.ltb_ge; lia).
    replace (negb (active - 1 + 1 <? len apps)) with false
      by (symmetry; apply negb_false_iff, Z.ltb_lt; lia).
    repeat split; try (rewrite Z.mod_small by lia; reflexivity);
      f_equal; lia.
  - assert (active = 0) by lia. subst active.
    assert (len apps = 1) by lia.
    replace (0 - 1 <? 0) with true by reflexivity.
    replace (negb (len apps - 1 + 1 <? len apps)) with true
      by (symmetry; apply negb_true_iff, Z.ltb_ge; lia).
    rewrite H. repeat split.
  - assert (active = len apps - 1) by lia.
    replace (0 - 1 <? 0) with true by reflexivity.
    replace (negb (active - 1 + 1 <? len apps)) with false
      by (symmetry; apply negb_false_iff, Z.ltb_lt; lia).
    repeat split.
    + replace (active + 1) with (0 + 1 * len apps) by lia.
      rewrite Z.mod_add by lia. reflexivity.
    + rewrite Z.mod_small by lia. reflexivity.
    + f_equal. lia.
    + f_equal. lia.
Qed.


(** ** The rotary encoder *)

(** X22: for readings of the two encoder pins, the direction of a
    transition is the opposite of the direction of the transition back; it
    is non-zero exactly when one of the two pins changed and the other did
    not; and a round of the worker sends [KeyDown] for a positive
    direction, [KeyUp] for a negative one and nothing otherwise (or when
    the rate limit holds the step back), remembering the state read. *)
Theorem direction_of_transition (a b a' b' : Z) :
  is_bit a -> is_bit b -> is_bit a' -> is_bit b' ->
  let s := encoder_state a b in
  let s' := encoder_state a' b' in
  direction s s' = - direction s' s /\
  (direction s s' <> 0 <-> (a = a' /\ b <> b') \/ (a <> a' /\ b = b')) /\
  (direction s s' = 1 \/ direction s s' = -1 \/ direction s s' = 0) /\
  (forall rate_ok,
     encoder_round s a' b' rate_ok
     = (s', if rate_ok then
              if direction s s' =? 1 then Some KeyDown
              else if direction s s' =? -1 then Some KeyUp
              else None
            else None)).
Proof.
  intros [-> | ->] [-> | ->] [-> | ->] [-> | ->]; cbn;
    (split; [reflexivity | split; [lia | split; [lia | ]]]);
    intros []; reflexivity.
Qed.

Lemma direction_of_transition_witness :
  is_bit 0 /\ is_bit 1 /\
  encoder_run (encoder_state 0 0) [(0, 1); (1, 1); (1, 0); (0, 0)]
  = [KeyDown; KeyDown; KeyDown; KeyDown] /\
  direction (encoder_state 0 0) (encoder_state 0 1)
  = - direction (encoder_state 0 1) (encoder_state 0 0).
Proof.
  split; [left; reflexivity | split; [right; reflexivity | ]].
  split; [reflexivity | ].
  apply (direction_of_transition 0 0 0 1);
    first [left; reflexivity | right; reflexivity].
Defined.

(** ** The mode selector *)

Lemma filter_nil_iff {A : Type} (f : A -> bool) (l : list A) :
  filter f l = [] <-> forall y, In y l -> f y = false.
Proof.
  induction l as [ | a l IH]; cbn.
  - split; [intros _ y [] | reflexivity].
  - destruct (f a) eqn:Ha.
    + split; [discriminate | ]. intros H.
      rewrite (H a (or_introl eq_refl)) in Ha. discriminate.
    + rewrite IH. split.
      * intros H y [<- | Hy]; [exact Ha | apply H; exact Hy].
      * intros H y Hy. apply H. right. exact Hy.
Qed.

(** Filtering a list without repetition leaves exactly [x] when [x] is
    the one element that passes. *)
Lemma filter_singleton {A : Type} (f : A -> bool) (l : list A) (x : A) :
  NoDup l ->
  (filter f l = [x] <->
   In x l /\ f x = true /\ forall y, In y l -> f y = true -> y = x).
Proof.
  intros Hnd. induction Hnd as [ | a l Ha Hnd IH]; cbn.
  - split; [discriminate | intros [[] _]].
  - destruct (f a) eqn:Hfa.
    + split.
      * intros H. inversion H as [[Hax Hrest]]. subst a.
        split; [left; reflexivity | split; [exact Hfa | ]].
        intros y [<- | Hy] Hfy; [reflexivity | ].
        rewrite filter_nil_iff in Hrest. rewrite (Hrest y Hy) in Hfy.
        discriminate.
      * intros (Hin & Hfx & Huniq).
        assert (a = x) by (apply Huniq; [left; reflexivity | exact Hfa]).
        subst a. f_equal. apply filter_nil_iff. intros y Hy.
        destruct (f y) eqn:Hfy; [ | reflexivity].
        assert (y = x) by (apply Huniq; [right; exact Hy | exact Hfy]).
        subst y. contradiction.
    + rewrite IH. split.
      * intros (Hin & Hfx & Huniq).
        split; [right; exact Hin | split; [exact Hfx | ]].
        intros y [<- | Hy] Hfy; [congruence | apply Huniq; assumption].
      * intros ([<- | Hin] & Hfx & Huniq); [congruence | ].
        split; [exact Hin | split; [exact Hfx | ]].
        intros y Hy Hfy. apply Huniq; [right; exact Hy | exact Hfy].
Qed.

Lemma mode_pins_lookup (pin i : Z) :
  In (pin, i) mode_pins <->
  In pin (map fst mode_pins) /\ dict_get mode_pins pin 0 = i.
Proof.
  unfold mode_pins. cbn. split.
  - intros H.
    repeat (destruct H as [H | H]; [inversion H; subst; cbn; auto 10 | ]).
    contradiction.
  - intros [H Hi].
    repeat (destruct H as [H | H]; [subst; cbn; auto 10 | ]).
    contradiction.
Qed.

Lemma mode_pins_NoDup : NoDup (map fst mode_pins).
Proof.
  unfold mode_pins. cbn.
  repeat (constructor; [cbn; intros H; repeat (destruct H as [H | H]; [discriminate | ]); exact H | ]).
  constructor.
Qed.

(** X23: [read_active_index] answers the application index of a pin
    exactly when that pin reads LOW and no other pin of the selector
    does. *)
Theorem read_active_index_single_low (low : Z -> bool) (i : Z) :
  read_active_index low = Some i <->
  exists pin,
    In (pin, i) mode_pins /\ low pin = true /\
    forall pin' i', In (pin', i') mode_pins -> low pin' = true -> pin' = pin.
Proof.
  unfold read_active_index. split.
  - destruct (filter low (map fst mode_pins)) as [ | pin [ | q rest]] eqn:Hf;
      try discriminate.
    intros H. inversion H; subst i. clear H.
    apply (filter_singleton low _ pin mode_pins_NoDup) in Hf.
    destruct Hf as (Hin & Hlow & Huniq).
    exists pin. split; [apply mode_pins_lookup; split; [exact Hin | reflexivity] | ].
    split; [exact Hlow | ].
    intros pin' i' Hin' Hlow'. apply Huniq; [ | exact Hlow'].
    apply mode_pins_lookup in Hin'. apply Hin'.
  - intros (pin & Hin & Hlow & Huniq).
    apply mode_pins_lookup in Hin. destruct Hin as [Hin Hi].
    assert (Hf : filter low (map fst mode_pins) = [pin]).
    { apply (filter_singleton low _ pin mode_pins_NoDup).
      split; [exact Hin | split; [exact Hlow | ]].
      intros y Hy Hfy. apply (Huniq y (dict_get mode_pins y 0)); [ | exact Hfy].
      apply mode_pins_lookup. split; [exact Hy | reflexivity]. }
    rewrite Hf, Hi. reflexivity.
Qed.

Section Debounce.

Import Selector.

Lemma option_Z_eqb_eq (x y : option Z) : option_Z_eqb x y = true <-> x = y.
Proof.
  destruct x as [a | ], y as [b | ]; cbn; split; intros H;
    try discriminate; try reflexivity.
  - apply Z.eqb_eq in H. congruence.
  - inversion H. apply Z.eqb_refl.
Qed.

Lemma rounds_snoc (rs : list (option Z * bool)) (r : option Z * bool) :
  rounds (rs ++ [r]) = fst (round (fst r) (snd r) (rounds rs)).
Proof. unfold rounds. rewrite fold_left_app. reflexivity. Qed.

Lemma round_state (idx : option Z) (ok : bool) (s : t) :
  candidate (fst (round idx ok s)) = idx /\
  stable_count (fst (round idx ok s))
  = (if option_Z_eqb idx (candidate s) then stable_count s + 1 else 1).
Proof.
  unfold round. cbv zeta.
  destruct (option_Z_eqb idx (candidate s)) eqn:E.
  - apply option_Z_eqb_eq in E. subst idx.
    destruct (candidate s) as [i | ]; cbn [candidate stable_count last_index].
    + destruct ((3 <=? stable_count s + 1) && _)%bool; [destruct ok | ];
        split; reflexivity.
    + split; reflexivity.
  - destruct idx as [i | ]; cbn [candidate stable_count last_index].
    + destruct ((3 <=? 1) && _)%bool; [destruct ok | ]; split; reflexivity.
    + split; reflexivity.
Qed.

(** The counter never runs ahead of the readings: the last
    [stable_count] readings all are the candidate. *)
Lemma rounds_stable (rs : list (option Z * bool)) :
  0 <= stable_count (rounds rs) /\
  forall j, (Z.of_nat j < stable_count (rounds rs)) ->
            nth_error (rev (map fst rs)) j = Some (candidate (rounds rs)).
Proof.
  induction rs as [ | r rs IH] using rev_ind.
  - cbn. split; [lia | ]. intros j Hj. lia.
  - rewrite rounds_snoc, map_app, rev_app_distr. cbn [map rev app].
    destruct (round_state (fst r) (snd r) (rounds rs)) as [Hc Hs].
    rewrite Hc, Hs. destruct IH as [IH0 IH].
    destruct (option_Z_eqb (fst r) (candidate (rounds rs))) eqn:E.
    + apply option_Z_eqb_eq in E. split; [lia | ].
      intros [ | j] Hj; [reflexivity | ]. cbn [nth_error].
      rewrite E. apply IH. lia.
    + split; [lia | ]. intros [ | j] Hj; [reflexivity | lia].
Qed.

(** X24: from the start of the thread, the selector thread calls
    [set_active_app_index] with an index only when the present reading and
    the two readings before it all were that index, and the index is not
    the one last applied; after a call that returned, the same reading
    causes no further call. *)
Theorem selector_is_debounced (rs : list (option Z * bool))
        (idx : option Z) (call_ok : bool) (i : Z) :
  snd (round idx call_ok (rounds rs)) = Some i ->
  idx = Some i /\
  (exists pre, map fst rs = pre ++ [Some i; Some i]) /\
  last_index (rounds rs) <> Some i /\
  (call_ok = true ->
   forall ok', snd (round (Some i) ok' (fst (round idx call_ok (rounds rs))))
               = None).
Proof.
  intros Hfire.
  destruct (rounds_stable rs) as [H0 Hlast].
  unfold round in *. cbv zeta in *.
  destruct idx as [i0 | ]; [ | destruct (option_Z_eqb None _); discriminate].
  destruct (option_Z_eqb (Some i0) (candidate (rounds rs))) eqn:Ec;
    cbn [stable_count last_index candidate] in *.
  - destruct ((3 <=? stable_count (rounds rs) + 1)
              && negb (option_Z_eqb (Some i0) (last_index (rounds rs))))%bool
      eqn:Econd; [ | discriminate].
    cbn [snd] in Hfire. inversion Hfire; subst i0.
    apply andb_prop in Econd. destruct Econd as [E3 Enew].
    apply Z.leb_le in E3. apply negb_true_iff in Enew.
    apply option_Z_eqb_eq in Ec.
    split; [reflexivity | split; [ | split]].
    + pose proof (Hlast 0%nat ltac:(lia)) as H1.
      pose proof (Hlast 1%nat ltac:(lia)) as H2.
      rewrite <- Ec in H1, H2.
      destruct (rev (map fst rs)) as [ | x [ | y rest]] eqn:Hrev;
        try discriminate.
      cbn in H1, H2. inversion H1; inversion H2; subst x y.
      exists (rev rest).
      rewrite <- (rev_involutive (map fst rs)), Hrev. cbn.
      rewrite <- app_assoc. reflexivity.
    + intros Heq. rewrite Heq in Enew. cbn in Enew.
      rewrite Z.eqb_refl in Enew. discriminate.
    + intros -> ok'. cbn [fst candidate stable_count last_index].
      rewrite <- Ec. cbn [option_Z_eqb]. rewrite Z.eqb_refl.
      cbn [candidate stable_count last_index option_Z_eqb negb].
      rewrite Z.eqb_refl. cbn [negb]. rewrite andb_false_r. reflexivity.
  - cbn [Z.leb Z.compare Pos.compare Pos.compare_cont andb] in Hfire.
    discriminate.
Qed.

End Debounce.

Lemma selector_is_debounced_witness :
  snd (Selector.round (Some 3) true
         (Selector.rounds [(Some 1, true); (Some 3, true); (Some 3, true)]))
  = Some 3 /\
  exists pre,
    map fst [(Some 1, true); (Some 3, true); (Some 3, true)]
    = pre ++ [Some 3; Some 3].
Proof.
  split; [reflexivity | ].
  apply (selector_is_debounced
           [(Some 1, true); (Some 3, true); (Some 3, true)] (Some 3) true 3).
  reflexivity.
Defined.


(** ** The statements above on concrete states *)

Lemma three_tracks_well_formed : well_formed three_tracks.
Proof.
  split; [apply Permutation_refl | ]. intros _. unfold len. cbn. lia.
Qed.

Lemma playing_a_well_formed : well_formed playing_a.
Proof.
  split; [apply Permutation_refl | ]. intros _. unfold len. cbn. lia.
Qed.

Lemma playing_a_consistent : engine_consistent (RadioApp.player playing_a).
Proof.
  split; [reflexivity | ]. intros _. eexists. split; [reflexivity | ].
  cbn. repeat split; lia.
Qed.

Lemma env_all_ok (n : Z) : 0 <= n -> env_ok (env_all n).
Proof. intros Hn f m H. inversion H; subst. exact Hn. Qed.

Lemma env_all_readable (n : Z) (a : RadioApp.t) : readable (env_all n) a.
Proof. intros f _. split; [exists n; reflexivity | reflexivity]. Qed.

Lemma focused_buttons_focus : focus_on_selected focused_buttons.
Proof.
  intros i c Hn.
  do 7 (destruct i as [ | i];
        [inversion Hn; subst; cbn; split; intros H;
         first [reflexivity | discriminate | lia] | ]).
  destruct i; discriminate.
Qed.

Lemma key_left_right_move_focus_witness :
  exists bl br,
    Buttons.on_key_left focused_buttons = (Ret tt, bl) /\
    Buttons.on_key_right focused_buttons = (Ret tt, br) /\
    Buttons.selected_control_index bl = 1 /\
    Buttons.selected_control_index br = 3.
Proof.
  destruct (key_left_right_move_focus RadioApp.t focused_buttons
              ltac:(change (0 <= 2 < 7); lia) focused_buttons_focus)
    as (bl & br & Hl & Hr & Hil & Hir & _).
  exists bl, br.
  split; [exact Hl | split; [exact Hr | split; [exact Hil | exact Hir]]].
Defined.

Lemma key_a_keeps_focus_witness :
  Buttons.selected_control_index (state_of (Buttons.on_key_a focused_buttons))
  = 2 /\
  focus_on_selected (state_of (Buttons.on_key_a focused_buttons)).
Proof.
  destruct (key_a_keeps_focus RadioApp.t focused_buttons
              ltac:(change (0 <= 2 < 7); lia) focused_buttons_focus)
    as (_ & _ & Hi & _ & Hf).
  split; [exact Hi | exact Hf].
Defined.

Lemma well_formed_preserved_witness :
  well_formed
    (run_events (env_all 100)
       [EvPlay; EvRandom [1; 0]%nat; EvSkip; EvPull 1024; EvTrackEnded]
       three_tracks).
Proof.
  apply (well_formed_preserved (env_all 100) _ three_tracks).
  apply three_tracks_well_formed.
Defined.

Lemma play_action_plays_selected_witness :
  getitem
    (RadioApp.playlist
       (state_of (RadioApp.play_action (env_all 100) playing_a_selected_b)))
    (RadioApp.playing_index
       (state_of (RadioApp.play_action (env_all 100) playing_a_selected_b)))
  = Ret 1.
Proof.
  apply (play_action_plays_selected (env_all 100) playing_a_selected_b).
  - split; [apply Permutation_refl | ]. intros _. unfold len. cbn. lia.
  - discriminate.
Defined.

Lemma pause_then_play_resumes_witness :
  result_of
    (RadioApp.play_action env_none (state_of (RadioApp.pause_action playing_a)))
  = Ret true /\
  AudioPlayer.total_frames
    (RadioApp.player
       (state_of (RadioApp.play_action env_none
                    (state_of (RadioApp.pause_action playing_a)))))
  = 100.
Proof.
  destruct (pause_then_play_resumes env_none playing_a playing_a_well_formed
              ltac:(discriminate) eq_refl eq_refl)
    as (_ & _ & _ & Hr & _ & _ & Ht & _).
  split; [exact Hr | exact Ht].
Defined.

Lemma step_action_moves_witness :
  RadioApp.playing_index (state_of (step_action (env_all 100) false playing_a))
  = 2.
Proof.
  apply (step_action_moves (env_all 100) false playing_a playing_a_well_formed).
  discriminate.
Defined.

Lemma call_next_advances_witness :
  RadioApp.playing_index (state_of (RadioApp.call_next (env_all 100) playing_a))
  = 1.
Proof.
  apply (call_next_advances (env_all 100) playing_a playing_a_well_formed);
    first [discriminate | reflexivity].
Defined.

Lemma readable_actions_return_witness :
  result_of (RadioApp.play_action (env_all 100) three_tracks) = Ret true.
Proof.
  destruct (readable_actions_return (env_all 100) three_tracks
              three_tracks_well_formed ltac:(discriminate)
              (env_all_readable 100 three_tracks)) as (H & _).
  exact H.
Defined.

Lemma stale_notification_ignored_witness :
  RadioApp.call_next (env_all 100) (state_of (RadioApp.stop_action playing_a))
  = (Ret tt, state_of (RadioApp.stop_action playing_a)).
Proof.
  apply (stale_notification_ignored (env_all 100) playing_a playing_a_consistent).
Defined.

Lemma engine_consistent_preserved_witness :
  engine_consistent
    (run_ops (env_all 100) [OpLoad "media/a.wav"; OpStart; OpCallback 40]
       AudioPlayer.init).
Proof.
  apply (engine_consistent_preserved (env_all 100)
           [OpLoad "media/a.wav"; OpStart; OpCallback 40] AudioPlayer.init).
  - repeat constructor; cbn; try lia.
    intros n H. inversion H; subst. lia.
  - apply init_consistent.
Defined.

Lemma application_keeps_engine_consistent_witness :
  engine_consistent
    (RadioApp.player
       (run_events (env_all 100) [EvSkip; EvPull 1024; EvTrackEnded] playing_a)).
Proof.
  assert (Hevs : Forall event_ok [EvSkip; EvPull 1024; EvTrackEnded]).
  { repeat constructor. cbn. lia. }
  assert (Hnn : frames_nonneg (RadioApp.player playing_a)).
  { unfold frames_nonneg. cbn. lia. }
  destruct (application_keeps_engine_consistent (env_all 100)
              (env_all_ok 100 ltac:(lia))
              [EvSkip; EvPull 1024; EvTrackEnded] playing_a
              Hevs playing_a_consistent Hnn) as (_ & H & _).
  exact H.
Defined.

Lemma volume_actions_align_witness :
  exists up down,
    RadioApp.mixer (state_of (RadioApp.increase_volume_action three_tracks))
    = mixer_at up /\
    RadioApp.mixer (state_of (RadioApp.decrease_volume_action three_tracks))
    = mixer_at down /\
    up mod 10 = 0 /\ down mod 10 = 0.
Proof.
  destruct (volume_actions_align three_tracks 15 eq_refl ltac:(lia))
    as (up & down & _ & _ & Hu & Hd & _ & _ & Hum & Hdm & _).
  exists up, down.
  split; [exact Hu | split; [exact Hd | split; [exact Hum | exact Hdm]]].
Defined.

Lemma volume_steps_cancel_witness :
  RadioApp.mixer
    (state_of (RadioApp.decrease_volume_action
                 (state_of (RadioApp.increase_volume_action empty_app))))
  = mixer_at 50.
Proof.
  apply (volume_steps_cancel empty_app 50 eq_refl ltac:(lia) eq_refl). lia.
Defined.

Lemma volume_actions_without_mixer_witness :
  RadioApp.increase_volume_action (RadioApp.init [] mixer_without_control)
  = (Ret tt, RadioApp.init [] mixer_without_control).
Proof.
  apply (volume_actions_without_mixer (RadioApp.init [] mixer_without_control));
    reflexivity.
Defined.

Lemma scroll_shows_selection_witness :
  window_ok 2
    (scroll 2 (RadioApp.on_key_down (RadioApp.on_key_down three_tracks))).
Proof.
  destruct (scroll_shows_selection 2
              (RadioApp.on_key_down (RadioApp.on_key_down three_tracks))
              ltac:(lia) ltac:(change (0 <= 2 < 3); lia))
    as (_ & _ & H & _).
  apply H; [change (2 < 3) | change (0 <= 0) | change (0 + 2 <= 3)]; lia.
Defined.

Lemma draw_list_highlights_selection_witness :
  exists f,
    nth_error (draw_list 2 three_tracks) 0
    = Some {| highlighted := true; text := FileName f |}.
Proof.
  destruct (draw_list_highlights_selection 2 three_tracks
              ltac:(cbn; lia) ltac:(cbn; lia) ltac:(unfold len; cbn; lia))
    as (f & _ & H & _).
  exists f. exact H.
Defined.

Lemma next_previous_app_witness :
  AppState.active_app
    (AppState.next_app (AppState.Build_t ["INV"; "SYS"; "RAD"]%string 2)) = 0.
Proof.
  apply (next_previous_app (AppState.Build_t ["INV"; "SYS"; "RAD"]%string 2)).
  unfold len. cbn. lia.
Defined.
